(** * datahub-browser: neighborhood resolution and navigation engine

    A shallow embedding of the TypeScript sources
    - [src/lib/urn.ts]          (identifier parsing, JSON scans),
    - [src/lib/navigation.ts]   (navigation stack),
    - [src/lib/datahubClient.ts] (catalog client),
    - [src/App.tsx]             ([loadNeighborhood] and the [graph] memo),
    and the properties of the specification that are stated about them.

    A JavaScript string is modelled by the [string] of the bytes of its
    UTF-8 encoding.  The code inspects ASCII delimiters only, and the byte
    of an ASCII character never occurs inside the encoding of another
    character, so splitting, searching and slicing at such delimiters agree
    on both representations; [trim], the one primitive used that looks at
    characters beyond ASCII, is modelled on the encoding.  Arrays are
    modelled as [list], [Set<string>] as a duplicate-free [list] in
    insertion order, [Map<string, V>] as an association list in insertion
    order, and the [Record<string, V>] used as the entity cache as a
    [gmap string V]. *)

From Stdlib Require Import ZArith Lia Ascii DecimalString Reals.
From stdpp Require Import base list strings gmap sorting.

Set Warnings "-register-all,-level-tolerance".

Local Open Scope Z_scope.

(** ** JavaScript string primitives *)

Module JsString.

(** [s.startsWith(p)] *)
Fixpoint startsWith (p s : string) : bool :=
  match p, s with
  | EmptyString, _ => true
  | String a p', String b s' => Ascii.eqb a b && startsWith p' s'
  | String _ _, EmptyString => false
  end.

(** The remainder of [s] after the prefix [p], when [s.startsWith(p)]. *)
Fixpoint stripPrefix (p s : string) : option string :=
  match p, s with
  | EmptyString, _ => Some s
  | String a p', String b s' =>
      if Ascii.eqb a b then stripPrefix p' s' else None
  | String _ _, EmptyString => None
  end.

(** [s.lastIndexOf(c)] for a one-character needle; [-1] when absent. *)
Fixpoint lastIndexOf (c : ascii) (s : string) : Z :=
  match s with
  | EmptyString => -1
  | String a s' =>
      let r := lastIndexOf c s' in
      if 0 <=? r then r + 1 else if Ascii.eqb a c then 0 else -1
  end.

Fixpoint take (n : nat) (s : string) : string :=
  match n, s with
  | O, _ => EmptyString
  | S _, EmptyString => EmptyString
  | S n', String a s' => String a (take n' s')
  end.

Fixpoint drop (n : nat) (s : string) : string :=
  match n, s with
  | O, _ => s
  | S _, EmptyString => EmptyString
  | S n', String _ s' => drop n' s'
  end.

(** Relative index resolution of [slice]: negative counts from the end. *)
Definition clampIndex (len i : Z) : Z :=
  if i <? 0 then Z.max (len + i) 0 else Z.min i len.

(** [s.slice(from, to)] *)
Definition slice (s : string) (from to : Z) : string :=
  let len := Z.of_nat (String.length s) in
  let a := clampIndex len from in
  let b := clampIndex len to in
  take (Z.to_nat (b - a)) (drop (Z.to_nat a) s).

(** The maximal prefix of [s] free of [c], and what follows it
    (beginning with [c] unless empty). *)
Fixpoint span (c : ascii) (s : string) : string * string :=
  match s with
  | EmptyString => (EmptyString, EmptyString)
  | String a s' =>
      if Ascii.eqb a c then (EmptyString, s)
      else let '(x, y) := span c s' in (String a x, y)
  end.

(** [s.split(c)] for a one-character separator: never the empty array. *)
Fixpoint split (c : ascii) (s : string) : list string :=
  match s with
  | EmptyString => [EmptyString]
  | String a s' =>
      if Ascii.eqb a c then EmptyString :: split c s'
      else match split c s' with
           | [] => [String a EmptyString]
           | x :: r => String a x :: r
           end
  end.

(** [parts.join(sep)] *)
Fixpoint join (sep : string) (parts : list string) : string :=
  match parts with
  | [] => EmptyString
  | [x] => x
  | x :: r => x +:+ sep +:+ join sep r
  end.

(** [s.includes(c)] for a one-character needle. *)
Fixpoint hasChar (c : ascii) (s : string) : bool :=
  match s with
  | EmptyString => false
  | String a s' => Ascii.eqb a c || hasChar c s'
  end.

End JsString.

(** ** [src/lib/urn.ts]: identifier parsing *)

Definition colon : ascii := ":"%char.
Definition hash : ascii := "#"%char.
Definition lparen : ascii := "("%char.
Definition rparen : ascii := ")"%char.
Definition bar : ascii := "|"%char.

(** [urn.match(/^urn:li:([^:]+):/)]: the captured group, when the pattern
    matches.  The greedy class [[^:]+] takes the whole colon-free run after
    the prefix, which must be non-empty and followed by a colon. *)
Definition matchUrnType (urn : string) : option string :=
  match JsString.stripPrefix "urn:li:" urn with
  | None => None
  | Some rest =>
      match JsString.span colon rest with
      | (EmptyString, _) => None
      | (seg, String _ _) => Some seg
      | (_, EmptyString) => None
      end
  end.

Definition parseUrnType (urn : string) : string :=
  match matchUrnType urn with
  | Some m => m
  | None => "entity"
  end.

Definition parseUrnName (urn : string) : string :=
  let hashParts := JsString.split hash urn in
  let beforeHash := default EmptyString (head hashParts) in
  let lastParen := JsString.lastIndexOf lparen beforeHash in
  let lastClose := JsString.lastIndexOf rparen beforeHash in
  if (0 <=? lastParen) && (lastParen <? lastClose) then
    JsString.slice beforeHash (lastParen + 1) lastClose
  else
    let urnParts := JsString.split colon beforeHash in
    default urn (last urnParts).

(** ** [src/lib/navigation.ts]: the navigation stack *)

Inductive NavigationMode := connect | node | breadcrumb.

Module JsArray.

(** [l.lastIndexOf(x)] with strict equality on strings; [-1] when absent. *)
Fixpoint lastIndexOf (l : list string) (x : string) : Z :=
  match l with
  | [] => -1
  | y :: l' =>
      let r := lastIndexOf l' x in
      if 0 <=? r then r + 1 else if String.eqb y x then 0 else -1
  end.

(** [l.slice(0, to)] *)
Definition slice0 {A} (l : list A) (to : Z) : list A :=
  take (Z.to_nat (JsString.clampIndex (Z.of_nat (length l)) to)) l.

(** [l[i]] for an integer index: [undefined] out of range. *)
Definition at_ {A} (l : list A) (i : Z) : option A :=
  if i <? 0 then None else l !! Z.to_nat i.

End JsArray.

(** The guard of the breadcrumb branch: the index is a number inside the
    stack and the element there is the target.  An index that is not an
    integer selects no element and is covered by [None]. *)
Definition breadcrumbHit (currentStack : list string) (nextUrn : string)
    (breadcrumbIndex : option Z) : bool :=
  match breadcrumbIndex with
  | None => false
  | Some i =>
      (0 <=? i) && (i <? Z.of_nat (length currentStack)) &&
      match JsArray.at_ currentStack i with
      | Some x => String.eqb x nextUrn
      | None => false
      end
  end.

Definition getNextNavigationStack (currentStack : list string)
    (nextUrn : string) (mode : NavigationMode)
    (breadcrumbIndex : option Z) : list string :=
  match mode with
  | connect => [nextUrn]
  | breadcrumb =>
      if breadcrumbHit currentStack nextUrn breadcrumbIndex then
        JsArray.slice0 currentStack (default 0 breadcrumbIndex + 1)
      else
        let existingIndex := JsArray.lastIndexOf currentStack nextUrn in
        if 0 <=? existingIndex then
          JsArray.slice0 currentStack (existingIndex + 1)
        else [nextUrn]
  | node =>
      if (Z.of_nat (length currentStack) =? 0) then [nextUrn]
      else if
        match JsArray.at_ currentStack (Z.of_nat (length currentStack) - 1) with
        | Some x => String.eqb x nextUrn
        | None => false
        end
      then currentStack
      else
        let existingIndex := JsArray.lastIndexOf currentStack nextUrn in
        if 0 <=? existingIndex then
          JsArray.slice0 currentStack (existingIndex + 1)
        else currentStack ++ [nextUrn]
  end.

(** ** JSON values, as produced by [response.json()] *)

(** Numbers are only ever tested for truthiness by the code below, so an
    integer stands for the number.  An object is the list of its own
    properties in enumeration order. *)
Inductive json :=
| JNull
| JBool (b : bool)
| JNum (n : Z)
| JStr (s : string)
| JArr (items : list json)
| JObj (fields : list (string * json)).

Module Js.

(** [!!v] *)
Definition truthy (v : json) : bool :=
  match v with
  | JNull => false
  | JBool b => b
  | JNum n => negb (n =? 0)
  | JStr s => negb (String.eqb s "")
  | JArr _ | JObj _ => true
  end.

(** [typeof v === 'object'] (true of [null] as well). *)
Definition typeofObject (v : json) : bool :=
  match v with
  | JNull | JArr _ | JObj _ => true
  | _ => false
  end.

(** [Array.isArray(v)], for a possibly [undefined] operand. *)
Definition isArray (v : option json) : option (list json) :=
  match v with
  | Some (JArr items) => Some items
  | _ => None
  end.

Fixpoint lookupField (fields : list (string * json)) (key : string)
    : option json :=
  match fields with
  | [] => None
  | (k, v) :: rest => if String.eqb k key then Some v else lookupField rest key
  end.

(** [v[key]] for a non-null [v] and one of the (non-numeric, non-builtin)
    property names read by the code: [None] is [undefined]. *)
Definition get (v : json) (key : string) : option json :=
  match v with
  | JObj fields => lookupField fields key
  | _ => None
  end.

(** [typeof v[key] === 'string' && v[key]]: a non-empty string property. *)
Definition nonEmptyString (v : json) (key : string) : option string :=
  match get v key with
  | Some (JStr s) => if String.eqb s "" then None else Some s
  | _ => None
  end.

(** [Object.values(v)] of an array or object. *)
Definition values (v : json) : list json :=
  match v with
  | JArr items => items
  | JObj fields => map snd fields
  | _ => []
  end.

(** [a ?? b] *)
Definition nullish (a : option json) (b : json) : json :=
  match a with
  | None | Some JNull => b
  | Some v => v
  end.

End Js.

(** ** Insertion-ordered [Set<string>] and [Map<string, V>] *)

Module JsSet.

Definition has (s : list string) (x : string) : bool :=
  existsb (String.eqb x) s.

(** [s.add(x)] *)
Definition add (s : list string) (x : string) : list string :=
  if has s x then s else s ++ [x].

(** [new Set(l)] *)
Definition ofList (l : list string) : list string :=
  fold_left add l [].

End JsSet.

Module JsMap.

Section WithValues.
Context {V : Type}.

Fixpoint get (m : list (string * V)) (k : string) : option V :=
  match m with
  | [] => None
  | (k', v) :: rest => if String.eqb k' k then Some v else get rest k
  end.

Definition has (m : list (string * V)) (k : string) : bool :=
  match get m k with Some _ => true | None => false end.

(** [m.set(k, v)]: an existing key keeps its position. *)
Fixpoint set (m : list (string * V)) (k : string) (v : V)
    : list (string * V) :=
  match m with
  | [] => [(k, v)]
  | (k', v') :: rest =>
      if String.eqb k' k then (k', v) :: rest
      else (k', v') :: set rest k v
  end.

Definition keys (m : list (string * V)) : list string := map fst m.
Definition values (m : list (string * V)) : list V := map snd m.
End WithValues.

End JsMap.

(** ** [src/lib/urn.ts]: scanning JSON for identifiers *)

Fixpoint extractUrnsFromJson (value : json) (results : list string)
    : list string :=
  match value with
  | JStr s =>
      if JsString.startsWith "urn:li:" s then JsSet.add results s else results
  | JArr items =>
      fold_left (fun acc item => extractUrnsFromJson item acc) items results
  | JObj fields =>
      fold_left (fun acc kv => let '(_, item) := kv in
                               extractUrnsFromJson item acc) fields results
  | _ => results
  end.

(** [`aspect_${index + 1}`] *)
Definition positionalLabel (index : nat) : string :=
  "aspect_" +:+ NilZero.string_of_uint (Nat.to_uint (index + 1)).

(** The closure [addAspectGroup] of [extractAspectUrnGroups]. *)
Definition addAspectGroup (groups : list (string * list string))
    (label : string) (value : json) : list (string * list string) :=
  let urns := extractUrnsFromJson value [] in
  if (0 <? Z.of_nat (length urns)) then JsMap.set groups label urns
  else groups.

(** The label of one element of a list-shaped [aspects]. *)
Definition arrayAspectLabel (aspectRecord : json) (index : nat) : string :=
  match Js.nonEmptyString aspectRecord "label" with
  | Some l => l
  | None =>
      match Js.nonEmptyString aspectRecord "name" with
      | Some l => l
      | None =>
          match Js.nonEmptyString aspectRecord "aspectName" with
          | Some l => l
          | None => positionalLabel index
          end
      end
  end.

(** The label of one entry of a map-shaped [aspects]. *)
Definition entryAspectLabel (key : string) (valueRecord : json)
    (index : nat) : string :=
  match Js.nonEmptyString valueRecord "label" with
  | Some l => l
  | None =>
      match Js.nonEmptyString valueRecord "name" with
      | Some l => l
      | None => if String.eqb key "" then positionalLabel index else key
      end
  end.

(** [list.forEach((x, index) => ...)] threading an accumulator. *)
Fixpoint forEachIndexed {A St} (f : St -> A -> nat -> St) (l : list A)
    (index : nat) (acc : St) : St :=
  match l with
  | [] => acc
  | x :: rest => forEachIndexed f rest (S index) (f acc x index)
  end.

Definition extractAspectUrnGroups (raw : json) : list (string * list string) :=
  if negb (Js.truthy raw) || negb (Js.typeofObject raw) then []
  else
    match Js.get raw "aspects" with
    | None => []
    | Some aspects =>
        if negb (Js.truthy aspects) then []
        else
          match aspects with
          | JArr items =>
              forEachIndexed
                (fun groups aspect index =>
                   if negb (Js.truthy aspect) || negb (Js.typeofObject aspect)
                   then groups
                   else addAspectGroup groups
                          (arrayAspectLabel aspect index) aspect)
                items 0%nat []
          | JObj fields =>
              forEachIndexed
                (fun groups entry index =>
                   let '(key, value) := entry in
                   if Js.truthy value && Js.typeofObject value
                   then addAspectGroup groups
                          (entryAspectLabel key value index) value
                   else groups)
                fields 0%nat []
          | _ => []
          end
    end.

(** ** [src/lib/types.ts] *)

Module DatahubObject.
Record t := mk { id : string; type : string; name : string; raw : json }.
End DatahubObject.

Module RelationshipEdge.
Record t := mk { sourceId : string; targetId : string; type : string }.
End RelationshipEdge.

Module Neighborhood.
Record t := mk {
  centerUrn : string;
  previousUrn : option string;
  parentUrns : list string;
  dependencyUrns : list string;
  aspectLabelsByUrn : gmap string (list string);
  edges : list RelationshipEdge.t
}.
End Neighborhood.

Inductive Role := center | parent | dependency | both | previous.

(** ** [src/lib/datahubClient.ts]: the catalog client *)

Module DatahubApiError.
Record t := mk {
  message : string;
  status : option Z;
  endpoint : option string;
  attemptedEndpoints : option (list string);
  details : option string
}.
End DatahubApiError.

(** What a [try] block can catch here: the client's own error class, or any
    other [Error] (a rejected [fetch], an unparsable body, a [TypeError]). *)
Inductive jsError :=
| ApiError (e : DatahubApiError.t)
| OtherError (message : string).

Inductive result (A : Type) :=
| Ok (a : A)
| Throw (e : jsError).
Arguments Ok {A} a.
Arguments Throw {A} e.

#[global] Instance result_bind : MBind result := fun A B k r =>
  match r with
  | Ok a => k a
  | Throw e => Throw e
  end.

(** [Promise.all(items.map(f))] / [items.map(f)] for a throwing [f]. *)
Fixpoint mapM {A B} (f : A -> result B) (l : list A) : result (list B) :=
  match l with
  | [] => Ok []
  | x :: rest => y ← f x; ys ← mapM f rest; Ok (y :: ys)
  end.

(** The outcome of one [fetch(url, { headers })] followed by reading the
    body. *)
Inductive fetchOutcome :=
| Rejected (message : string)
| HttpFailure (status : Z) (statusText body : string)
| JsonBody (body : json).

Inductive Direction := INCOMING | OUTGOING.

Definition directionName (d : Direction) : string :=
  match d with INCOMING => "INCOMING" | OUTGOING => "OUTGOING" end.

Definition LEGACY_RELATIONSHIP_TYPES : string :=
  JsString.join ","
    [ "DownstreamOf"; "UpstreamOf"; "Consumes"; "Produces"; "DependsOn";
      "Contains"; "OwnedBy"; "ParentOf"; "IsPartOf"; "HasPart";
      "SchemaFieldOf"; "InputFields"; "OutputFields" ].

(** [`${n}`] for an integer. *)
Definition numberToString (n : Z) : string :=
  NilZero.string_of_int (Z.to_int n).

(** [item[key]] throws a [TypeError] on [null]. *)
Definition getOrThrow (item : json) (key : string) : result (option json) :=
  match item with
  | JNull => Throw (OtherError "Cannot read properties of null")
  | _ => Ok (Js.get item key)
  end.

Fixpoint firstUrnAmong (item : json) (candidateKeys : list string)
    : option string :=
  match candidateKeys with
  | [] => None
  | key :: rest =>
      match Js.get item key with
      | Some (JStr value) =>
          if JsString.startsWith "urn:li:" value then Some value
          else firstUrnAmong item rest
      | _ => firstUrnAmong item rest
      end
  end.

Definition extractRelatedUrn (item : json) : result (option string) :=
  _ ← getOrThrow item "entity";
  Ok (firstUrnAmong item ["entity"; "urn"; "entityUrn"; "relatedUrn"]).

Definition extractRelationshipType (item : json) : string :=
  let undefinedOr (a : option json) (b : option json) : option json :=
    match a with
    | None | Some JNull => b
    | Some _ => a
    end in
  let rawType :=
    undefinedOr (undefinedOr (Js.get item "relationshipType")
                             (Js.get item "type"))
                (Js.get item "relationship") in
  match rawType with
  | Some (JStr s) => s
  | _ => "related_to"
  end.

Definition extractRelationshipItems (response : json) : result (list json) :=
  relationships ← getOrThrow response "relationships";
  match Js.isArray relationships with
  | Some items => Ok items
  | None =>
      match Js.isArray (Js.get response "entities") with
      | Some items => Ok items
      | None =>
          match Js.isArray (Js.get response "value") with
          | Some items => Ok items
          | None =>
              match Js.isArray (Js.get response "elements") with
              | Some items => Ok items
              | None => Ok []
              end
          end
      end
  end.

(** The [for (const endpoint of attempts) { try ... catch ... }] loop shared
    by both operations: the first success, or the last error caught. *)
Fixpoint tryEndpoints {A} (attempt : string -> result A)
    (endpoints : list string) (lastError : option jsError)
    : A + option jsError :=
  match endpoints with
  | [] => inr lastError
  | endpoint :: rest =>
      match attempt endpoint with
      | Ok a => inl a
      | Throw e => tryEndpoints attempt rest (Some e)
      end
  end.

(** The error raised once every endpoint has been tried. *)
Definition exhausted (message : string) (attempts : list string)
    (lastError : option jsError) : DatahubApiError.t :=
  match lastError with
  | Some (ApiError e) =>
      DatahubApiError.mk message (DatahubApiError.status e)
        (DatahubApiError.endpoint e) (Some attempts) (DatahubApiError.details e)
  | _ => DatahubApiError.mk message None None (Some attempts) None
  end.

Record RelatedItem := { urn : string; type : string }.

Section Client.

(** The platform: URI component encoding and the network as seen with the
    configured bearer token. *)
Variable encodeURIComponent : string -> string.
Variable fetch : string -> fetchOutcome.

Definition fetchJson (baseUrl path : string) : result json :=
  match fetch (baseUrl +:+ path) with
  | Rejected message => Throw (OtherError message)
  | HttpFailure status statusText body =>
      Throw (ApiError
        (DatahubApiError.mk
           ("HTTP " +:+ numberToString status +:+ " for " +:+ path)
           (Some status) (Some path) None
           (Some (if String.eqb body "" then statusText else body))))
  | JsonBody body => Ok body
  end.

Definition entityAttempts (urn : string) : list string :=
  let encodedUrn := encodeURIComponent urn in
  [ "/openapi/entities/v1/latest?urns=" +:+ encodedUrn
      +:+ "&withSystemMetadata=false";
    "/openapi/entities/v1/latest?urns=" +:+ encodedUrn;
    "/entitiesV2/" +:+ encodedUrn ].

(** The body of the [try] of [fetchEntity] after the fetch. *)
Definition entityOfResponse (urn : string) (body : json) : DatahubObject.t :=
  let topLevel := Js.nullish (Some body) (JObj []) in
  let responses := Js.get topLevel "responses" in
  let responseRecord :=
    match responses with
    | Some r =>
        if Js.truthy r && Js.typeofObject r
        then Js.nullish (head (Js.values r)) (JObj [])
        else Js.nullish (Js.get topLevel "value") topLevel
    | None => Js.nullish (Js.get topLevel "value") topLevel
    end in
  let entityUrn :=
    match Js.get responseRecord "urn" with
    | Some (JStr u) => u
    | _ => urn
    end in
  DatahubObject.mk entityUrn (parseUrnType entityUrn)
    (parseUrnName entityUrn) responseRecord.

Definition fetchEntity (baseUrl urn : string)
    : DatahubApiError.t + DatahubObject.t :=
  let attempts := entityAttempts urn in
  match tryEndpoints
          (fun endpoint =>
             body ← fetchJson baseUrl endpoint;
             Ok (entityOfResponse urn body))
          attempts None with
  | inl entity => inr entity
  | inr lastError =>
      inl (exhausted "Failed to fetch entity from GMS." attempts lastError)
  end.

Definition relationshipAttempts (urn : string) (direction : Direction)
    : list string :=
  let encodedUrn := encodeURIComponent urn in
  let encodedTypes := encodeURIComponent LEGACY_RELATIONSHIP_TYPES in
  let d := directionName direction in
  [ "/openapi/relationships/v1/?urn=" +:+ encodedUrn +:+ "&direction=" +:+ d
      +:+ "&start=0&count=100";
    "/openapi/relationships/v1?urn=" +:+ encodedUrn +:+ "&direction=" +:+ d
      +:+ "&start=0&count=100";
    "/relationships?urn=" +:+ encodedUrn +:+ "&direction=" +:+ d
      +:+ "&types=" +:+ encodedTypes +:+ "&start=0&count=100" ].

(** The body of the [try] of [fetchRelationships] after the fetch:
    [null] results of the [map] are removed by the [filter]. *)
Definition relationshipsOfResponse (responseJson : json)
    : result (list RelatedItem) :=
  items ← extractRelationshipItems responseJson;
  mapped ← mapM (fun item =>
                    relatedUrn ← extractRelatedUrn item;
                    Ok (match relatedUrn with
                        | Some u =>
                            if String.eqb u "" then None
                            else Some {| urn := u;
                                         type := extractRelationshipType item |}
                        | None => None
                        end))
                 items;
  Ok (omap (M := list) (fun x => x) mapped).

Definition fetchRelationships (baseUrl urn : string) (direction : Direction)
    : DatahubApiError.t + list RelatedItem :=
  let attempts := relationshipAttempts urn direction in
  match tryEndpoints
          (fun endpoint =>
             responseJson ← fetchJson baseUrl endpoint;
             relationshipsOfResponse responseJson)
          attempts None with
  | inl items => inr items
  | inr lastError =>
      inl (exhausted "Failed to fetch relationships from GMS." attempts
                     lastError)
  end.

End Client.

(** ** [src/App.tsx]: the neighborhood builder *)

Module Trim.

(** The white space and line terminators of ECMAScript, by their UTF-8
    encodings.  One byte: U+0009 to U+000D and U+0020. *)
Definition ws1 (a : ascii) : bool :=
  let n := nat_of_ascii a in
  ((9 <=? n)%nat && (n <=? 13)%nat) || (n =? 32)%nat.

(** Two bytes: U+00A0. *)
Definition ws2 (a b : ascii) : bool :=
  (nat_of_ascii a =? 194)%nat && (nat_of_ascii b =? 160)%nat.

(** Three bytes: U+1680, U+2000 to U+200A, U+2028, U+2029, U+202F, U+205F,
    U+3000 and U+FEFF. *)
Definition ws3 (a b c : ascii) : bool :=
  let x := nat_of_ascii a in
  let y := nat_of_ascii b in
  let z := nat_of_ascii c in
  ((x =? 225)%nat && (y =? 154)%nat && (z =? 128)%nat)
  || ((x =? 226)%nat && (y =? 128)%nat
      && (((128 <=? z)%nat && (z <=? 138)%nat)
          || (z =? 168)%nat || (z =? 169)%nat || (z =? 175)%nat))
  || ((x =? 226)%nat && (y =? 129)%nat && (z =? 159)%nat)
  || ((x =? 227)%nat && (y =? 128)%nat && (z =? 128)%nat)
  || ((x =? 239)%nat && (y =? 187)%nat && (z =? 191)%nat).

(** [s.trimStart()] *)
Fixpoint trimStart (s : string) : string :=
  match s with
  | EmptyString => EmptyString
  | String a s1 =>
      if ws1 a then trimStart s1
      else
        match s1 with
        | EmptyString => s
        | String b s2 =>
            if ws2 a b then trimStart s2
            else
              match s2 with
              | EmptyString => s
              | String c s3 => if ws3 a b c then trimStart s3 else s
              end
        end
  end.

(** Nothing but white space and line terminators. *)
Fixpoint blank (s : string) : bool :=
  match s with
  | EmptyString => true
  | String a s1 =>
      if ws1 a then blank s1
      else
        match s1 with
        | EmptyString => false
        | String b s2 =>
            if ws2 a b then blank s2
            else
              match s2 with
              | EmptyString => false
              | String c s3 => ws3 a b c && blank s3
              end
        end
  end.

(** [s.trimEnd()]: the text up to the point from which nothing but white
    space follows. *)
Fixpoint trimEnd (s : string) : string :=
  match s with
  | EmptyString => EmptyString
  | String a s' => if blank s then EmptyString else String a (trimEnd s')
  end.

(** [s.trim()] *)
Definition trim (s : string) : string := trimEnd (trimStart s).

End Trim.

(** The React state of the component read or written by a navigation
    action. *)
Module AppState.
Record t := mk {
  entitiesByUrn : gmap string DatahubObject.t;
  neighborhood : option Neighborhood.t;
  navStack : list string;
  centerId : option string;
  urnInput : string;
  inputError : string;
  isLoading : bool
}.
End AppState.

(** [s === o] for a string [s] and a [string | null] operand [o]. *)
Definition eqNullable (s : string) (o : option string) : bool :=
  match o with
  | Some p => String.eqb s p
  | None => false
  end.

(** [previousUrn && previousUrn !== centerId] *)
Definition previousIsDistinct (previousUrn : option string) (centerId : string)
    : bool :=
  match previousUrn with
  | Some p => negb (String.eqb p "") && negb (String.eqb p centerId)
  | None => false
  end.

Definition previousAsList (previousUrn : option string) (centerId : string)
    : list string :=
  match previousUrn with
  | Some p => if previousIsDistinct previousUrn centerId then [p] else []
  | None => []
  end.

(** The object synthesized in the [catch] of a neighbor lookup. *)
Definition placeholderEntity (neighborUrn : string) : DatahubObject.t :=
  DatahubObject.mk neighborUrn (parseUrnType neighborUrn)
    (parseUrnName neighborUrn)
    (JObj [("urn", JStr neighborUrn); ("unavailable", JBool true)]).

(** The two nested [forEach] loops filling [aspectLabelsByUrn]. *)
Definition collectAspectLabels (centerId : string)
    (aspectGroups : list (string * list string)) : gmap string (list string) :=
  fold_left
    (fun acc group =>
       let '(label, urns) := group in
       fold_left
         (fun acc aspectUrn =>
            if String.eqb aspectUrn centerId then acc
            else
              let existingLabels := default [] (acc !! aspectUrn) in
              if existsb (String.eqb label) existingLabels then acc
              else <[aspectUrn := existingLabels ++ [label]]> acc)
         urns acc)
    aspectGroups ∅.

Definition jsonEdgeType (aspectLabels : option (list string)) : string :=
  match aspectLabels with
  | Some (l :: ls) => "aspect:" +:+ JsString.join "|" (l :: ls)
  | _ => "json_reference"
  end.

(** [`${edge.sourceId}|${edge.targetId}|${edge.type}`] *)
Definition edgeKey (edge : RelationshipEdge.t) : string :=
  RelationshipEdge.sourceId edge +:+ "|" +:+ RelationshipEdge.targetId edge
    +:+ "|" +:+ RelationshipEdge.type edge.

(** The [forEach] filling [dedupedEdgesMap]. *)
Definition dedupeEdges (edges : list RelationshipEdge.t)
    : list (string * RelationshipEdge.t) :=
  fold_left
    (fun dedupedEdgesMap edge =>
       let key := edgeKey edge in
       if JsMap.has dedupedEdgesMap key then dedupedEdgesMap
       else JsMap.set dedupedEdgesMap key edge)
    edges [].

Definition incomingEdges (centerId : string) (incoming : list RelatedItem)
    : list RelationshipEdge.t :=
  map (fun item => RelationshipEdge.mk (urn item) centerId (type item)) incoming.

Definition outgoingEdges (centerId : string) (outgoing : list RelatedItem)
    : list RelationshipEdge.t :=
  map (fun item => RelationshipEdge.mk centerId (urn item) (type item)) outgoing.

Definition jsonDependencyEdges (centerId : string)
    (aspectLabelsByUrn : gmap string (list string))
    (jsonDependencyUrns : list string) : list RelationshipEdge.t :=
  map (fun dependencyUrn =>
         RelationshipEdge.mk centerId dependencyUrn
           (jsonEdgeType (aspectLabelsByUrn !! dependencyUrn)))
      jsonDependencyUrns.

Definition hasExistingPreviousLink (centerId : string)
    (previousUrn : option string) (relationshipEdges : list RelationshipEdge.t)
    : bool :=
  existsb
    (fun edge =>
       (eqNullable (RelationshipEdge.sourceId edge) previousUrn
          && String.eqb (RelationshipEdge.targetId edge) centerId)
       || (String.eqb (RelationshipEdge.sourceId edge) centerId
             && eqNullable (RelationshipEdge.targetId edge) previousUrn))
    relationshipEdges.

Definition previousEdge (centerId : string) (previousUrn : option string)
    (relationshipEdges : list RelationshipEdge.t) : list RelationshipEdge.t :=
  match previousUrn with
  | Some p =>
      if previousIsDistinct previousUrn centerId then
        if hasExistingPreviousLink centerId previousUrn relationshipEdges
        then []
        else [RelationshipEdge.mk p centerId "previous_selection"]
      else []
  | None => []
  end.

(** The edges in discovery order, before deduplication. *)
Definition discoveredEdges (centerId : string) (previousUrn : option string)
    (incoming outgoing : list RelatedItem)
    (aspectLabelsByUrn : gmap string (list string))
    (jsonDependencyUrns : list string) : list RelationshipEdge.t :=
  let relationshipEdges :=
    incomingEdges centerId incoming ++ outgoingEdges centerId outgoing
      ++ jsonDependencyEdges centerId aspectLabelsByUrn jsonDependencyUrns in
  relationshipEdges ++ previousEdge centerId previousUrn relationshipEdges.

(** [previousUrn] as derived from the advanced stack. *)
Definition previousOfStack (nextNavStack : list string) : option string :=
  if 1 <? Z.of_nat (length nextNavStack)
  then JsArray.at_ nextNavStack (Z.of_nat (length nextNavStack) - 2)
  else None.

(** The values handed to the state setters when the [try] block runs to its
    end. *)
Record Commit := {
  nextEntities : gmap string DatahubObject.t;
  nextNeighborhood : Neighborhood.t;
  nextNavStack : list string;
  nextCenterId : string
}.

Section App.

Variable encodeURIComponent : string -> string.
Variable fetch : string -> fetchOutcome.
Variable gmsBaseUrl : string.
(** Which rejection [Promise.all] reports when both directions fail. *)
Variable outgoingRejectsFirst : bool.

Definition await {A} (r : DatahubApiError.t + A) : result A :=
  match r with
  | inl e => Throw (ApiError e)
  | inr a => Ok a
  end.

(** [Promise.all([incoming, outgoing])] *)
Definition fetchBothDirections (centerId : string)
    : result (list RelatedItem * list RelatedItem) :=
  let incoming :=
    fetchRelationships encodeURIComponent fetch gmsBaseUrl centerId INCOMING in
  let outgoing :=
    fetchRelationships encodeURIComponent fetch gmsBaseUrl centerId OUTGOING in
  match incoming, outgoing with
  | inr i, inr o => Ok (i, o)
  | inl e, inr _ => Throw (ApiError e)
  | inr _, inl e => Throw (ApiError e)
  | inl ei, inl eo =>
      Throw (ApiError (if outgoingRejectsFirst then eo else ei))
  end.

(** One neighbor lookup with its local [try]/[catch]. *)
Definition resolveNeighbor (neighborUrn : string) : DatahubObject.t :=
  match fetchEntity encodeURIComponent fetch gmsBaseUrl neighborUrn with
  | inr entity => entity
  | inl _ => placeholderEntity neighborUrn
  end.

Definition neighborUrnsOf (centerId : string) (previousUrn : option string)
    (parentUrns dependencyUrns : list string) : list string :=
  JsSet.ofList
    (parentUrns ++ dependencyUrns ++ previousAsList previousUrn centerId).

(** The part of the [try] block of [loadNeighborhood] that follows the
    three required fetches; the neighbor lookups in it cannot fail. *)
Definition assembleNeighborhood (state : AppState.t)
    (centerEntity : DatahubObject.t) (incoming outgoing : list RelatedItem)
    (mode : option NavigationMode) (breadcrumbIndex : option Z) : Commit :=
  let centerId := DatahubObject.id centerEntity in
  let jsonDependencyUrns :=
    filter (fun candidateUrn => candidateUrn ≠ centerId)
      (extractUrnsFromJson (DatahubObject.raw centerEntity) []) in
  let aspectGroups := extractAspectUrnGroups (DatahubObject.raw centerEntity) in
  let aspectLabelsByUrn := collectAspectLabels centerId aspectGroups in
  let nextNavStack :=
    getNextNavigationStack (AppState.navStack state) centerId
      (default node mode) breadcrumbIndex in
  let previousUrn := previousOfStack nextNavStack in
  let parentUrns := JsSet.ofList (map urn incoming) in
  let dependencyUrns :=
    JsSet.ofList (map urn outgoing ++ jsonDependencyUrns) in
  let neighborUrns :=
    neighborUrnsOf centerId previousUrn parentUrns dependencyUrns in
  let neighborEntities := map resolveNeighbor neighborUrns in
  let nextEntities :=
    fold_left (fun acc entity => <[DatahubObject.id entity := entity]> acc)
      neighborEntities
      (<[centerId := centerEntity]> (AppState.entitiesByUrn state)) in
  let edges :=
    JsMap.values
      (dedupeEdges
         (discoveredEdges centerId previousUrn incoming outgoing
            aspectLabelsByUrn jsonDependencyUrns)) in
  {| nextEntities := nextEntities;
     nextNeighborhood :=
       Neighborhood.mk centerId previousUrn parentUrns dependencyUrns
         aspectLabelsByUrn edges;
     nextNavStack := nextNavStack;
     nextCenterId := centerId |}.

(** The body of the [try] block of [loadNeighborhood]. *)
Definition buildNeighborhood (state : AppState.t) (trimmedUrn : string)
    (mode : option NavigationMode) (breadcrumbIndex : option Z)
    : result Commit :=
  centerEntity ← await (fetchEntity encodeURIComponent fetch gmsBaseUrl
                                    trimmedUrn);
  relationships ← fetchBothDirections (DatahubObject.id centerEntity);
  Ok (assembleNeighborhood state centerEntity relationships.1
        relationships.2 mode breadcrumbIndex).

(** The message handed to [setInputError] in the [catch] block. *)
Definition errorMessage (error : jsError) : string :=
  match error with
  | ApiError e =>
      let attempts :=
        match DatahubApiError.attemptedEndpoints e with
        | Some l => JsString.join ", " l
        | None => default "unknown endpoint" (DatahubApiError.endpoint e)
        end in
      let details :=
        match DatahubApiError.details e with
        | Some d => if String.eqb d "" then "" else " Details: " +:+ d
        | None => ""
        end in
      DatahubApiError.message e +:+ " Attempted: " +:+ attempts +:+ "."
        +:+ details
  | OtherError message => message
  end.

Definition loadNeighborhood (state : AppState.t) (urn : string)
    (mode : option NavigationMode) (breadcrumbIndex : option Z)
    : AppState.t :=
  let trimmedUrn := Trim.trim urn in
  if String.eqb trimmedUrn "" then
    AppState.mk (AppState.entitiesByUrn state) (AppState.neighborhood state)
      (AppState.navStack state) (AppState.centerId state)
      (AppState.urnInput state) "Enter a URN to connect."
      (AppState.isLoading state)
  else
    match buildNeighborhood state trimmedUrn mode breadcrumbIndex with
    | Ok commit =>
        AppState.mk (nextEntities commit) (Some (nextNeighborhood commit))
          (nextNavStack commit) (Some (nextCenterId commit))
          (nextCenterId commit) "" false
    | Throw error =>
        AppState.mk (AppState.entitiesByUrn state)
          (AppState.neighborhood state) (AppState.navStack state)
          (AppState.centerId state) (AppState.urnInput state)
          (errorMessage error) false
    end.

End App.

(** ** [src/App.tsx]: the radial layout ([graph]) *)

(** [object] is [entitiesByUrn[urn]], which is [undefined] when the cache has
    no entry for the identifier. *)
Module PositionedNode.
Record t := mk {
  object : option DatahubObject.t;
  x : R;
  y : R;
  role : Role
}.
End PositionedNode.

(** Canvas coordinates are modelled in exact real arithmetic. *)
Definition svgWidth : R := 980.
Definition svgHeight : R := 660.
Definition centerX : R := svgWidth / 2.
Definition centerY : R := svgHeight / 2.
Definition radius : R := Rmin svgWidth svgHeight * (34 / 100).

(** [(Math.PI * 2 * index) / Math.max(count, 1) - Math.PI / 2] *)
Definition angleOf (index count : nat) : R :=
  (PI * 2 * INR index) / INR (Nat.max count 1) - PI / 2.

Record Graph := {
  nodes : list PositionedNode.t;
  graphEdges : list RelationshipEdge.t
}.

Definition emptyGraph : Graph := {| nodes := []; graphEdges := [] |}.

(** [neighborhood.aspectLabelsByUrn[urn]?.[0] ?? 'Uncategorized'] *)
Definition dependencyLabel (neighborhood : Neighborhood.t) (urn : string)
    : string :=
  match Neighborhood.aspectLabelsByUrn neighborhood !! urn with
  | Some (label :: _) => label
  | _ => "Uncategorized"
  end.

Definition roleOf (neighborhood : Neighborhood.t) (urn : string) : Role :=
  let isParent := JsSet.has (Neighborhood.parentUrns neighborhood) urn in
  let isDependency := JsSet.has (Neighborhood.dependencyUrns neighborhood) urn in
  if eqNullable urn (Neighborhood.previousUrn neighborhood) then previous
  else if isParent && isDependency then both
  else if isParent then parent
  else dependency.

Section Layout.

(** [left.localeCompare(right)]: the collation of the host. *)
Variable localeCompare : string -> string -> Z.

Fixpoint insertSorted (x : string) (l : list string) : list string :=
  match l with
  | [] => [x]
  | y :: rest =>
      if localeCompare x y <=? 0 then x :: l else y :: insertSorted x rest
  end.

(** [l.sort((left, right) => left.localeCompare(right))]: the stable
    sort required of [Array.prototype.sort]. *)
Definition sortByLocale (l : list string) : list string :=
  foldr insertSorted [] l.

Variable entitiesByUrn : gmap string DatahubObject.t.

(** [.filter((urn) => Boolean(entitiesByUrn[urn]))
     .filter((urn) => urn !== previousUrn)] *)
Definition plottable (previousUrn : option string) (urns : list string)
    : list string :=
  filter (fun urn => negb (eqNullable urn previousUrn) = true)
    (filter (fun urn => is_Some (entitiesByUrn !! urn)) urns).

Definition dependencyGroups (neighborhood : Neighborhood.t)
    : list (string * list string) :=
  fold_left
    (fun groups urn =>
       let label := dependencyLabel neighborhood urn in
       let current := default [] (JsMap.get groups label) in
       JsMap.set groups label (current ++ [urn]))
    (plottable (Neighborhood.previousUrn neighborhood)
       (Neighborhood.dependencyUrns neighborhood))
    [].

Definition groupedDependencies (neighborhood : Neighborhood.t)
    : list (string * list string) :=
  let groups := dependencyGroups neighborhood in
  map (fun label =>
         (label, sortByLocale (default [] (JsMap.get groups label))))
      (sortByLocale (JsMap.keys groups)).

Definition sortedParents (neighborhood : Neighborhood.t) : list string :=
  sortByLocale
    (plottable (Neighborhood.previousUrn neighborhood)
       (Neighborhood.parentUrns neighborhood)).

Definition orderedNeighborUrns (neighborhood : Neighborhood.t)
    (centerId : string) : list string :=
  previousAsList (Neighborhood.previousUrn neighborhood) centerId
    ++ sortedParents neighborhood
    ++ flat_map snd (groupedDependencies neighborhood).

Definition layoutNeighborUrns (neighborhood : Neighborhood.t)
    (centerId : string) : list string :=
  JsSet.ofList (orderedNeighborUrns neighborhood centerId).

Definition neighborNode (neighborhood : Neighborhood.t) (count index : nat)
    (urn : string) : PositionedNode.t :=
  let angle := angleOf index count in
  PositionedNode.mk (entitiesByUrn !! urn)
    (centerX + radius * cos angle) (centerY + radius * sin angle)
    (roleOf neighborhood urn).

(** The [graph] memo, without the cosmetic lane segments. *)
Definition graph (neighborhood : option Neighborhood.t)
    (centerId : option string) : Graph :=
  match neighborhood, centerId with
  | Some neighborhood, Some centerId =>
      if String.eqb centerId "" then emptyGraph
      else
        match entitiesByUrn !! centerId with
        | None => emptyGraph
        | Some centerObject =>
            let neighborUrns := layoutNeighborUrns neighborhood centerId in
            {| nodes :=
                 PositionedNode.mk (Some centerObject) centerX centerY center
                 :: imap (neighborNode neighborhood (length neighborUrns))
                      neighborUrns;
               graphEdges := Neighborhood.edges neighborhood |}
        end
  | _, _ => emptyGraph
  end.

End Layout.

(** ** [src/App.tsx]: the structure view ([structureSections]) *)

(** [hay.includes(needle)] *)
Fixpoint includes (needle hay : string) : bool :=
  JsString.startsWith needle hay
  || match hay with
     | EmptyString => false
     | String _ rest => includes needle rest
     end.

Module StructureItem.
Record t := mk { urn : string; aspectLabel : option string }.
End StructureItem.

Section StructureView.

Variable localeCompare : string -> string -> Z.
(** [s.toLowerCase()]: the case mapping of the host. *)
Variable toLowerCase : string -> string.
Variable entitiesByUrn : gmap string DatahubObject.t.

Fixpoint insertItem (x : StructureItem.t) (l : list StructureItem.t)
    : list StructureItem.t :=
  match l with
  | [] => [x]
  | y :: rest =>
      if localeCompare (StructureItem.urn x) (StructureItem.urn y) <=? 0
      then x :: l else y :: insertItem x rest
  end.

(** [items.sort((left, right) => left.urn.localeCompare(right.urn))] *)
Definition sortItems (l : list StructureItem.t) : list StructureItem.t :=
  foldr insertItem [] l.

Definition structureGroups (neighborhood : Neighborhood.t)
    : list (string * list StructureItem.t) :=
  fold_left
    (fun groups urn =>
       let aspectLabel := dependencyLabel neighborhood urn in
       let currentItems := default [] (JsMap.get groups aspectLabel) in
       JsMap.set groups aspectLabel
         (currentItems ++ [StructureItem.mk urn (Some aspectLabel)]))
    (filter
       (fun urn =>
          negb (eqNullable urn (Neighborhood.previousUrn neighborhood)) = true)
       (Neighborhood.dependencyUrns neighborhood))
    [].

(** [`${title} (${items.length})`] *)
Definition countedTitle (title : string) (items : list StructureItem.t)
    : string :=
  title +:+ " (" +:+ numberToString (Z.of_nat (length items)) +:+ ")".

(** The sections before the text filter is applied. *)
Definition allSections (neighborhood : Neighborhood.t) (centerId : string)
    : list (string * list StructureItem.t) :=
  let previousItems :=
    map (fun urn => StructureItem.mk urn None)
      (previousAsList (Neighborhood.previousUrn neighborhood) centerId) in
  let parentItems :=
    map (fun urn => StructureItem.mk urn None)
      (sortByLocale localeCompare
         (filter
            (fun urn =>
               negb (eqNullable urn (Neighborhood.previousUrn neighborhood))
               = true)
            (Neighborhood.parentUrns neighborhood))) in
  let dependencyGroups := structureGroups neighborhood in
  (if 0 <? Z.of_nat (length previousItems)
   then [("Previous", previousItems)] else [])
  ++ (if 0 <? Z.of_nat (length parentItems)
      then [(countedTitle "Parents" parentItems, parentItems)] else [])
  ++ map (fun label =>
            let items :=
              sortItems (default [] (JsMap.get dependencyGroups label)) in
            (countedTitle label items, items))
       (sortByLocale localeCompare (JsMap.keys dependencyGroups)).

(** The predicate of [section.items.filter] for a lower-cased query. *)
Definition itemMatches (query : string) (item : StructureItem.t) : bool :=
  let entity := entitiesByUrn !! StructureItem.urn item in
  includes query (toLowerCase (StructureItem.urn item))
  || includes query
       (toLowerCase (default "" (StructureItem.aspectLabel item)))
  || includes query
       (toLowerCase (default "" (DatahubObject.name <$> entity)))
  || includes query
       (toLowerCase (default "" (DatahubObject.type <$> entity))).

Definition structureSections (neighborhood : option Neighborhood.t)
    (centerId : option string) (structureFilter : string)
    : list (string * list StructureItem.t) :=
  match neighborhood, centerId with
  | Some neighborhood, Some centerId =>
      if String.eqb centerId "" then []
      else
        let sections := allSections neighborhood centerId in
        if Z.of_nat (String.length (Trim.trim structureFilter)) =? 0
        then sections
        else
          let query := toLowerCase (Trim.trim structureFilter) in
          filter (fun section => (0 <? Z.of_nat (length section.2)) = true)
            (map (fun section =>
                    (section.1,
                     filter (fun item => itemMatches query item = true)
                       section.2))
                 sections)
  | _, _ => []
  end.

End StructureView.

(** ** [src/components/GraphPanel.tsx], [src/components/JsonPanel.tsx] and
    [src/lib/urls.ts]: helpers around identifiers *)

Definition dquote : ascii := "034"%char.

(** [s.endsWith(p)] *)
Definition endsWith (p s : string) : bool :=
  (String.length p <=? String.length s)%nat
  && String.eqb (JsString.drop (String.length s - String.length p) s) p.

(** [s.replace(/c/g, by)] for a one-character pattern. *)
Fixpoint replaceAll (c : ascii) (by_ : string) (s : string) : string :=
  match s with
  | EmptyString => EmptyString
  | String a s' =>
      if Ascii.eqb a c then by_ +:+ replaceAll c by_ s'
      else String a (replaceAll c by_ s')
  end.

Definition stripQuotedString (value : string) : string :=
  if (2 <=? Z.of_nat (String.length value))
     && JsString.startsWith (String dquote EmptyString) value
     && endsWith (String dquote EmptyString) value
  then JsString.slice value 1 (-1)
  else value.

(** [null] is [None]. *)
Definition formatEdgeLabel (type : string) : option string :=
  if JsString.startsWith "aspect:" type then None else Some type.

Definition encodeDatahubStyleUrnPathSegment (urn : string) : string :=
  replaceAll "]"%char "%5D"
    (replaceAll "["%char "%5B"
       (replaceAll "#"%char "%23"
          (replaceAll "?"%char "%3F"
             (replaceAll "/"%char "%2F"
                (replaceAll "%"%char "{{encoded_percent}}" urn))))).

(** * Vocabulary of the specification *)

(** "[breadcrumbIndex] is valid and [stack[breadcrumbIndex] == target]". *)
Definition validBreadcrumb (s : list string) (t : string) (i : option Z)
    : Prop :=
  ∃ k : nat, i = Some (Z.of_nat k) ∧ s !! k = Some t.

(** "The payload contains a parenthesized sub-expression": the guard of
    [parseUrnName], on the text before the fragment marker. *)
Definition parenthesized (beforeHash : string) : bool :=
  (0 <=? JsString.lastIndexOf lparen beforeHash)
  && (JsString.lastIndexOf lparen beforeHash
        <? JsString.lastIndexOf rparen beforeHash).

(** The response-wrapper names, in the order in which they are tried. *)
Definition wrapperNames : list string :=
  ["relationships"; "entities"; "value"; "elements"].

(** "The items of the first populated list field": the first wrapper that
    holds a list with at least one item. *)
Fixpoint firstPopulatedList (names : list string) (response : json)
    : list json :=
  match names with
  | [] => []
  | name :: rest =>
      match Js.get response name with
      | Some (JArr (item :: items)) => item :: items
      | _ => firstPopulatedList rest response
      end
  end.

(** The items of the first wrapper that holds a list, empty or not. *)
Fixpoint firstList (names : list string) (response : json) : list json :=
  match names with
  | [] => []
  | name :: rest =>
      match Js.isArray (Js.get response name) with
      | Some items => items
      | None => firstList rest response
      end
  end.

(** The first candidate that is present, else the fallback. *)
Definition firstLabel (candidates : list (option string)) (fallback : string)
    : string :=
  match omap (M := list) (fun c => c) candidates with
  | label :: _ => label
  | [] => fallback
  end.

Definition nonEmptyKey (key : string) : option string :=
  if String.eqb key "" then None else Some key.

(** The single priority order of the specification: label field, name field,
    aspect-name field, structural key (absent for a list element),
    positional fallback. *)
Definition claimedLabel (key : option string) (aspect : json) (index : nat)
    : string :=
  firstLabel
    [ Js.nonEmptyString aspect "label"; Js.nonEmptyString aspect "name";
      Js.nonEmptyString aspect "aspectName"; key ≫= nonEmptyKey ]
    (positionalLabel index).

(** An aspect that is scanned at all: an array or a non-null object. *)
Definition isRecord (v : json) : bool := Js.truthy v && Js.typeofObject v.

(** The sub-list of [l] selected and labelled by [f], which is told the
    position of each element. *)
Fixpoint labelledFrom {A} (f : A -> nat -> option (string * json))
    (l : list A) (index : nat) : list (string * json) :=
  match l with
  | [] => []
  | x :: rest =>
      match f x index with
      | Some p => p :: labelledFrom f rest (S index)
      | None => labelledFrom f rest (S index)
      end
  end.

Definition labelArrayAspect (aspect : json) (index : nat)
    : option (string * json) :=
  if isRecord aspect then Some (arrayAspectLabel aspect index, aspect)
  else None.

Definition labelEntryAspect (entry : string * json) (index : nat)
    : option (string * json) :=
  if isRecord entry.2
  then Some (entryAspectLabel entry.1 entry.2 index, entry.2)
  else None.

(** The aspects of an [aspects] value that are scanned, in order, each with
    its label. *)
Definition labelledAspects (aspects : json) : list (string * json) :=
  match aspects with
  | JArr items => labelledFrom labelArrayAspect items 0
  | JObj fields => labelledFrom labelEntryAspect fields 0
  | _ => []
  end.

(** The groups after scanning a list of labelled aspects. *)
Definition groupsOf (ps : list (string * json))
    : list (string * list string) :=
  fold_left (fun groups p => addAspectGroup groups p.1 p.2) ps [].

(** "Deduplicate, first occurrence wins": the elements of [l] whose key is
    neither in [seen] nor carried by an earlier element of [l]. *)
Fixpoint keepFirstBy {A} (key : A -> string) (seen : list string) (l : list A)
    : list A :=
  match l with
  | [] => []
  | x :: rest =>
      if JsSet.has seen (key x) then keepFirstBy key seen rest
      else x :: keepFirstBy key (seen ++ [key x]) rest
  end.

(** "Deduplicated preserving first occurrence", for a list of identifiers. *)
Definition firstOccurrences (l : list string) : list string :=
  keepFirstBy (fun x => x) [] l.

(** ** A sample catalog

    The scenario of the specification: a dataset with one incoming
    relationship from a job, one outgoing relationship to a downstream
    dataset, and an owner embedded under the aspect [ownership].  The
    current relationships endpoints fail for the outgoing direction, so the
    legacy endpoint answers; no neighbor can be resolved. *)

Definition sampleEncode (s : string) : string := s.

Definition sampleCenter : string :=
  "urn:li:dataset:(urn:li:dataPlatform:hive,fct_users,PROD)".

Definition samplePayload : json :=
  JObj [("urn", JStr sampleCenter);
        ("aspects",
         JObj [("ownership",
                JObj [("owner", JStr "urn:li:corpuser:owner1")])])].

Definition sampleFetch (url : string) : fetchOutcome :=
  if String.eqb url
       ("/gms/openapi/entities/v1/latest?urns=" +:+ sampleCenter
          +:+ "&withSystemMetadata=false")
  then JsonBody (JObj [("responses", JObj [(sampleCenter, samplePayload)])])
  else if String.eqb url
       ("/gms/openapi/relationships/v1/?urn=" +:+ sampleCenter
          +:+ "&direction=INCOMING&start=0&count=100")
  then JsonBody
         (JObj [("relationships",
                 JArr [JObj [("entity", JStr "urn:li:dataJob:job1");
                             ("relationshipType", JStr "Produces")]])])
  else if String.eqb url
       ("/gms/relationships?urn=" +:+ sampleCenter
          +:+ "&direction=OUTGOING&types=" +:+ LEGACY_RELATIONSHIP_TYPES
          +:+ "&start=0&count=100")
  then JsonBody
         (JObj [("entities",
                 JArr [JObj [("urn", JStr "urn:li:dataset:downstream1");
                             ("type", JStr "DownstreamOf")]])])
  else HttpFailure 404 "Not Found" "".

(** A catalog that answers nothing. *)
Definition deadFetch (url : string) : fetchOutcome :=
  HttpFailure 503 "Service Unavailable" "upstream down".

Definition initialState : AppState.t :=
  AppState.mk ∅ None [] None "" "" false.

Definition sampleState : AppState.t :=
  loadNeighborhood sampleEncode sampleFetch "/gms" false initialState
    ("  " +:+ sampleCenter) (Some connect) None.

(** The loop that files every identifier of [l] under its label. *)
Definition filedUnder (lab : string -> string) (l : list string)
    : list (string * list string) :=
  fold_left
    (fun groups urn =>
       JsMap.set groups (lab urn)
         (default [] (JsMap.get groups (lab urn)) ++ [urn]))
    l [].

(** Lexicographic comparison of code units, as a comparator. *)
Definition codeUnitCompare (a b : string) : Z :=
  match String.compare a b with
  | Eq => 0
  | Lt => -1
  | Gt => 1
  end.

(** ** A sample layout input

    The center [c] with previous [p], which is also a parent; [a] is both a
    parent and a dependency, [b] a dependency filed under an aspect, and [z]
    a dependency that is not in the cache. *)

Definition layoutCache : gmap string DatahubObject.t :=
  <["c" := placeholderEntity "c"]>
    (<["p" := placeholderEntity "p"]>
       (<["a" := placeholderEntity "a"]>
          (<["b" := placeholderEntity "b"]> ∅))).

Definition layoutNeighborhood : Neighborhood.t :=
  Neighborhood.mk "c" (Some "p") ["p"; "a"] ["b"; "a"; "z"]
    {["b" := ["ownership"]]} [].

(** The string values of a JSON document in document order; the keys of an
    object are not among them. *)
Fixpoint stringValues (v : json) : list string :=
  match v with
  | JStr s => [s]
  | JArr items => flat_map stringValues items
  | JObj fields =>
      flat_map (fun kv => let '(_, item) := kv in stringValues item) fields
  | _ => []
  end.

(** "Matches the identifier prefix convention". *)
Definition isUrn (s : string) : Prop := JsString.startsWith "urn:li:" s = true.

#[global] Instance isUrn_dec (s : string) : Decision (isUrn s).
Proof. unfold isUrn. apply _. Defined.

(** The property names [extractRelatedUrn] tries, in order. *)
Definition candidateKeys : list string :=
  ["entity"; "urn"; "entityUrn"; "relatedUrn"].

(** ** Invariants of the component state

    Every cache entry is filed under its own identifier, with the type and
    name that the identifier parses to. *)
Definition wellFiled (cache : gmap string DatahubObject.t) : Prop :=
  ∀ k e, cache !! k = Some e ->
    DatahubObject.id e = k ∧
    DatahubObject.type e = parseUrnType k ∧
    DatahubObject.name e = parseUrnName k.

(** The breadcrumb trail, the center, the neighborhood and the cache agree
    with one another. *)
Definition coherent (s : AppState.t) : Prop :=
  NoDup (AppState.navStack s) ∧
  AppState.centerId s = last (AppState.navStack s) ∧
  match AppState.neighborhood s with
  | Some n =>
      AppState.centerId s = Some (Neighborhood.centerUrn n) ∧
      Neighborhood.previousUrn n = previousOfStack (AppState.navStack s) ∧
      Neighborhood.previousUrn n ≠ Some (Neighborhood.centerUrn n)
  | None => AppState.centerId s = None
  end ∧
  (∀ x, x ∈ AppState.navStack s ->
        is_Some (AppState.entitiesByUrn s !! x)) ∧
  wellFiled (AppState.entitiesByUrn s).

(** One call of [loadNeighborhood], with the network as it answers during
    that call. *)
Record Action := {
  actFetch : string -> fetchOutcome;
  actOutgoingRejectsFirst : bool;
  actUrn : string;
  actMode : option NavigationMode;
  actBreadcrumbIndex : option Z
}.

(** Calls of [loadNeighborhood] one after the other, each on the state left
    by the one before. *)
Definition run (encodeURIComponent : string -> string) (gmsBaseUrl : string)
    (actions : list Action) (state : AppState.t) : AppState.t :=
  fold_left
    (fun s a =>
       loadNeighborhood encodeURIComponent (actFetch a) gmsBaseUrl
         (actOutgoingRejectsFirst a) s (actUrn a) (actMode a)
         (actBreadcrumbIndex a))
    actions state.

(** The labels of the groups that list [u], in group order, each once. *)
Definition labelsOf (groups : list (string * list string)) (u : string)
    : list string :=
  firstOccurrences (map fst (filter (fun group => u ∈ group.2) groups)).

(** [s] with every character replaced by the string [f] gives for it. *)
Fixpoint flatMapString (f : ascii -> string) (s : string) : string :=
  match s with
  | EmptyString => EmptyString
  | String a s' => f a +:+ flatMapString f s'
  end.

(** The path-segment encoding of one character. *)
Definition encodeChar (a : ascii) : string :=
  if Ascii.eqb a "%" then "{{encoded_percent}}"
  else if Ascii.eqb a "/" then "%2F"
  else if Ascii.eqb a "?" then "%3F"
  else if Ascii.eqb a "#" then "%23"
  else if Ascii.eqb a "[" then "%5B"
  else if Ascii.eqb a "]" then "%5D"
  else String a EmptyString.

(** ** Sample inputs of [trim]

    The UTF-8 encodings of U+3000 (ideographic space), U+00A0 (no-break
    space) and U+00E0 (a with grave, whose second byte is that of the
    no-break space). *)
Definition ideographicSpace : string :=
  String "227" (String "128" (String "128" EmptyString)).

Definition noBreakSpace : string := String "194" (String "160" EmptyString).

Definition aGrave : string := String "195" (String "160" EmptyString).

(** White space of several kinds: a space, an ideographic space, a no-break
    space and a line feed. *)
Definition sampleBlank : string :=
  " " +:+ ideographicSpace +:+ noBreakSpace +:+ String "010" EmptyString.

(** ** A sample neighborhood with every neighbor cached

    The center [c] with previous [p], which is also a parent; [a] is both a
    parent and a dependency, [d] and [e] are dependencies filed under the
    aspect [views].  The identifiers differ in one lower-case letter and the
    labels in their first letter, so that a comparison by code units orders
    them as a collation does. *)

Definition ringCache : gmap string DatahubObject.t :=
  foldr (fun u cache => <[u := placeholderEntity u]> cache) ∅
    ["urn:li:dataset:c"; "urn:li:dataset:p"; "urn:li:dataset:a";
     "urn:li:dataset:b"; "urn:li:dataset:d"; "urn:li:dataset:e"].

Definition ringNeighborhood : Neighborhood.t :=
  Neighborhood.mk "urn:li:dataset:c" (Some "urn:li:dataset:p")
    ["urn:li:dataset:p"; "urn:li:dataset:b"; "urn:li:dataset:a"]
    ["urn:li:dataset:e"; "urn:li:dataset:a"; "urn:li:dataset:d"]
    (<["urn:li:dataset:e" := ["views"]]>
       {["urn:li:dataset:d" := ["views"; "ownership"]]})
    [].

(** ** Further sample catalogs

    A catalog given by a table from request URLs to answers; every other
    request fails with status 404. *)
Definition answering (table : list (string * fetchOutcome)) (url : string)
    : fetchOutcome :=
  default (HttpFailure 404 "Not Found" "") (JsMap.get table url).

(** The first endpoints tried under the base URL [/gms], for an encoder that
    leaves identifiers as they are. *)
Definition entityUrl (u : string) : string :=
  "/gms/openapi/entities/v1/latest?urns=" +:+ u +:+ "&withSystemMetadata=false".

Definition relationshipsUrl (u : string) (direction : Direction) : string :=
  "/gms/openapi/relationships/v1/?urn=" +:+ u +:+ "&direction="
    +:+ directionName direction +:+ "&start=0&count=100".

Definition relationshipsBody (items : list (string * string)) : fetchOutcome :=
  JsonBody
    (JObj [("relationships",
            JArr (map (fun item =>
                         JObj [("entity", JStr item.1);
                               ("relationshipType", JStr item.2)])
                      items))]).

(** A tag [a|b] next to a tag [a], and a relationship type that contains the
    separator of the edge key: the outgoing relationships of the center list
    the triple to [a|b] twice, after a different triple with the same key. *)
Definition collisionCenter : string := "urn:li:dataset:c".

Definition collisionFetch : string -> fetchOutcome :=
  answering
    [ (entityUrl collisionCenter,
       JsonBody (JObj [("urn", JStr collisionCenter)]));
      (relationshipsUrl collisionCenter INCOMING, relationshipsBody []);
      (relationshipsUrl collisionCenter OUTGOING,
       relationshipsBody
         [ ("urn:li:tag:a", "b|Owns");
           ("urn:li:tag:a|b", "Owns");
           ("urn:li:tag:a|b", "Owns") ]) ].

(** The center [c] depends on [a] and [b]; the lookup of [a] fails, and the
    lookup of [b] is answered with an entity that calls itself [a]. *)
Definition shadowFetch : string -> fetchOutcome :=
  answering
    [ (entityUrl "urn:li:dataset:c",
       JsonBody (JObj [("urn", JStr "urn:li:dataset:c")]));
      (relationshipsUrl "urn:li:dataset:c" INCOMING, relationshipsBody []);
      (relationshipsUrl "urn:li:dataset:c" OUTGOING,
       relationshipsBody
         [ ("urn:li:dataset:a", "DownstreamOf");
           ("urn:li:dataset:b", "DownstreamOf") ]);
      (entityUrl "urn:li:dataset:b",
       JsonBody (JObj [("urn", JStr "urn:li:dataset:a");
                       ("origin", JStr "b")])) ].

Definition shadowState : AppState.t :=
  loadNeighborhood sampleEncode shadowFetch "/gms" false initialState
    "urn:li:dataset:c" (Some connect) None.

(** The parents and dependencies of a neighborhood are sets of
    identifiers: no repetition, and every member starts with [urn:li:]. *)
Definition urnNeighbors (n : Neighborhood.t) : Prop :=
  NoDup (Neighborhood.parentUrns n) ∧
  NoDup (Neighborhood.dependencyUrns n) ∧
  ∀ u, u ∈ Neighborhood.parentUrns n ∨ u ∈ Neighborhood.dependencyUrns n ->
       isUrn u.

(** "Grouped by label, the groups ordered by sorted label and the members of
    each group sorted": the labels of [groups] are sorted and distinct and
    are the labels that occur among [items], and the group of a label holds,
    sorted, the items with that label. *)
Definition arranged (localeCompare : string -> string -> Z)
    (label : string -> string) (items : list string)
    (groups : list (string * list string)) : Prop :=
  Sorted (fun a b => localeCompare a b <= 0) (map fst groups) ∧
  NoDup (map fst groups) ∧
  (∀ l, l ∈ map fst groups ↔ ∃ u, u ∈ items ∧ label u = l) ∧
  ∀ l members, (l, members) ∈ groups ->
    members ≡ₚ filter (fun u => label u = l) items ∧
    Sorted (fun a b => localeCompare a b <= 0) members.

(** ** A sample run

    A first connection to [p], then a move to [c].  The catalog lists [p],
    [b] and [a] as parents of [c] and [e], [a] and [g] as its dependencies;
    the record of [c] names [d] and [e] under the aspect [views]; every
    lookup of a neighbor fails, except that of [g], which is answered with
    an entity that calls itself [a], so that [g] never enters the cache. *)
Definition tourCatalog : string -> fetchOutcome :=
  answering
    [ (entityUrl "urn:li:dataset:p",
       JsonBody (JObj [("urn", JStr "urn:li:dataset:p")]));
      (relationshipsUrl "urn:li:dataset:p" INCOMING, relationshipsBody []);
      (relationshipsUrl "urn:li:dataset:p" OUTGOING, relationshipsBody []);
      (entityUrl "urn:li:dataset:c",
       JsonBody
         (JObj [("urn", JStr "urn:li:dataset:c");
                ("aspects",
                 JObj [("views",
                        JObj [("first", JStr "urn:li:dataset:d");
                              ("second", JStr "urn:li:dataset:e")])])]));
      (relationshipsUrl "urn:li:dataset:c" INCOMING,
       relationshipsBody
         [ ("urn:li:dataset:p", "DownstreamOf");
           ("urn:li:dataset:b", "DownstreamOf");
           ("urn:li:dataset:a", "DownstreamOf") ]);
      (relationshipsUrl "urn:li:dataset:c" OUTGOING,
       relationshipsBody
         [ ("urn:li:dataset:e", "Consumes");
           ("urn:li:dataset:a", "Consumes");
           ("urn:li:dataset:g", "Consumes") ]);
      (entityUrl "urn:li:dataset:g",
       JsonBody (JObj [("urn", JStr "urn:li:dataset:a")])) ].

Definition tour : list Action :=
  [ {| actFetch := tourCatalog; actOutgoingRejectsFirst := false;
       actUrn := "urn:li:dataset:p"; actMode := Some connect;
       actBreadcrumbIndex := None |};
    {| actFetch := tourCatalog; actOutgoingRejectsFirst := false;
       actUrn := "urn:li:dataset:c"; actMode := Some node;
       actBreadcrumbIndex := None |} ].

Definition tourState : AppState.t := run sampleEncode "/gms" tour initialState.

(** The neighborhood that the sample run publishes. *)
Definition tourNeighborhood : Neighborhood.t :=
  default (Neighborhood.mk "" None [] [] ∅ [])
    (AppState.neighborhood tourState).

(** * Properties *)

(** ** The repository's own test cases *)

(** The four cases of [src/lib/navigation.test.ts]. *)
Example nav_test_connect :
  getNextNavigationStack ["a"; "b"] "root" connect None = ["root"].
Proof. reflexivity. Qed.

Example nav_test_append :
  getNextNavigationStack ["a"] "b" node None = ["a"; "b"].
Proof. reflexivity. Qed.

Example nav_test_breadcrumb :
  getNextNavigationStack ["a"; "b"; "c"] "a" breadcrumb (Some 0) = ["a"].
Proof. reflexivity. Qed.

Example nav_test_current :
  getNextNavigationStack ["a"; "b"] "b" node None = ["a"; "b"].
Proof. reflexivity. Qed.

Example urn_test_type :
  parseUrnType "urn:li:dataset:(urn:li:dataPlatform:hive,fct_users_created,PROD)"
  = "dataset".
Proof. reflexivity. Qed.

Example urn_test_name :
  parseUrnName "urn:li:dataset:(urn:li:dataPlatform:hive,fct_users_created,PROD)"
  = "urn:li:dataPlatform:hive,fct_users_created,PROD".
Proof. reflexivity. Qed.

Example urn_test_extract :
  extractUrnsFromJson
    (JObj [("a", JStr "urn:li:corpuser:jdoe");
           ("b", JArr [JStr "x";
                       JObj [("c", JStr "urn:li:dataset:(urn:li:dataPlatform:hive,table,PROD)")]])])
    []
  = ["urn:li:corpuser:jdoe";
     "urn:li:dataset:(urn:li:dataPlatform:hive,table,PROD)"].
Proof. reflexivity. Qed.

Example urn_test_groups :
  extractAspectUrnGroups
    (JObj [("aspects",
            JArr [JObj [("label", JStr "ownership");
                        ("owner", JStr "urn:li:corpuser:jdoe")];
                  JObj [("label", JStr "datasetKey");
                        ("platform", JStr "urn:li:dataPlatform:hive")]])])
  = [("ownership", ["urn:li:corpuser:jdoe"]);
     ("datasetKey", ["urn:li:dataPlatform:hive"])].
Proof. reflexivity. Qed.

(** ** Navigation stack *)

Section NavigationFacts.

Implicit Types (s : list string) (t : string).

Lemma clampIndex_inside len i :
  0 <= i <= len -> JsString.clampIndex len i = i.
Proof.
  intros H. unfold JsString.clampIndex.
  destruct (Z.ltb_spec i 0); lia.
Qed.

Lemma slice0_take {A} (l : list A) (k : nat) :
  (k <= length l)%nat -> JsArray.slice0 l (Z.of_nat k) = take k l.
Proof.
  intros H. unfold JsArray.slice0.
  rewrite clampIndex_inside by lia. by rewrite Nat2Z.id.
Qed.

Lemma at_lookup {A} (l : list A) (k : nat) :
  JsArray.at_ l (Z.of_nat k) = l !! k.
Proof.
  unfold JsArray.at_. destruct (Z.ltb_spec (Z.of_nat k) 0); [lia|].
  by rewrite Nat2Z.id.
Qed.

Lemma at_top {A} (l : list A) :
  JsArray.at_ l (Z.of_nat (length l) - 1) = last l.
Proof.
  destruct l as [|a l]; [done|].
  replace (Z.of_nat (length (a :: l)) - 1)
    with (Z.of_nat (length l)) by (simpl; lia).
  by rewrite at_lookup, last_lookup.
Qed.

(** [lastIndexOf] finds the last occurrence, and [-1] only when there is
    none. *)
Lemma lastIndexOf_spec s t :
  (JsArray.lastIndexOf s t = -1 ∧ t ∉ s) ∨
  (∃ l1 l2, s = l1 ++ (t :: l2) ∧ t ∉ l2 ∧
            JsArray.lastIndexOf s t = Z.of_nat (length l1)).
Proof.
  induction s as [|y s IH]; simpl.
  - left. split; [done|]. apply not_elem_of_nil.
  - destruct IH as [[Hr Hn]|(l1 & l2 & -> & Hn & Hr)].
    + rewrite Hr. simpl.
      destruct (String.eqb_spec y t) as [->|Hne].
      * right. exists [], s. by simpl.
      * left. split; [done|]. rewrite not_elem_of_cons. by split.
    + rewrite Hr. right.
      destruct (Z.leb_spec 0 (Z.of_nat (length l1))); [|lia].
      exists (y :: l1), l2. repeat split; [done|]. simpl. lia.
Qed.

Lemma take_last_occurrence (l1 l2 : list string) t :
  JsArray.slice0 (l1 ++ (t :: l2)) (Z.of_nat (length l1) + 1) = l1 ++ [t].
Proof.
  replace (Z.of_nat (length l1) + 1) with (Z.of_nat (S (length l1))) by lia.
  rewrite slice0_take by (rewrite length_app; simpl; lia).
  rewrite (take_app_ge _ _ (S (length l1))) by lia.
  replace (S (length l1) - length l1)%nat with 1%nat by lia. done.
Qed.

Lemma breadcrumbHit_spec s t i :
  breadcrumbHit s t i = true ↔ validBreadcrumb s t i.
Proof.
  unfold breadcrumbHit, validBreadcrumb. split.
  - destruct i as [i|]; [|done].
    rewrite !andb_true_iff. intros [[H0 H1] H2].
    apply Z.leb_le in H0. exists (Z.to_nat i).
    rewrite Z2Nat.id by done. split; [done|].
    replace i with (Z.of_nat (Z.to_nat i)) in H2 by lia.
    rewrite at_lookup in H2.
    destruct (s !! Z.to_nat i) as [x|]; [|done].
    by apply String.eqb_eq in H2 as ->.
  - intros (k & -> & Hk). pose proof (lookup_lt_Some _ _ _ Hk).
    rewrite at_lookup, Hk, String.eqb_refl.
    rewrite !andb_true_iff. repeat split; [apply Z.leb_le|apply Z.ltb_lt]; lia.
Qed.

Lemma take_S_last {A} (l : list A) (k : nat) (x : A) :
  l !! k = Some x -> last (take (S k) l) = Some x.
Proof.
  intros Hk. rewrite last_lookup.
  pose proof (lookup_lt_Some _ _ _ Hk).
  rewrite length_take, Nat.min_l by lia. simpl.
  by rewrite lookup_take_lt by lia.
Qed.

Lemma breadcrumb_hit_result s t (k : nat) :
  s !! k = Some t ->
  getNextNavigationStack s t breadcrumb (Some (Z.of_nat k)) = take (S k) s.
Proof.
  intros Hk. pose proof (lookup_lt_Some _ _ _ Hk).
  unfold getNextNavigationStack.
  rewrite (proj2 (breadcrumbHit_spec s t _)) by (by exists k).
  simpl. replace (Z.of_nat k + 1) with (Z.of_nat (S k)) by lia.
  apply slice0_take. lia.
Qed.

(** Every branch of the function ends on the target. *)
Lemma advance_last s t m i :
  last (getNextNavigationStack s t m i) = Some t.
Proof.
  destruct m; simpl.
  - done.
  - destruct (Z.eqb_spec (Z.of_nat (length s)) 0); [done|].
    replace (Z.of_nat (length s) - 1) with (Z.of_nat (length s - 1)) by lia.
    rewrite at_lookup.
    destruct (s !! (length s - 1)%nat) as [x|] eqn:Hx.
    + destruct (String.eqb_spec x t) as [->|_].
      { rewrite last_lookup.
        by replace (Nat.pred (length s)) with (length s - 1)%nat by lia. }
      destruct (lastIndexOf_spec s t) as [[-> _]|(l1 & l2 & -> & _ & ->)].
      * simpl. by rewrite last_snoc.
      * destruct (Z.leb_spec 0 (Z.of_nat (length l1))); [|lia].
        by rewrite take_last_occurrence, last_snoc.
    + destruct (lastIndexOf_spec s t) as [[-> _]|(l1 & l2 & -> & _ & ->)].
      * simpl. by rewrite last_snoc.
      * destruct (Z.leb_spec 0 (Z.of_nat (length l1))); [|lia].
        by rewrite take_last_occurrence, last_snoc.
  - destruct (breadcrumbHit s t i) eqn:Hhit.
    + apply breadcrumbHit_spec in Hhit as (k & -> & Hk).
      simpl. replace (Z.of_nat k + 1) with (Z.of_nat (S k)) by lia.
      pose proof (lookup_lt_Some _ _ _ Hk).
      rewrite slice0_take by lia. by apply take_S_last.
    + destruct (lastIndexOf_spec s t) as [[-> _]|(l1 & l2 & -> & _ & ->)].
      * done.
      * destruct (Z.leb_spec 0 (Z.of_nat (length l1))); [|lia].
        by rewrite take_last_occurrence, last_snoc.
Qed.

End NavigationFacts.

(** C7: for every stack, non-empty target, mode and optional breadcrumb
    index, [getNextNavigationStack] returns a non-empty stack whose final
    element is exactly the target. *)
Theorem advance_nonempty_ends_with_target
    (s : list string) (t : string) (m : NavigationMode) (i : option Z) :
  t ≠ "" ->
  getNextNavigationStack s t m i ≠ [] ∧
  last (getNextNavigationStack s t m i) = Some t.
Proof.
  intros _. pose proof (advance_last s t m i) as Hlast.
  split; [|done]. intros Hnil. by rewrite Hnil in Hlast.
Qed.

Lemma advance_nonempty_ends_with_target_witness :
  getNextNavigationStack ["a"; "b"; "c"] "b" breadcrumb (Some 7) ≠ [] ∧
  last (getNextNavigationStack ["a"; "b"; "c"] "b" breadcrumb (Some 7))
    = Some "b".
Proof.
  apply (advance_nonempty_ends_with_target ["a"; "b"; "c"] "b" breadcrumb
           (Some 7)).
  discriminate.
Defined.

(** C2 as stated fails: on a breadcrumb click whose index does not hit the
    target and whose target is nowhere in the stack, the code does not append
    (the node-mode rule) but restarts the stack at the target. *)
Lemma breadcrumb_miss_does_not_append :
  ¬ validBreadcrumb ["a"] "b" None ∧ "b" ∉ ["a"] ∧
  getNextNavigationStack ["a"] "b" node None = ["a"] ++ ["b"] ∧
  getNextNavigationStack ["a"] "b" breadcrumb None ≠ ["a"] ++ ["b"].
Proof.
  split; [|split; [|split]].
  - rewrite <- breadcrumbHit_spec. simpl. discriminate.
  - rewrite list_elem_of_singleton. discriminate.
  - reflexivity.
  - simpl. discriminate.
Qed.

(** C2, amended: in breadcrumb mode, a valid index holding the target
    truncates the stack to that index inclusive; otherwise a target occurring
    in the stack truncates it to and including its last occurrence (which is
    also what node mode returns), and a target occurring nowhere yields the
    one-element stack holding the target. *)
Theorem breadcrumb_advance (s : list string) (t : string) (i : option Z) :
  (validBreadcrumb s t i ->
     ∃ k : nat, i = Some (Z.of_nat k) ∧
       getNextNavigationStack s t breadcrumb i = take (S k) s) ∧
  (¬ validBreadcrumb s t i -> t ∈ s ->
     (∃ l1 l2, s = l1 ++ (t :: l2) ∧ t ∉ l2 ∧
        getNextNavigationStack s t breadcrumb i = l1 ++ [t]) ∧
     getNextNavigationStack s t breadcrumb i
       = getNextNavigationStack s t node None) ∧
  (¬ validBreadcrumb s t i -> t ∉ s ->
     getNextNavigationStack s t breadcrumb i = [t]).
Proof.
  split; [|split].
  - intros (k & -> & Hk). exists k. split; [done|].
    by apply breadcrumb_hit_result.
  - intros Hmiss Hin.
    assert (breadcrumbHit s t i = false) as Hhit.
    { destruct (breadcrumbHit s t i) eqn:E; [|done].
      by apply breadcrumbHit_spec in E. }
    destruct (lastIndexOf_spec s t) as [[_ Hn]|(l1 & l2 & -> & Hn & Hr)];
      [done|].
    assert (getNextNavigationStack (l1 ++ t :: l2) t breadcrumb i = l1 ++ [t])
      as Hb.
    { unfold getNextNavigationStack. rewrite Hhit, Hr.
      destruct (Z.leb_spec 0 (Z.of_nat (length l1))); [|lia].
      apply take_last_occurrence. }
    split; [by exists l1, l2|].
    rewrite Hb. unfold getNextNavigationStack.
    rewrite at_top, last_app_cons.
    destruct (Z.eqb_spec (Z.of_nat (length (l1 ++ t :: l2))) 0) as [E|_].
    { rewrite length_app in E. simpl in E. lia. }
    rewrite Hr. destruct (Z.leb_spec 0 (Z.of_nat (length l1))); [|lia].
    rewrite take_last_occurrence.
    destruct l2 as [|y l2]; simpl.
    + by rewrite String.eqb_refl.
    + destruct (last (y :: l2)) as [x|] eqn:Hx; [|done].
      destruct (String.eqb_spec x t) as [->|_]; [|done].
      exfalso. apply Hn. by apply last_Some_elem_of.
  - intros Hmiss Hn.
    assert (breadcrumbHit s t i = false) as Hhit.
    { destruct (breadcrumbHit s t i) eqn:E; [|done].
      by apply breadcrumbHit_spec in E. }
    unfold getNextNavigationStack. rewrite Hhit.
    destruct (lastIndexOf_spec s t) as [[-> _]|(l1 & l2 & -> & _ & _)].
    + done.
    + exfalso. apply Hn. set_solver.
Qed.

Lemma breadcrumb_advance_witness :
  (∃ k : nat, Some 0 = Some (Z.of_nat k) ∧
     getNextNavigationStack ["a"; "b"; "c"] "a" breadcrumb (Some 0)
       = take (S k) ["a"; "b"; "c"]) ∧
  getNextNavigationStack ["a"; "b"; "a"; "c"] "a" breadcrumb (Some 1)
    = getNextNavigationStack ["a"; "b"; "a"; "c"] "a" node None ∧
  getNextNavigationStack ["a"] "b" breadcrumb None = ["b"].
Proof.
  split; [|split].
  - apply (breadcrumb_advance ["a"; "b"; "c"] "a" (Some 0)).
    exists 0%nat. split; reflexivity.
  - apply (breadcrumb_advance ["a"; "b"; "a"; "c"] "a" (Some 1)).
    + rewrite <- breadcrumbHit_spec. simpl. discriminate.
    + set_solver.
  - apply (breadcrumb_advance ["a"] "b" None).
    + rewrite <- breadcrumbHit_spec. simpl. discriminate.
    + rewrite list_elem_of_singleton. discriminate.
Defined.

(** ** Identifier parsing *)

Section StringFacts.

Implicit Types (c a : ascii) (s p q : string).

Lemma ascii_eqb_true a c : Ascii.eqb a c = true -> a = c.
Proof. apply Ascii.eqb_eq. Qed.

Lemma hasChar_app c p q :
  JsString.hasChar c (p +:+ q) = JsString.hasChar c p || JsString.hasChar c q.
Proof.
  induction p as [|a p IH]; simpl; [done|].
  rewrite IH. by rewrite orb_assoc.
Qed.

Lemma hasChar_take c n s :
  JsString.hasChar c s = false -> JsString.hasChar c (JsString.take n s) = false.
Proof.
  revert s. induction n as [|n IH]; intros [|a s]; simpl; try done.
  intros [H1 H2]%orb_false_iff. rewrite H1. simpl. by apply IH.
Qed.

Lemma hasChar_drop c n s :
  JsString.hasChar c s = false -> JsString.hasChar c (JsString.drop n s) = false.
Proof.
  revert s. induction n as [|n IH]; intros [|a s]; simpl; try done.
  intros [H1 H2]%orb_false_iff. by apply IH.
Qed.

Lemma drop_app_length p q : JsString.drop (String.length p) (p +:+ q) = q.
Proof. induction p as [|a p IH]; simpl; done. Qed.

Lemma length_app_string p q :
  String.length (p +:+ q) = (String.length p + String.length q)%nat.
Proof. induction p as [|a p IH]; simpl; [done|]. by rewrite IH. Qed.

Lemma stripPrefix_Some p s q :
  JsString.stripPrefix p s = Some q -> s = p +:+ q.
Proof.
  revert s. induction p as [|a p IH]; intros s; simpl.
  - by intros [= ->].
  - destruct s as [|b s]; [done|].
    destruct (Ascii.eqb a b) eqn:E; [|done].
    apply ascii_eqb_true in E as ->. intros ->%IH. done.
Qed.

Lemma span_fst_free c s : JsString.hasChar c (JsString.span c s).1 = false.
Proof.
  induction s as [|a s IH]; simpl; [done|].
  destruct (Ascii.eqb a c) eqn:E; simpl; [done|].
  destruct (JsString.span c s) as [x y]. simpl in *. by rewrite E, IH.
Qed.

(** The first piece of a split is the text before the first separator. *)
Lemma split_head c s :
  head (JsString.split c s) = Some (JsString.span c s).1.
Proof.
  induction s as [|a s IH]; simpl; [done|].
  destruct (Ascii.eqb a c); simpl; [done|].
  destruct (JsString.span c s) as [x y].
  destruct (JsString.split c s) as [|x' r]; simpl in *; [done|].
  by injection IH as ->.
Qed.

(** The last piece of a split is a separator-free suffix. *)
Lemma split_last c s :
  ∃ x p, last (JsString.split c s) = Some x ∧ s = p +:+ x ∧
         JsString.hasChar c x = false ∧
         (JsString.split c s = [x] -> p = "").
Proof.
  induction s as [|a s (x & p & Hlast & Hs & Hfree & Hsingle)]; simpl.
  - by exists "", "".
  - destruct (Ascii.eqb a c) eqn:E.
    + exists x, (String a p). split; [|split; [|split]].
      * destruct (JsString.split c s); [done|]. by rewrite last_cons_cons.
      * by rewrite Hs at 1.
      * done.
      * destruct (JsString.split c s); done.
    + destruct (JsString.split c s) as [|y [|z r]] eqn:Hsplit; [done| |].
      * injection Hlast as ->. exists (String a x), "".
        rewrite (Hsingle eq_refl) in Hs. simpl in Hs. subst s.
        split; [|split; [|split]]; try done. simpl. by rewrite E, Hfree.
      * exists x, (String a p). split; [|split; [|split]]; try done.
        by rewrite Hs at 1.
Qed.

Lemma split_free c s :
  JsString.hasChar c s = false -> JsString.split c s = [s].
Proof.
  induction s as [|a s IH]; simpl; [done|].
  intros [H1 H2]%orb_false_iff. rewrite H1, (IH H2). done.
Qed.

Lemma lastIndexOf_lower c s : -1 <= JsString.lastIndexOf c s.
Proof.
  induction s as [|a s IH]; simpl; [lia|].
  destruct (Z.leb_spec 0 (JsString.lastIndexOf c s)); [lia|].
  destruct (Ascii.eqb a c); lia.
Qed.

Lemma lastIndexOf_free c s :
  JsString.hasChar c s = false -> JsString.lastIndexOf c s = -1.
Proof.
  induction s as [|a s IH]; simpl; [done|].
  intros [H1 H2]%orb_false_iff. by rewrite (IH H2), H1.
Qed.

(** [lastIndexOf] is the position of the last occurrence. *)
Lemma lastIndexOf_found c s :
  0 <= JsString.lastIndexOf c s ->
  ∃ p q, s = p +:+ String c q ∧ JsString.hasChar c q = false ∧
         JsString.lastIndexOf c s = Z.of_nat (String.length p).
Proof.
  induction s as [|a s IH]; simpl; [lia|].
  destruct (Z.leb_spec 0 (JsString.lastIndexOf c s)) as [Hr|Hr].
  - intros _. destruct (IH Hr) as (p & q & -> & Hq & Hp).
    exists (String a p), q. repeat split; try done. simpl. lia.
  - destruct (Ascii.eqb a c) eqn:E; [|lia]. intros _.
    apply ascii_eqb_true in E as ->. exists "", s. repeat split; try done.
    destruct (JsString.hasChar c s) eqn:Hs; [|done].
    assert (JsString.lastIndexOf c s <> -1); [|pose proof (lastIndexOf_lower c s); lia].
    clear -Hs. induction s as [|a s IH]; simpl in *; [done|].
    destruct (Z.leb_spec 0 (JsString.lastIndexOf c s)).
    + pose proof (lastIndexOf_lower c s). lia.
    + destruct (Ascii.eqb a c); simpl in *; [lia|].
      specialize (IH Hs). pose proof (lastIndexOf_lower c s). lia.
Qed.

Lemma lastIndexOf_app c p q :
  JsString.lastIndexOf c (p +:+ q) =
    if 0 <=? JsString.lastIndexOf c q
    then Z.of_nat (String.length p) + JsString.lastIndexOf c q
    else JsString.lastIndexOf c p.
Proof.
  induction p as [|a p IH].
  - change ("" +:+ q) with q. change (Z.of_nat (String.length "")) with 0.
    destruct (Z.leb_spec 0 (JsString.lastIndexOf c q)); [lia|].
    pose proof (lastIndexOf_lower c q). simpl. lia.
  - change (String a p +:+ q) with (String a (p +:+ q)).
    cbn [JsString.lastIndexOf]. rewrite IH.
    destruct (Z.leb_spec 0 (JsString.lastIndexOf c q)) as [Hq|Hq].
    + destruct (Z.leb_spec 0 (Z.of_nat (String.length p) + JsString.lastIndexOf c q));
        [|lia].
      simpl String.length. lia.
    + done.
Qed.

End StringFacts.

Section UrnFacts.

Implicit Types (u r b : string).

Lemma matchUrnType_free u m :
  matchUrnType u = Some m -> JsString.hasChar colon m = false.
Proof.
  unfold matchUrnType.
  destruct (JsString.stripPrefix "urn:li:" u) as [rest|]; [|done].
  pose proof (span_fst_free colon rest) as Hfree.
  destruct (JsString.span colon rest) as [x y]. simpl in Hfree.
  destruct x; [done|]. destruct y; [done|]. by intros [= <-].
Qed.

Lemma matchUrnType_needs_colon u :
  JsString.hasChar colon u = false -> matchUrnType u = None.
Proof.
  intros Hfree. unfold matchUrnType.
  destruct (JsString.stripPrefix "urn:li:" u) as [rest|] eqn:E; [|done].
  apply stripPrefix_Some in E. subst u.
  rewrite hasChar_app in Hfree. done.
Qed.

Lemma parseUrnType_twice u : parseUrnType (parseUrnType u) = "entity".
Proof.
  unfold parseUrnType at 2.
  destruct (matchUrnType u) as [m|] eqn:E; [|done].
  unfold parseUrnType.
  by rewrite (matchUrnType_needs_colon m (matchUrnType_free u m E)).
Qed.

Lemma span_free c s :
  JsString.hasChar c s = false -> (JsString.span c s).1 = s.
Proof.
  induction s as [|a s IH]; simpl; [done|].
  intros [H1 H2]%orb_false_iff. rewrite H1.
  specialize (IH H2). destruct (JsString.span c s). simpl in *. by subst.
Qed.

Lemma parseUrnName_unfold u :
  parseUrnName u =
    let b := (JsString.span hash u).1 in
    if parenthesized b then
      JsString.slice b (JsString.lastIndexOf lparen b + 1)
        (JsString.lastIndexOf rparen b)
    else default u (last (JsString.split colon b)).
Proof. unfold parseUrnName. by rewrite split_head. Qed.

(** Without a fragment marker and a parenthesized part, the name is the
    colon-free suffix after the last colon. *)
Lemma parseUrnName_else u :
  JsString.hasChar hash u = false -> parenthesized u = false ->
  (∃ p, u = p +:+ parseUrnName u) ∧
  JsString.hasChar colon (parseUrnName u) = false ∧
  (JsString.hasChar colon u = false -> parseUrnName u = u).
Proof.
  intros Hh Hp. rewrite parseUrnName_unfold. simpl.
  rewrite (span_free _ _ Hh), Hp.
  destruct (split_last colon u) as (x & p & Hlast & Hu & Hfree & _).
  rewrite Hlast. simpl. split; [by exists p|]. split; [done|].
  intros Hc. rewrite (split_free _ _ Hc) in Hlast. by injection Hlast.
Qed.

Lemma drop_past_occurrence c (p q : string) :
  JsString.drop (S (String.length p)) (p +:+ String c q) = q.
Proof. induction p as [|a p IH]; simpl; done. Qed.

Lemma slice_after_last c b (to : Z) :
  0 <= JsString.lastIndexOf c b ->
  JsString.hasChar c
    (JsString.slice b (JsString.lastIndexOf c b + 1) to) = false.
Proof.
  intros Hpos.
  destruct (lastIndexOf_found c b Hpos) as (p & q & -> & Hq & Hidx).
  unfold JsString.slice. rewrite Hidx. apply hasChar_take.
  rewrite clampIndex_inside.
  - replace (Z.to_nat (Z.of_nat (String.length p) + 1))
      with (S (String.length p)) by lia.
    by rewrite drop_past_occurrence.
  - rewrite length_app_string. simpl. lia.
Qed.

Lemma slice_free c b (from to : Z) :
  JsString.hasChar c b = false ->
  JsString.hasChar c (JsString.slice b from to) = false.
Proof.
  intros H. unfold JsString.slice. by apply hasChar_take, hasChar_drop.
Qed.

Lemma parenthesized_needs_lparen r :
  JsString.hasChar lparen r = false -> parenthesized r = false.
Proof.
  intros H. unfold parenthesized. by rewrite (lastIndexOf_free _ _ H).
Qed.

Lemma parenthesized_suffix (p x : string) :
  parenthesized (p +:+ x) = false -> parenthesized x = false.
Proof.
  unfold parenthesized. rewrite !lastIndexOf_app.
  destruct (Z.leb_spec 0 (JsString.lastIndexOf lparen x)) as [Hl|Hl];
    [|done].
  destruct (Z.ltb_spec (JsString.lastIndexOf lparen x)
              (JsString.lastIndexOf rparen x)) as [Hr|Hr]; [|done].
  destruct (Z.leb_spec 0 (JsString.lastIndexOf rparen x)); [|lia].
  intros Hb. apply andb_false_iff in Hb as [Hb|Hb].
  - apply Z.leb_gt in Hb. lia.
  - apply Z.ltb_ge in Hb. lia.
Qed.

(** What [parseUrnName] returns never has a fragment marker or a
    parenthesized part of its own. *)
Lemma parseUrnName_output u :
  JsString.hasChar hash (parseUrnName u) = false ∧
  parenthesized (parseUrnName u) = false.
Proof.
  rewrite parseUrnName_unfold. simpl.
  pose proof (span_fst_free hash u) as Hh.
  set (b := (JsString.span hash u).1) in *.
  destruct (parenthesized b) eqn:Hp.
  - split; [by apply slice_free|].
    apply parenthesized_needs_lparen, slice_after_last.
    unfold parenthesized in Hp. apply andb_true_iff in Hp as [Hp _].
    by apply Z.leb_le.
  - destruct (split_last colon b) as (x & p & Hlast & Hb & Hfree & _).
    rewrite Hlast. simpl. rewrite Hb in Hh, Hp.
    rewrite hasChar_app in Hh. apply orb_false_iff in Hh as [_ Hh].
    split; [done|]. by apply parenthesized_suffix in Hp.
Qed.

Lemma parseUrnName_twice_free u :
  JsString.hasChar colon (parseUrnName (parseUrnName u)) = false.
Proof.
  destruct (parseUrnName_output u) as [Hh Hp].
  by destruct (parseUrnName_else _ Hh Hp) as (_ & Hc & _).
Qed.

Lemma parseUrnName_fixed u :
  JsString.hasChar colon (parseUrnName u) = false ->
  parseUrnName (parseUrnName u) = parseUrnName u.
Proof.
  intros Hc. destruct (parseUrnName_output u) as [Hh Hp].
  destruct (parseUrnName_else _ Hh Hp) as (_ & _ & Hfix). by apply Hfix.
Qed.

End UrnFacts.

(** C3 as stated fails: neither parser is idempotent.  The type of a type is
    the sentinel, and the name of a composite key is re-parsed at its last
    colon. *)
Lemma parse_not_idempotent :
  parseUrnType (parseUrnType "urn:li:dataset:x") ≠ parseUrnType "urn:li:dataset:x"
  ∧ parseUrnName (parseUrnName "urn:li:dataset:(urn:li:dataPlatform:hive,t,PROD)")
    ≠ parseUrnName "urn:li:dataset:(urn:li:dataPlatform:hive,t,PROD)".
Proof. split; vm_compute; discriminate. Qed.

(** C3, amended: for every identifier string both parsers are total (the
    array reads they perform are always defined) and they stabilise from the
    second application on; a second application of [parseUrnType] always
    yields the sentinel ["entity"], so it agrees with the first exactly when
    the first is the sentinel, and a second application of [parseUrnName]
    agrees with the first exactly when the first contains no colon. *)
Theorem parse_total_and_stabilising (u : string) :
  is_Some (head (JsString.split hash u)) ∧
  is_Some (last (JsString.split colon (JsString.span hash u).1)) ∧
  parseUrnType (parseUrnType u) = "entity" ∧
  parseUrnType (parseUrnType (parseUrnType u)) = parseUrnType (parseUrnType u) ∧
  parseUrnName (parseUrnName (parseUrnName u)) = parseUrnName (parseUrnName u) ∧
  (parseUrnType (parseUrnType u) = parseUrnType u ↔ parseUrnType u = "entity") ∧
  (parseUrnName (parseUrnName u) = parseUrnName u
     ↔ JsString.hasChar colon (parseUrnName u) = false).
Proof.
  repeat apply conj.
  - rewrite split_head. by eexists.
  - destruct (split_last colon (JsString.span hash u).1) as (x & _ & -> & _).
    by eexists.
  - apply parseUrnType_twice.
  - by rewrite !parseUrnType_twice.
  - apply parseUrnName_fixed, parseUrnName_twice_free.
  - rewrite parseUrnType_twice. intros H. by rewrite <- H.
  - rewrite parseUrnType_twice. intros H. by rewrite H.
  - intros H. rewrite <- H. apply parseUrnName_twice_free.
  - apply parseUrnName_fixed.
Qed.

(** ** Catalog client: normalizing a relationships response *)

(** C4 as stated fails: a wrapper that holds an empty list is selected even
    though a later wrapper is populated. *)
Lemma empty_wrapper_shadows_populated :
  let response :=
    JObj [("relationships", JArr []);
          ("entities", JArr [JObj [("urn", JStr "urn:li:dataJob:job1")]])] in
  extractRelationshipItems response = Ok [] ∧
  firstPopulatedList wrapperNames response
    = [JObj [("urn", JStr "urn:li:dataJob:job1")]] ∧
  extractRelationshipItems response
    ≠ Ok (firstPopulatedList wrapperNames response).
Proof. repeat split. discriminate. Qed.

Lemma firstList_selected (pre post : list string) (name : string)
    (response : json) (items : list json) :
  (∀ n, n ∈ pre -> Js.isArray (Js.get response n) = None) ->
  Js.get response name = Some (JArr items) ->
  firstList (pre ++ name :: post) response = items.
Proof.
  intros Hpre Hname. induction pre as [|n pre IH]; simpl.
  - by rewrite Hname.
  - rewrite (Hpre n) by apply list_elem_of_here.
    apply IH. intros n' Hn'. apply Hpre. by apply list_elem_of_further.
Qed.

Lemma firstList_none (names : list string) (response : json) :
  (∀ n, n ∈ names -> Js.isArray (Js.get response n) = None) ->
  firstList names response = [].
Proof.
  intros Hall. induction names as [|n names IH]; simpl; [done|].
  rewrite (Hall n) by apply list_elem_of_here.
  apply IH. intros n' Hn'. apply Hall. by apply list_elem_of_further.
Qed.

(** C4, amended: for every response object, normalization yields the items
    of the first wrapper field, among relationships, entities, value and
    elements in that order, that holds a list, whether or not that list has
    any item; it yields the empty list when no wrapper field holds a list. *)
Theorem relationship_items_first_list (fields : list (string * json)) :
  let response := JObj fields in
  extractRelationshipItems response = Ok (firstList wrapperNames response) ∧
  (∀ pre name post items,
     wrapperNames = pre ++ name :: post ->
     (∀ n, n ∈ pre -> Js.isArray (Js.get response n) = None) ->
     Js.get response name = Some (JArr items) ->
     extractRelationshipItems response = Ok items) ∧
  ((∀ n, n ∈ wrapperNames -> Js.isArray (Js.get response n) = None) ->
     extractRelationshipItems response = Ok []).
Proof.
  intros response.
  assert (extractRelationshipItems response
            = Ok (firstList wrapperNames response)) as Heq.
  { unfold extractRelationshipItems, firstList, wrapperNames. simpl.
    destruct (Js.isArray (Js.lookupField fields "relationships")); [done|].
    destruct (Js.isArray (Js.lookupField fields "entities")); [done|].
    destruct (Js.isArray (Js.lookupField fields "value")); [done|].
    by destruct (Js.isArray (Js.lookupField fields "elements")). }
  split; [done|]. split.
  - intros pre name post items Hnames Hpre Hname.
    rewrite Heq, Hnames. f_equal. by apply firstList_selected.
  - intros Hall. rewrite Heq. f_equal. by apply firstList_none.
Qed.

Lemma relationship_items_first_list_witness :
  extractRelationshipItems
    (JObj [("relationships", JNull); ("entities", JArr []);
           ("value", JArr [JStr "x"])]) = Ok [] ∧
  extractRelationshipItems (JObj [("relationships", JStr "none")]) = Ok [].
Proof.
  split.
  - apply (relationship_items_first_list
             [("relationships", JNull); ("entities", JArr []);
              ("value", JArr [JStr "x"])])
      with (pre := ["relationships"]) (name := "entities")
           (post := ["value"; "elements"]).
    + reflexivity.
    + intros n ->%list_elem_of_singleton. reflexivity.
    + reflexivity.
  - apply (relationship_items_first_list [("relationships", JStr "none")]).
    intros n Hn. unfold wrapperNames in Hn.
    rewrite !elem_of_cons, elem_of_nil in Hn.
    destruct Hn as [->|[->|[->|[->|[]]]]]; reflexivity.
Defined.

(** ** Grouping identifiers by aspect *)

Section AspectFacts.

Lemma JsMap_get_set {V} (m : list (string * V)) (k k' : string) (v : V) :
  JsMap.get (JsMap.set m k v) k' =
    if String.eqb k k' then Some v else JsMap.get m k'.
Proof.
  induction m as [|[k0 v0] m IH]; simpl.
  - done.
  - destruct (String.eqb_spec k0 k) as [->|Hne]; simpl.
    + by destruct (String.eqb k k').
    + rewrite IH. destruct (String.eqb_spec k0 k') as [->|Hne'].
      * destruct (String.eqb_spec k k'); [by subst|done].
      * done.
Qed.

Lemma labelledFrom_elem {A} (f : A -> nat -> option (string * json))
    (l : list A) (index : nat) (p : string * json) :
  p ∈ labelledFrom f l index ↔
  ∃ (k : nat) (x : A), l !! k = Some x ∧ f x (index + k)%nat = Some p.
Proof.
  revert index. induction l as [|x l IH]; intros index; simpl.
  - rewrite elem_of_nil. split; [done|]. by intros (k & y & Hk & _).
  - assert (p ∈ labelledFrom f l (S index) ↔
            ∃ k y, (x :: l) !! S k = Some y ∧
                   f y (index + S k)%nat = Some p) as Hrest.
    { rewrite IH. split; intros (k & y & Hk & Hf); exists k, y;
        (split; [done|]).
      - by replace (index + S k)%nat with (S index + k)%nat by lia.
      - by replace (S index + k)%nat with (index + S k)%nat by lia. }
    destruct (f x index) as [q|] eqn:Hq.
    + rewrite elem_of_cons, Hrest. split.
      * intros [->|(k & y & Hk & Hf)].
        -- exists 0%nat, x. by rewrite Nat.add_0_r.
        -- by exists (S k), y.
      * intros ([|k] & y & Hk & Hf).
        -- left. injection Hk as <-. rewrite Nat.add_0_r in Hf. congruence.
        -- right. by exists k, y.
    + rewrite Hrest. split.
      * intros (k & y & Hk & Hf). by exists (S k), y.
      * intros ([|k] & y & Hk & Hf).
        -- injection Hk as <-. rewrite Nat.add_0_r in Hf. congruence.
        -- by exists k, y.
Qed.

Lemma forEachIndexed_labelled {A} (f : A -> nat -> option (string * json))
    (l : list A) (index : nat) (groups : list (string * list string)) :
  forEachIndexed
    (fun groups x index =>
       match f x index with
       | Some p => addAspectGroup groups p.1 p.2
       | None => groups
       end) l index groups
  = fold_left (fun groups p => addAspectGroup groups p.1 p.2)
      (labelledFrom f l index) groups.
Proof.
  revert index groups. induction l as [|x l IH]; intros index groups; simpl.
  - done.
  - rewrite IH. by destruct (f x index).
Qed.

Lemma forEachIndexed_ext {A St} (f g : St -> A -> nat -> St) (l : list A)
    (index : nat) (acc : St) :
  (∀ acc x index, f acc x index = g acc x index) ->
  forEachIndexed f l index acc = forEachIndexed g l index acc.
Proof.
  intros Hfg. revert index acc.
  induction l as [|x l IH]; intros index acc; simpl; [done|].
  by rewrite Hfg, IH.
Qed.

Lemma extractAspectUrnGroups_labelled (fields : list (string * json))
    (aspects : json) :
  Js.lookupField fields "aspects" = Some aspects ->
  extractAspectUrnGroups (JObj fields) = groupsOf (labelledAspects aspects).
Proof.
  intros Haspects. unfold extractAspectUrnGroups, groupsOf. simpl.
  rewrite Haspects.
  destruct aspects as [|b|n|s|items|entries]; simpl; try done.
  - by destruct b.
  - by destruct (n =? 0).
  - by destruct (String.eqb s "").
  - rewrite <- forEachIndexed_labelled. apply forEachIndexed_ext.
    intros acc x index. unfold labelArrayAspect, isRecord.
    by destruct (Js.truthy x), (Js.typeofObject x).
  - rewrite <- forEachIndexed_labelled. apply forEachIndexed_ext.
    intros acc [key value] index. unfold labelEntryAspect, isRecord. simpl.
    by destruct (Js.truthy value), (Js.typeofObject value).
Qed.

Lemma groupsOf_snoc (ps : list (string * json)) (label : string) (v : json) :
  groupsOf (ps ++ [(label, v)]) = addAspectGroup (groupsOf ps) label v.
Proof. unfold groupsOf. by rewrite fold_left_app. Qed.

(** A label maps to the identifiers of the last aspect carrying it that
    contributed any. *)
Lemma groupsOf_get (ps : list (string * json)) (label : string)
    (urns : list string) :
  JsMap.get (groupsOf ps) label = Some urns ↔
  ∃ (i : nat) (v : json),
    ps !! i = Some (label, v) ∧ urns = extractUrnsFromJson v [] ∧
    urns ≠ [] ∧
    ∀ (j : nat) (v' : json), (i < j)%nat -> ps !! j = Some (label, v') ->
      extractUrnsFromJson v' [] = [].
Proof.
  revert urns. induction ps as [|[l v] ps IH] using rev_ind; intros urns.
  - simpl. split; [done|]. by intros (i & v & Hi & _).
  - rewrite groupsOf_snoc. unfold addAspectGroup.
    destruct (extractUrnsFromJson v []) as [|u us] eqn:Hv; simpl.
    + rewrite IH. split.
      * intros (i & w & Hi & Hu & Hne & Hlater).
        exists i, w. split; [by apply lookup_app_l_Some|].
        split; [done|]. split; [done|].
        intros j w' Hij Hj.
        apply lookup_app_Some in Hj as [Hj|[Hlen Hj]]; [by eapply Hlater|].
        apply list_lookup_singleton_Some in Hj as [_ [= _ <-]]. done.
      * intros (i & w & Hi & Hu & Hne & Hlater).
        apply lookup_app_Some in Hi as [Hi|[Hlen Hi]].
        -- exists i, w. repeat split; try done.
           intros j w' Hij Hj. eapply Hlater; [done|].
           by apply lookup_app_l_Some.
        -- apply list_lookup_singleton_Some in Hi as [_ [= -> ->]].
           congruence.
    + rewrite JsMap_get_set.
      destruct (String.eqb_spec l label) as [->|Hne].
      * split.
        -- intros [= <-]. exists (length ps), v.
           split; [by rewrite lookup_app_r, Nat.sub_diag by lia|].
           split; [done|]. split; [done|].
           intros j w' Hij Hj. apply lookup_lt_Some in Hj.
           rewrite length_app in Hj. simpl in Hj. lia.
        -- intros (i & w & Hi & Hu & _ & Hlater).
           apply lookup_app_Some in Hi as [Hi|[Hlen Hi]].
           ++ pose proof (lookup_lt_Some _ _ _ Hi) as Hlt.
              specialize (Hlater (length ps) v Hlt).
              rewrite lookup_app_r, Nat.sub_diag in Hlater by lia.
              specialize (Hlater eq_refl). congruence.
           ++ apply list_lookup_singleton_Some in Hi as [_ [= <-]].
              congruence.
      * rewrite IH. split.
        -- intros (i & w & Hi & Hu & Hnonempty & Hlater).
           exists i, w. split; [by apply lookup_app_l_Some|].
           split; [done|]. split; [done|].
           intros j w' Hij Hj.
           apply lookup_app_Some in Hj as [Hj|[Hlen Hj]];
             [by eapply Hlater|].
           apply list_lookup_singleton_Some in Hj as [_ [= ? _]]. done.
        -- intros (i & w & Hi & Hu & Hnonempty & Hlater).
           apply lookup_app_Some in Hi as [Hi|[Hlen Hi]].
           ++ exists i, w. repeat split; try done.
              intros j w' Hij Hj. eapply Hlater; [done|].
              by apply lookup_app_l_Some.
           ++ apply list_lookup_singleton_Some in Hi as [_ [= ? _]]. done.
Qed.

End AspectFacts.

Lemma arrayAspectLabel_chain (aspect : json) (index : nat) :
  arrayAspectLabel aspect index =
    firstLabel
      [ Js.nonEmptyString aspect "label"; Js.nonEmptyString aspect "name";
        Js.nonEmptyString aspect "aspectName" ]
      (positionalLabel index).
Proof.
  unfold arrayAspectLabel, firstLabel.
  destruct (Js.nonEmptyString aspect "label"); [done|].
  destruct (Js.nonEmptyString aspect "name"); [done|].
  by destruct (Js.nonEmptyString aspect "aspectName").
Qed.

Lemma entryAspectLabel_chain (key : string) (value : json) (index : nat) :
  entryAspectLabel key value index =
    firstLabel
      [ Js.nonEmptyString value "label"; Js.nonEmptyString value "name";
        nonEmptyKey key ]
      (positionalLabel index).
Proof.
  unfold entryAspectLabel, firstLabel, nonEmptyKey.
  destruct (Js.nonEmptyString value "label"); [done|].
  destruct (Js.nonEmptyString value "name"); [done|].
  by destruct (String.eqb key "").
Qed.

(** C5 as stated fails: in a map-shaped [aspects] the aspect-name field is
    not consulted, so the structural key wins over it. *)
Lemma map_aspect_ignores_aspect_name :
  let aspect :=
    JObj [("aspectName", JStr "ownership");
          ("owner", JStr "urn:li:corpuser:jdoe")] in
  let raw := JObj [("aspects", JObj [("k1", aspect)])] in
  claimedLabel (Some "k1") aspect 0 = "ownership" ∧
  extractAspectUrnGroups raw = [("k1", ["urn:li:corpuser:jdoe"])] ∧
  JsMap.get (extractAspectUrnGroups raw) "ownership" = None.
Proof. repeat split. Qed.

(** C5, amended: the aspects scanned are the arrays and non-null objects of
    the [aspects] field.  An element of a list-shaped field is labelled by
    the first non-empty string among its label, name and aspect-name fields,
    else [aspect_N]; an entry of a map-shaped field by the first non-empty
    string among its label and name fields, else its key, else [aspect_N]
    (its aspect-name field is not consulted); N is the 1-based position.
    A label of the result maps to the identifiers of the last aspect so
    labelled that contributed any, and no aspect contributing zero
    identifiers appears. *)
Theorem aspect_groups_by_shape (fields : list (string * json))
    (aspects : json) :
  Js.lookupField fields "aspects" = Some aspects ->
  (∀ items label v, aspects = JArr items ->
     ((label, v) ∈ labelledAspects aspects ↔
      ∃ i : nat, items !! i = Some v ∧ isRecord v = true ∧
        label = firstLabel
                  [ Js.nonEmptyString v "label"; Js.nonEmptyString v "name";
                    Js.nonEmptyString v "aspectName" ]
                  (positionalLabel i))) ∧
  (∀ entries label v, aspects = JObj entries ->
     ((label, v) ∈ labelledAspects aspects ↔
      ∃ (i : nat) (key : string),
        entries !! i = Some (key, v) ∧ isRecord v = true ∧
        label = firstLabel
                  [ Js.nonEmptyString v "label"; Js.nonEmptyString v "name";
                    nonEmptyKey key ]
                  (positionalLabel i))) ∧
  (∀ label urns,
     JsMap.get (extractAspectUrnGroups (JObj fields)) label = Some urns ↔
     ∃ (i : nat) (v : json),
       labelledAspects aspects !! i = Some (label, v) ∧
       urns = extractUrnsFromJson v [] ∧ urns ≠ [] ∧
       ∀ (j : nat) (v' : json), (i < j)%nat ->
         labelledAspects aspects !! j = Some (label, v') ->
         extractUrnsFromJson v' [] = []) ∧
  (∀ label urns,
     JsMap.get (extractAspectUrnGroups (JObj fields)) label = Some urns ->
     urns ≠ []).
Proof.
  intros Haspects.
  pose proof (extractAspectUrnGroups_labelled fields aspects Haspects) as Heq.
  split; [|split; [|split]].
  - intros items label v ->. simpl. rewrite labelledFrom_elem. simpl.
    unfold labelArrayAspect. split.
    + intros (k & x & Hk & Hf). destruct (isRecord x) eqn:Hx; [|done].
      injection Hf as <- <-. exists k. by rewrite <- arrayAspectLabel_chain.
    + intros (i & Hi & Hrec & ->). exists i, v.
      by rewrite Hrec, arrayAspectLabel_chain.
  - intros entries label v ->. simpl. rewrite labelledFrom_elem. simpl.
    unfold labelEntryAspect. split.
    + intros (k & [key x] & Hk & Hf). simpl in Hf.
      destruct (isRecord x) eqn:Hx; [|done].
      injection Hf as <- <-. exists k, key.
      by rewrite <- entryAspectLabel_chain.
    + intros (i & key & Hi & Hrec & ->). exists i, (key, v). simpl.
      by rewrite Hrec, entryAspectLabel_chain.
  - intros label urns. rewrite Heq. apply groupsOf_get.
  - intros label urns. rewrite Heq, groupsOf_get.
    by intros (_ & _ & _ & _ & Hne & _).
Qed.

Lemma aspect_groups_by_shape_witness :
  JsMap.get
    (extractAspectUrnGroups
       (JObj [("aspects",
               JArr [JObj [("label", JStr "ownership");
                           ("owner", JStr "urn:li:corpuser:jdoe")];
                     JObj [("label", JStr "datasetKey");
                           ("platform", JStr "urn:li:dataPlatform:hive")]])]))
    "ownership" = Some ["urn:li:corpuser:jdoe"].
Proof.
  apply (aspect_groups_by_shape
           [("aspects",
             JArr [JObj [("label", JStr "ownership");
                         ("owner", JStr "urn:li:corpuser:jdoe")];
                   JObj [("label", JStr "datasetKey");
                         ("platform", JStr "urn:li:dataPlatform:hive")]])]
           _ eq_refl).
  exists 0%nat, (JObj [("label", JStr "ownership");
                       ("owner", JStr "urn:li:corpuser:jdoe")]).
  split; [reflexivity|]. split; [reflexivity|]. split; [discriminate|].
  intros [|[|j]] v' Hj Hv'; [lia| |]; simpl in Hv'; discriminate.
Defined.

(** ** Neighborhood builder: the sample scenario *)

Example scenario_neighborhood :
  AppState.neighborhood sampleState =
    Some (Neighborhood.mk sampleCenter None
            ["urn:li:dataJob:job1"]
            ["urn:li:dataset:downstream1"; "urn:li:corpuser:owner1"]
            {["urn:li:corpuser:owner1" := ["ownership"]]}
            [ RelationshipEdge.mk "urn:li:dataJob:job1" sampleCenter "Produces";
              RelationshipEdge.mk sampleCenter "urn:li:dataset:downstream1"
                "DownstreamOf";
              RelationshipEdge.mk sampleCenter "urn:li:corpuser:owner1"
                "aspect:ownership" ]).
Proof. vm_compute. reflexivity. Qed.

Example scenario_stack :
  AppState.navStack sampleState = [sampleCenter] ∧
  AppState.centerId sampleState = Some sampleCenter ∧
  AppState.inputError sampleState = "".
Proof. vm_compute. done. Qed.

(** ** Neighborhood builder: edge deduplication *)

Section EdgeFacts.

Lemma JsSet_has_spec (s : list string) (x : string) :
  JsSet.has s x = true ↔ x ∈ s.
Proof.
  unfold JsSet.has. induction s as [|y s IH]; simpl.
  - rewrite elem_of_nil. split; [discriminate|done].
  - rewrite orb_true_iff, IH, elem_of_cons, String.eqb_eq. done.
Qed.

Lemma JsSet_has_false (s : list string) (x : string) :
  JsSet.has s x = false ↔ x ∉ s.
Proof.
  rewrite <- JsSet_has_spec. by destruct (JsSet.has s x).
Qed.

Lemma JsMap_has_keys {V} (m : list (string * V)) (k : string) :
  JsMap.has m k = JsSet.has (JsMap.keys m) k.
Proof.
  unfold JsMap.has, JsSet.has, JsMap.keys.
  induction m as [|[k0 v0] m IH]; simpl; [done|].
  rewrite (String.eqb_sym k k0).
  destruct (String.eqb k0 k); simpl; [done|]. apply IH.
Qed.

Lemma JsMap_set_fresh {V} (m : list (string * V)) (k : string) (v : V) :
  JsMap.has m k = false -> JsMap.set m k v = m ++ [(k, v)].
Proof.
  unfold JsMap.has. induction m as [|[k0 v0] m IH]; simpl; [done|].
  destruct (String.eqb k0 k); [done|]. intros H. by rewrite IH.
Qed.

Section KeepFirst.

Context {A : Type} (key : A -> string).
Implicit Types (e : A) (l : list A) (seen : list string).

Lemma keepFirstBy_elem seen l e :
  e ∈ keepFirstBy key seen l -> e ∈ l ∧ key e ∉ seen.
Proof.
  revert seen. induction l as [|x l IH]; intros seen; simpl.
  - by intros ?%elem_of_nil.
  - destruct (JsSet.has seen (key x)) eqn:Hx.
    + intros [Hl Hs]%IH. split; [by apply list_elem_of_further|done].
    + intros [->|[Hl Hs]%IH]%elem_of_cons.
      * split; [apply list_elem_of_here|]. by apply JsSet_has_false.
      * split; [by apply list_elem_of_further|].
        rewrite not_elem_of_app in Hs. by destruct Hs.
Qed.

Lemma keepFirstBy_keys_NoDup seen l : NoDup (map key (keepFirstBy key seen l)).
Proof.
  revert seen. induction l as [|x l IH]; intros seen; simpl.
  - constructor.
  - destruct (JsSet.has seen (key x)); [apply IH|].
    simpl. constructor; [|apply IH].
    intros (e & He & Hin)%list_elem_of_fmap.
    apply keepFirstBy_elem in Hin as [_ Hin]. apply Hin.
    rewrite elem_of_app, list_elem_of_singleton. by right.
Qed.

(** A kept edge sits where its triple was first discovered. *)
Lemma keepFirstBy_first seen l e :
  e ∈ keepFirstBy key seen l ->
  ∃ l1 l2 rest, l = l1 ++ e :: l2 ∧ e ∉ l1 ∧
                keepFirstBy key seen l = keepFirstBy key seen l1 ++ e :: rest.
Proof.
  revert seen. induction l as [|x l IH]; intros seen; simpl.
  - by intros ?%elem_of_nil.
  - destruct (JsSet.has seen (key x)) eqn:Hx.
    + intros He. pose proof (keepFirstBy_elem _ _ _ He) as [_ Hk].
      destruct (IH _ He) as (l1 & l2 & rest & -> & Hl1 & Heq).
      exists (x :: l1), l2, rest. simpl. rewrite Hx.
      split; [done|]. split; [|done].
      rewrite not_elem_of_cons. split; [|done].
      intros ->. by apply JsSet_has_spec in Hx.
    + intros [->|He]%elem_of_cons.
      * exists [], l, (keepFirstBy key (seen ++ [key x]) l).
        split; [done|]. split; [apply not_elem_of_nil|done].
      * pose proof (keepFirstBy_elem _ _ _ He) as [_ Hk].
        destruct (IH _ He) as (l1 & l2 & rest & -> & Hl1 & Heq).
        exists (x :: l1), l2, rest. simpl. rewrite Hx, Heq.
        split; [done|]. split; [|done].
        rewrite not_elem_of_cons. split; [|done].
        intros ->. apply Hk. rewrite elem_of_app, list_elem_of_singleton.
        by right.
Qed.

(** Every discovered edge is represented by a kept edge of the same key. *)
Lemma keepFirstBy_covers seen l e :
  e ∈ l -> key e ∉ seen ->
  ∃ e', e' ∈ keepFirstBy key seen l ∧ key e' = key e.
Proof.
  revert seen. induction l as [|x l IH]; intros seen; simpl.
  - by intros ?%elem_of_nil.
  - intros [->|He]%elem_of_cons Hk.
    + apply JsSet_has_false in Hk. rewrite Hk.
      exists x. split; [apply list_elem_of_here|done].
    + destruct (JsSet.has seen (key x)) eqn:Hx; [by apply IH|].
      destruct (String.eqb_spec (key e) (key x)) as [Heq|Hne].
      * exists x. split; [apply list_elem_of_here|done].
      * destruct (IH (seen ++ [key x]) He) as (e' & He' & Hk').
        { rewrite not_elem_of_app, list_elem_of_singleton. done. }
        exists e'. split; [by apply list_elem_of_further|done].
Qed.

Lemma NoDup_of_keys l : NoDup (map key l) -> NoDup l.
Proof. apply (NoDup_fmap_1 key). Qed.

End KeepFirst.

(** The map built by the loop holds, in order, the first edge of every
    key. *)
Lemma dedupe_fold (l : list RelationshipEdge.t) (m : list (string * RelationshipEdge.t)) :
  JsMap.values
    (fold_left
       (fun dedupedEdgesMap edge =>
          let key := edgeKey edge in
          if JsMap.has dedupedEdgesMap key then dedupedEdgesMap
          else JsMap.set dedupedEdgesMap key edge) l m)
  = JsMap.values m ++ keepFirstBy edgeKey (JsMap.keys m) l.
Proof.
  revert m. induction l as [|e l IH]; intros m; simpl.
  - by rewrite app_nil_r.
  - rewrite IH, <- JsMap_has_keys.
    destruct (JsMap.has m (edgeKey e)) eqn:Hhas; [done|].
    rewrite JsMap_set_fresh by done.
    unfold JsMap.values, JsMap.keys. rewrite !map_app. simpl.
    by rewrite <- app_assoc.
Qed.

Lemma dedupeEdges_keepFirst (l : list RelationshipEdge.t) :
  JsMap.values (dedupeEdges l) = keepFirstBy edgeKey [] l.
Proof. unfold dedupeEdges. by rewrite dedupe_fold. Qed.

(** Away from the separator the key determines the triple. *)
Lemma separated_inj (c : ascii) (p p' q q' : string) :
  JsString.hasChar c p = false -> JsString.hasChar c p' = false ->
  p +:+ String c q = p' +:+ String c q' -> p = p' ∧ q = q'.
Proof.
  revert p'. induction p as [|a p IH]; intros [|a' p'] Hp Hp' Heq.
  - by injection Heq.
  - injection Heq as <- _. simpl in Hp'. by rewrite Ascii.eqb_refl in Hp'.
  - injection Heq as -> _. simpl in Hp. by rewrite Ascii.eqb_refl in Hp.
  - injection Heq as <- Heq. simpl in Hp, Hp'.
    apply orb_false_iff in Hp as [_ Hp]. apply orb_false_iff in Hp' as [_ Hp'].
    destruct (IH p' Hp Hp' Heq) as [-> ->]. done.
Qed.

Lemma edgeKey_inj (e1 e2 : RelationshipEdge.t) :
  JsString.hasChar bar (RelationshipEdge.sourceId e1) = false ->
  JsString.hasChar bar (RelationshipEdge.targetId e1) = false ->
  JsString.hasChar bar (RelationshipEdge.sourceId e2) = false ->
  JsString.hasChar bar (RelationshipEdge.targetId e2) = false ->
  edgeKey e1 = edgeKey e2 -> e1 = e2.
Proof.
  destruct e1 as [s1 t1 y1], e2 as [s2 t2 y2]. unfold edgeKey. simpl.
  intros Hs1 Ht1 Hs2 Ht2 Heq.
  apply (separated_inj bar) in Heq as [-> Heq]; [|done..].
  apply (separated_inj bar) in Heq as [-> ->]; done.
Qed.

End EdgeFacts.

(** The separator of [edgeKey] may occur inside identifiers and labels:
    distinct triples can share a key, and then only the first is kept. *)
Remark edgeKey_collision :
  let first := RelationshipEdge.mk "urn:li:a|urn:li:c|x" "urn:li:c" "y" in
  let second := RelationshipEdge.mk "urn:li:a" "urn:li:c" "x|urn:li:c|y" in
  first ≠ second ∧ edgeKey first = edgeKey second ∧
  JsMap.values (dedupeEdges [first; second]) = [first].
Proof. repeat split. discriminate. Qed.

(** ** Neighborhood builder: the navigation action *)

Section ActionFacts.

Variable encodeURIComponent : string -> string.
Variable fetch : string -> fetchOutcome.
Variable gmsBaseUrl : string.
Variable outgoingRejectsFirst : bool.

Local Abbreviation fetchEntity' := (fetchEntity encodeURIComponent fetch gmsBaseUrl).
Local Abbreviation fetchRelationships' :=
  (fetchRelationships encodeURIComponent fetch gmsBaseUrl).
Local Abbreviation loadNeighborhood' :=
  (loadNeighborhood encodeURIComponent fetch gmsBaseUrl outgoingRejectsFirst).
Local Abbreviation assemble' :=
  (assembleNeighborhood encodeURIComponent fetch gmsBaseUrl).

(** An action whose three required fetches succeed commits what
    [assembleNeighborhood] computes. *)
Lemma loadNeighborhood_success (state : AppState.t) (urn : string)
    (mode : option NavigationMode) (breadcrumbIndex : option Z)
    (centerEntity : DatahubObject.t) (incoming outgoing : list RelatedItem) :
  Trim.trim urn ≠ "" ->
  fetchEntity' (Trim.trim urn) = inr centerEntity ->
  fetchRelationships' (DatahubObject.id centerEntity) INCOMING = inr incoming ->
  fetchRelationships' (DatahubObject.id centerEntity) OUTGOING = inr outgoing ->
  loadNeighborhood' state urn mode breadcrumbIndex =
    let commit :=
      assemble' state centerEntity incoming outgoing mode breadcrumbIndex in
    AppState.mk (nextEntities commit) (Some (nextNeighborhood commit))
      (nextNavStack commit) (Some (nextCenterId commit))
      (nextCenterId commit) "" false.
Proof.
  intros Hurn Hc Hi Ho. unfold loadNeighborhood.
  destruct (String.eqb_spec (Trim.trim urn) ""); [done|].
  unfold buildNeighborhood. rewrite Hc. simpl.
  unfold fetchBothDirections. rewrite Hi, Ho. done.
Qed.

(** An action one of whose required fetches fails only reports. *)
Lemma loadNeighborhood_failure (state : AppState.t) (urn : string)
    (mode : option NavigationMode) (breadcrumbIndex : option Z)
    (error : jsError) :
  Trim.trim urn ≠ "" ->
  buildNeighborhood encodeURIComponent fetch gmsBaseUrl outgoingRejectsFirst
    state (Trim.trim urn) mode breadcrumbIndex = Throw error ->
  loadNeighborhood' state urn mode breadcrumbIndex =
    AppState.mk (AppState.entitiesByUrn state) (AppState.neighborhood state)
      (AppState.navStack state) (AppState.centerId state)
      (AppState.urnInput state) (errorMessage error) false.
Proof.
  intros Hurn Hb. unfold loadNeighborhood.
  destruct (String.eqb_spec (Trim.trim urn) ""); [done|]. by rewrite Hb.
Qed.

End ActionFacts.

(** Deduplication of the published edges.  For every successful navigation
    action, the published edge list has at most one edge per (source,
    target, label) triple, and an edge that is kept stands where its triple
    was first discovered, the discovery order being incoming edges, outgoing
    edges, in-payload reference edges, then the synthetic previous edge.
    Every discovered edge is moreover represented by a kept edge with the
    same key, and is itself kept when no source or target identifier
    contains the key separator. *)
Theorem published_edges_deduplicated
    (encodeURIComponent : string -> string) (fetch : string -> fetchOutcome)
    (gmsBaseUrl : string) (outgoingRejectsFirst : bool)
    (state : AppState.t) (urn : string) (mode : option NavigationMode)
    (breadcrumbIndex : option Z) (centerEntity : DatahubObject.t)
    (incoming outgoing : list RelatedItem) :
  Trim.trim urn ≠ "" ->
  fetchEntity encodeURIComponent fetch gmsBaseUrl (Trim.trim urn)
    = inr centerEntity ->
  fetchRelationships encodeURIComponent fetch gmsBaseUrl
    (DatahubObject.id centerEntity) INCOMING = inr incoming ->
  fetchRelationships encodeURIComponent fetch gmsBaseUrl
    (DatahubObject.id centerEntity) OUTGOING = inr outgoing ->
  ∃ published : Neighborhood.t,
    AppState.neighborhood
      (loadNeighborhood encodeURIComponent fetch gmsBaseUrl
         outgoingRejectsFirst state urn mode breadcrumbIndex)
      = Some published ∧
    let centerId := DatahubObject.id centerEntity in
    let jsonDependencyUrns :=
      filter (fun candidateUrn => candidateUrn ≠ centerId)
        (extractUrnsFromJson (DatahubObject.raw centerEntity) []) in
    let relationshipEdges :=
      incomingEdges centerId incoming ++ outgoingEdges centerId outgoing
        ++ jsonDependencyEdges centerId
             (Neighborhood.aspectLabelsByUrn published) jsonDependencyUrns in
    let discovered :=
      relationshipEdges
        ++ previousEdge centerId (Neighborhood.previousUrn published)
             relationshipEdges in
    NoDup (Neighborhood.edges published) ∧
    (∀ edge, edge ∈ Neighborhood.edges published ->
       ∃ before after rest,
         discovered = before ++ edge :: after ∧ edge ∉ before ∧
         Neighborhood.edges published
           = JsMap.values (dedupeEdges before) ++ edge :: rest) ∧
    (∀ edge, edge ∈ discovered ->
       ∃ kept, kept ∈ Neighborhood.edges published ∧
               edgeKey kept = edgeKey edge) ∧
    ((∀ edge, edge ∈ discovered ->
        JsString.hasChar bar (RelationshipEdge.sourceId edge) = false ∧
        JsString.hasChar bar (RelationshipEdge.targetId edge) = false) ->
     ∀ edge, edge ∈ discovered -> edge ∈ Neighborhood.edges published).
Proof.
  intros Hurn Hc Hi Ho.
  rewrite (loadNeighborhood_success _ _ _ _ _ _ _ _ _ _ _ Hurn Hc Hi Ho).
  eexists. split; [reflexivity|]. simpl.
  unfold discoveredEdges. rewrite dedupeEdges_keepFirst.
  split; [|split; [|split]].
  - apply (NoDup_of_keys edgeKey), keepFirstBy_keys_NoDup.
  - intros edge Hedge.
    destruct (keepFirstBy_first _ _ _ _ Hedge)
      as (l1 & l2 & rest & Hl & Hn & Hk).
    exists l1, l2, rest. by rewrite dedupeEdges_keepFirst.
  - intros edge Hedge. apply keepFirstBy_covers; [done|apply not_elem_of_nil].
  - intros Hfree edge Hedge.
    destruct (keepFirstBy_covers edgeKey [] _ edge Hedge)
      as (kept & Hkept & Hkey); [apply not_elem_of_nil|].
    pose proof (keepFirstBy_elem _ _ _ _ Hkept) as [Hdiscovered _].
    destruct (Hfree _ Hedge) as [Hs Ht].
    destruct (Hfree _ Hdiscovered) as [Hs' Ht'].
    by rewrite <- (edgeKey_inj kept edge Hs' Ht' Hs Ht Hkey).
Qed.

Lemma published_edges_deduplicated_witness :
  ∃ published : Neighborhood.t,
    AppState.neighborhood sampleState = Some published ∧
    NoDup (Neighborhood.edges published).
Proof.
  destruct (published_edges_deduplicated sampleEncode sampleFetch "/gms" false
              initialState ("  " +:+ sampleCenter) (Some connect) None
              (DatahubObject.mk sampleCenter "dataset"
                 "urn:li:dataPlatform:hive,fct_users,PROD" samplePayload)
              [{| urn := "urn:li:dataJob:job1"; type := "Produces" |}]
              [{| urn := "urn:li:dataset:downstream1";
                  type := "DownstreamOf" |}])
    as (published & Hpublished & Hnodup & _).
  - vm_compute. discriminate.
  - vm_compute. reflexivity.
  - vm_compute. reflexivity.
  - vm_compute. reflexivity.
  - exists published. split; [exact Hpublished|exact Hnodup].
Defined.

(** C1 is what the deduplication is written to do, and the code misses it
    where the key is ambiguous.  In the catalog [collisionFetch] the center
    has three outgoing relationships: to the tag [a] with type [b|Owns], and
    twice to the tag [a|b] with type [Owns].  The action succeeds, the
    triple to [a|b] is discovered twice, and neither copy is published: its
    key is that of the different triple discovered before it. *)
Theorem repeated_triple_lost_to_key_collision :
  let state' :=
    loadNeighborhood sampleEncode collisionFetch "/gms" false initialState
      collisionCenter (Some connect) None in
  let kept := RelationshipEdge.mk collisionCenter "urn:li:tag:a" "b|Owns" in
  let lost := RelationshipEdge.mk collisionCenter "urn:li:tag:a|b" "Owns" in
  fetchRelationships sampleEncode collisionFetch "/gms" collisionCenter OUTGOING
    = inr [ {| urn := "urn:li:tag:a"; type := "b|Owns" |};
            {| urn := "urn:li:tag:a|b"; type := "Owns" |};
            {| urn := "urn:li:tag:a|b"; type := "Owns" |} ] ∧
  AppState.inputError state' = "" ∧
  AppState.centerId state' = Some collisionCenter ∧
  Neighborhood.edges <$> AppState.neighborhood state' = Some [kept] ∧
  lost ≠ kept ∧ edgeKey lost = edgeKey kept.
Proof. vm_compute. repeat split; discriminate. Qed.

(** ** Neighborhood builder: failures *)

Section FailureFacts.

Variable encodeURIComponent : string -> string.
Variable fetch : string -> fetchOutcome.
Variable gmsBaseUrl : string.

Lemma exhausted_attempts (message : string) (attempts : list string)
    (lastError : option jsError) :
  DatahubApiError.attemptedEndpoints (exhausted message attempts lastError)
    = Some attempts ∧
  DatahubApiError.message (exhausted message attempts lastError) = message.
Proof. unfold exhausted. by destruct lastError as [[e|m]|]. Qed.

Lemma fetchEntity_error (urn : string) (e : DatahubApiError.t) :
  fetchEntity encodeURIComponent fetch gmsBaseUrl urn = inl e ->
  DatahubApiError.attemptedEndpoints e
    = Some (entityAttempts encodeURIComponent urn) ∧
  DatahubApiError.message e = "Failed to fetch entity from GMS.".
Proof.
  unfold fetchEntity. destruct (tryEndpoints _ _ _); [done|].
  intros [= <-]. apply exhausted_attempts.
Qed.

Lemma fetchRelationships_error (urn : string) (direction : Direction)
    (e : DatahubApiError.t) :
  fetchRelationships encodeURIComponent fetch gmsBaseUrl urn direction
    = inl e ->
  DatahubApiError.attemptedEndpoints e
    = Some (relationshipAttempts encodeURIComponent urn direction) ∧
  DatahubApiError.message e = "Failed to fetch relationships from GMS.".
Proof.
  unfold fetchRelationships. destruct (tryEndpoints _ _ _); [done|].
  intros [= <-]. apply exhausted_attempts.
Qed.

(** The text reported for an error that carries its attempts. *)
Lemma errorMessage_attempts (e : DatahubApiError.t) (attempts : list string) :
  DatahubApiError.attemptedEndpoints e = Some attempts ->
  ∃ detail : string,
    errorMessage (ApiError e) =
      DatahubApiError.message e +:+ " Attempted: "
        +:+ JsString.join ", " attempts +:+ "." +:+ detail.
Proof. intros H. unfold errorMessage. rewrite H. by eexists. Qed.

End FailureFacts.

(** Names the direction whose exhausted fetch is the one reported. *)
Ltac blame_direction c d e H :=
  match type of H with
  | fetchRelationships ?encode _ _ _ _ = _ =>
      exists e, (relationshipAttempts encode (DatahubObject.id c) d)
  end;
  split; [done|];
  split; [by apply (fetchRelationships_error _ _ _ _ _ _ H)|];
  right; by exists c, d.

(** C6: if resolving the target entity or either direction of relationships
    exhausts its endpoint variants, the action reports one error that
    carries the list of attempted endpoints, and the entity cache, the
    navigation stack, the published neighborhood and the displayed center
    are what they were. *)
Theorem failed_action_changes_nothing
    (encodeURIComponent : string -> string) (fetch : string -> fetchOutcome)
    (gmsBaseUrl : string) (outgoingRejectsFirst : bool)
    (state : AppState.t) (urn : string) (mode : option NavigationMode)
    (breadcrumbIndex : option Z) :
  Trim.trim urn ≠ "" ->
  ((∃ e, fetchEntity encodeURIComponent fetch gmsBaseUrl (Trim.trim urn)
           = inl e) ∨
   (∃ centerEntity direction e,
      fetchEntity encodeURIComponent fetch gmsBaseUrl (Trim.trim urn)
        = inr centerEntity ∧
      fetchRelationships encodeURIComponent fetch gmsBaseUrl
        (DatahubObject.id centerEntity) direction = inl e)) ->
  let state' :=
    loadNeighborhood encodeURIComponent fetch gmsBaseUrl outgoingRejectsFirst
      state urn mode breadcrumbIndex in
  AppState.entitiesByUrn state' = AppState.entitiesByUrn state ∧
  AppState.navStack state' = AppState.navStack state ∧
  AppState.neighborhood state' = AppState.neighborhood state ∧
  AppState.centerId state' = AppState.centerId state ∧
  ∃ (e : DatahubApiError.t) (attempts : list string) (detail : string),
    DatahubApiError.attemptedEndpoints e = Some attempts ∧
    ((fetchEntity encodeURIComponent fetch gmsBaseUrl (Trim.trim urn) = inl e ∧
      attempts = entityAttempts encodeURIComponent (Trim.trim urn)) ∨
     (∃ centerEntity direction,
        fetchEntity encodeURIComponent fetch gmsBaseUrl (Trim.trim urn)
          = inr centerEntity ∧
        fetchRelationships encodeURIComponent fetch gmsBaseUrl
          (DatahubObject.id centerEntity) direction = inl e ∧
        attempts = relationshipAttempts encodeURIComponent
                     (DatahubObject.id centerEntity) direction)) ∧
    AppState.inputError state' =
      DatahubApiError.message e +:+ " Attempted: "
        +:+ JsString.join ", " attempts +:+ "." +:+ detail.
Proof.
  intros Hurn Hfail state'.
  assert (∃ (e : DatahubApiError.t) (attempts : list string),
            buildNeighborhood encodeURIComponent fetch gmsBaseUrl
              outgoingRejectsFirst state (Trim.trim urn) mode breadcrumbIndex
              = Throw (ApiError e) ∧
            DatahubApiError.attemptedEndpoints e = Some attempts ∧
            ((fetchEntity encodeURIComponent fetch gmsBaseUrl (Trim.trim urn)
                = inl e ∧
              attempts = entityAttempts encodeURIComponent (Trim.trim urn)) ∨
             (∃ centerEntity direction,
                fetchEntity encodeURIComponent fetch gmsBaseUrl (Trim.trim urn)
                  = inr centerEntity ∧
                fetchRelationships encodeURIComponent fetch gmsBaseUrl
                  (DatahubObject.id centerEntity) direction = inl e ∧
                attempts = relationshipAttempts encodeURIComponent
                             (DatahubObject.id centerEntity) direction)))
    as (e & attempts & Hthrow & Hattempts & Hwhich).
  { unfold buildNeighborhood.
    destruct Hfail as [[e He]|(c & d & e & Hc & Hd)].
    - exists e, (entityAttempts encodeURIComponent (Trim.trim urn)).
      rewrite He. split; [done|].
      split; [by apply (fetchEntity_error _ _ _ _ _ He)|]. by left.
    - rewrite Hc. simpl. unfold fetchBothDirections.
      destruct (fetchRelationships encodeURIComponent fetch gmsBaseUrl
                  (DatahubObject.id c) INCOMING) as [ei|i] eqn:Hi;
        destruct (fetchRelationships encodeURIComponent fetch gmsBaseUrl
                    (DatahubObject.id c) OUTGOING) as [eo|o] eqn:Ho.
      + destruct outgoingRejectsFirst;
          [blame_direction c OUTGOING eo Ho|blame_direction c INCOMING ei Hi].
      + blame_direction c INCOMING ei Hi.
      + blame_direction c OUTGOING eo Ho.
      + destruct d; congruence. }
  unfold state'.
  rewrite (loadNeighborhood_failure _ _ _ _ _ _ _ _ _ Hurn Hthrow). simpl.
  repeat (split; [done|]).
  destruct (errorMessage_attempts e attempts Hattempts) as [detail Hmsg].
  exists e, attempts, detail. by rewrite <- Hmsg.
Qed.

Lemma failed_action_changes_nothing_witness :
  AppState.entitiesByUrn
    (loadNeighborhood sampleEncode deadFetch "/gms" false sampleState
       "urn:li:dataJob:job1" (Some node) None)
  = AppState.entitiesByUrn sampleState.
Proof.
  apply (failed_action_changes_nothing sampleEncode deadFetch "/gms" false
           sampleState "urn:li:dataJob:job1" (Some node) None).
  - vm_compute. discriminate.
  - left. eexists. vm_compute. reflexivity.
Defined.

Example failed_action_message :
  AppState.inputError
    (loadNeighborhood sampleEncode deadFetch "/gms" false sampleState
       "urn:li:dataJob:job1" (Some node) None)
  = "Failed to fetch entity from GMS. Attempted: "
    +:+ "/openapi/entities/v1/latest?urns=urn:li:dataJob:job1&withSystemMetadata=false, "
    +:+ "/openapi/entities/v1/latest?urns=urn:li:dataJob:job1, "
    +:+ "/entitiesV2/urn:li:dataJob:job1. Details: upstream down".
Proof. vm_compute. reflexivity. Qed.

(** ** Neighborhood builder: unreachable neighbors *)

(** The cache entry of an identifier after the neighbor entities are merged
    is the last of them that carries the identifier. *)
Lemma merged_entities_last (before after : list DatahubObject.t)
    (e : DatahubObject.t) (cache : gmap string DatahubObject.t) :
  (∀ x, x ∈ after -> DatahubObject.id x ≠ DatahubObject.id e) ->
  fold_left (fun acc entity => <[DatahubObject.id entity := entity]> acc)
    (before ++ e :: after) cache !! DatahubObject.id e = Some e.
Proof.
  intros Hafter. rewrite fold_left_app. cbn [fold_left].
  generalize (fold_left
                (fun acc entity => <[DatahubObject.id entity := entity]> acc)
                before cache) as m.
  intros m.
  assert (<[DatahubObject.id e := e]> m !! DatahubObject.id e = Some e)
    as Hstart by apply lookup_insert_eq.
  revert Hstart. generalize (<[DatahubObject.id e := e]> m) as m'.
  induction after as [|x after IH]; intros m' Hm'; [done|].
  cbn [fold_left]. apply IH.
  - intros y Hy. by apply Hafter, list_elem_of_further.
  - rewrite lookup_insert_ne; [done|].
    apply Hafter, list_elem_of_here.
Qed.

(** C10 as stated fails: in the catalog [shadowFetch] the lookup of the
    dependency [a] fails while the center and both relationship fetches
    succeed, and the action succeeds; yet no placeholder for [a] is in the
    cache, because the lookup of the dependency [b], which comes after [a],
    is answered with an entity that carries the identifier [a] and is filed
    under it: the cache holds the center and that entity, nothing else. *)
Lemma later_neighbor_replaces_placeholder :
  let a := "urn:li:dataset:a" in
  let answered :=
    DatahubObject.mk a "dataset" "a"
      (JObj [("urn", JStr a); ("origin", JStr "b")]) in
  (∃ e, fetchEntity sampleEncode shadowFetch "/gms" a = inl e) ∧
  AppState.inputError shadowState = "" ∧
  AppState.centerId shadowState = Some "urn:li:dataset:c" ∧
  Neighborhood.dependencyUrns <$> AppState.neighborhood shadowState
    = Some [a; "urn:li:dataset:b"] ∧
  AppState.entitiesByUrn shadowState
    = <[a := answered]>
        {["urn:li:dataset:c" :=
            DatahubObject.mk "urn:li:dataset:c" "dataset" "c"
              (JObj [("urn", JStr "urn:li:dataset:c")])]} ∧
  AppState.entitiesByUrn shadowState !! a = Some answered ∧
  answered ≠ placeholderEntity a.
Proof.
  intros a answered.
  split; [eexists; vm_compute; reflexivity|].
  split; [vm_compute; reflexivity|]. split; [vm_compute; reflexivity|].
  split; [vm_compute; reflexivity|]. split; [vm_compute; reflexivity|].
  split; [vm_compute; reflexivity|]. discriminate.
Qed.

(** C10, amended: when the target entity and both relationship fetches
    succeed, the action succeeds whatever happens to the neighbor lookups; a
    neighbor whose lookup fails is resolved to a placeholder whose type and
    name are parsed from its identifier and whose payload is marked
    unavailable.  The cache holds that placeholder under the neighbor's
    identifier unless a neighbor later in the neighbor list resolves to an
    entity that carries the same identifier; the cache then holds the
    entity of the last such neighbor. *)
Theorem failed_neighbor_becomes_placeholder
    (encodeURIComponent : string -> string) (fetch : string -> fetchOutcome)
    (gmsBaseUrl : string) (outgoingRejectsFirst : bool)
    (state : AppState.t) (urn : string) (mode : option NavigationMode)
    (breadcrumbIndex : option Z) (centerEntity : DatahubObject.t)
    (incoming outgoing : list RelatedItem) :
  Trim.trim urn ≠ "" ->
  fetchEntity encodeURIComponent fetch gmsBaseUrl (Trim.trim urn)
    = inr centerEntity ->
  fetchRelationships encodeURIComponent fetch gmsBaseUrl
    (DatahubObject.id centerEntity) INCOMING = inr incoming ->
  fetchRelationships encodeURIComponent fetch gmsBaseUrl
    (DatahubObject.id centerEntity) OUTGOING = inr outgoing ->
  let state' :=
    loadNeighborhood encodeURIComponent fetch gmsBaseUrl outgoingRejectsFirst
      state urn mode breadcrumbIndex in
  let resolved := resolveNeighbor encodeURIComponent fetch gmsBaseUrl in
  AppState.inputError state' = "" ∧
  AppState.centerId state' = Some (DatahubObject.id centerEntity) ∧
  ∃ published : Neighborhood.t,
    AppState.neighborhood state' = Some published ∧
    let neighborUrns :=
      neighborUrnsOf (DatahubObject.id centerEntity)
        (Neighborhood.previousUrn published)
        (Neighborhood.parentUrns published)
        (Neighborhood.dependencyUrns published) in
    ∀ (before : list string) (neighborUrn : string) (after : list string),
      neighborUrns = before ++ neighborUrn :: after ->
      (∃ e, fetchEntity encodeURIComponent fetch gmsBaseUrl neighborUrn
              = inl e) ->
      resolved neighborUrn =
        DatahubObject.mk neighborUrn (parseUrnType neighborUrn)
          (parseUrnName neighborUrn)
          (JObj [("urn", JStr neighborUrn); ("unavailable", JBool true)]) ∧
      ((∀ later, later ∈ after ->
          DatahubObject.id (resolved later) ≠ neighborUrn) ->
       AppState.entitiesByUrn state' !! neighborUrn
         = Some (resolved neighborUrn)) ∧
      (∀ between other rest,
         after = between ++ other :: rest ->
         DatahubObject.id (resolved other) = neighborUrn ->
         (∀ later, later ∈ rest ->
            DatahubObject.id (resolved later) ≠ neighborUrn) ->
         AppState.entitiesByUrn state' !! neighborUrn
           = Some (resolved other)).
Proof.
  intros Hurn Hc Hi Ho state' resolved. unfold state'.
  rewrite (loadNeighborhood_success _ _ _ _ _ _ _ _ _ _ _ Hurn Hc Hi Ho).
  simpl. split; [done|]. split; [done|].
  eexists. split; [reflexivity|]. simpl.
  intros before neighborUrn after Hsplit [e He].
  assert (resolved neighborUrn = placeholderEntity neighborUrn) as Hplace.
  { unfold resolved, resolveNeighbor. by rewrite He. }
  split; [done|]. rewrite Hsplit. fold resolved.
  assert (DatahubObject.id (resolved neighborUrn) = neighborUrn) as Hself
    by (by rewrite Hplace).
  split.
  - intros Hlater. rewrite map_app, map_cons.
    match goal with
    | |- fold_left _ _ ?m !! _ = _ =>
        pose proof (merged_entities_last (map resolved before)
                      (map resolved after) (resolved neighborUrn) m) as Hlast
    end.
    rewrite Hself in Hlast. apply Hlast.
    intros x (later & -> & Hin)%list_elem_of_fmap. by apply Hlater.
  - intros between other rest -> Hid Hlater.
    replace (before ++ neighborUrn :: between ++ other :: rest)
      with ((before ++ neighborUrn :: between) ++ other :: rest)
      by (by rewrite <- app_assoc).
    rewrite map_app, map_cons.
    match goal with
    | |- fold_left _ _ ?m !! _ = _ =>
        pose proof (merged_entities_last
                      (map resolved (before ++ neighborUrn :: between))
                      (map resolved rest) (resolved other) m) as Hlast
    end.
    rewrite Hid in Hlast. apply Hlast.
    intros x (later & -> & Hin)%list_elem_of_fmap. by apply Hlater.
Qed.

Lemma failed_neighbor_becomes_placeholder_witness :
  AppState.entitiesByUrn sampleState !! "urn:li:corpuser:owner1" =
    Some (DatahubObject.mk "urn:li:corpuser:owner1" "corpuser" "owner1"
            (JObj [("urn", JStr "urn:li:corpuser:owner1");
                   ("unavailable", JBool true)])) ∧
  AppState.entitiesByUrn shadowState !! "urn:li:dataset:a" =
    Some (resolveNeighbor sampleEncode shadowFetch "/gms" "urn:li:dataset:b").
Proof.
  split.
  - destruct (failed_neighbor_becomes_placeholder sampleEncode sampleFetch
                "/gms" false initialState ("  " +:+ sampleCenter)
                (Some connect) None
                (DatahubObject.mk sampleCenter "dataset"
                   "urn:li:dataPlatform:hive,fct_users,PROD" samplePayload)
                [{| urn := "urn:li:dataJob:job1"; type := "Produces" |}]
                [{| urn := "urn:li:dataset:downstream1";
                    type := "DownstreamOf" |}])
      as (_ & _ & published & Hpublished & Hneighbors).
    + vm_compute. discriminate.
    + vm_compute. reflexivity.
    + vm_compute. reflexivity.
    + vm_compute. reflexivity.
    + vm_compute in Hpublished. injection Hpublished as <-.
      destruct (Hneighbors
                  ["urn:li:dataJob:job1"; "urn:li:dataset:downstream1"]
                  "urn:li:corpuser:owner1" [])
        as (Hplace & Hkept & _).
      * vm_compute. reflexivity.
      * eexists. vm_compute. reflexivity.
      * rewrite Hplace in Hkept. apply Hkept.
        intros later Hlater. by apply elem_of_nil in Hlater.
  - destruct (failed_neighbor_becomes_placeholder sampleEncode shadowFetch
                "/gms" false initialState "urn:li:dataset:c"
                (Some connect) None
                (DatahubObject.mk "urn:li:dataset:c" "dataset" "c"
                   (JObj [("urn", JStr "urn:li:dataset:c")]))
                []
                [{| urn := "urn:li:dataset:a"; type := "DownstreamOf" |};
                 {| urn := "urn:li:dataset:b"; type := "DownstreamOf" |}])
      as (_ & _ & published & Hpublished & Hneighbors).
    + vm_compute. discriminate.
    + vm_compute. reflexivity.
    + vm_compute. reflexivity.
    + vm_compute. reflexivity.
    + vm_compute in Hpublished. injection Hpublished as <-.
      destruct (Hneighbors [] "urn:li:dataset:a" ["urn:li:dataset:b"])
        as (_ & _ & Hreplaced).
      * vm_compute. reflexivity.
      * eexists. vm_compute. reflexivity.
      * apply (Hreplaced [] "urn:li:dataset:b" []).
        -- reflexivity.
        -- vm_compute. reflexivity.
        -- intros later Hlater. by apply elem_of_nil in Hlater.
Defined.

(** ** Radial layout *)

Section OrderingFacts.

Lemma ofList_from (acc l : list string) :
  fold_left JsSet.add l acc = acc ++ keepFirstBy (fun x => x) acc l.
Proof.
  revert acc. induction l as [|x l IH]; intros acc; simpl.
  - by rewrite app_nil_r.
  - rewrite IH. unfold JsSet.add.
    destruct (JsSet.has acc x); [done|]. by rewrite <- app_assoc.
Qed.

(** [new Set(l)] keeps the first occurrence of every element, in order. *)
Lemma ofList_firstOccurrences (l : list string) :
  JsSet.ofList l = firstOccurrences l.
Proof. unfold JsSet.ofList. by rewrite ofList_from. Qed.

Lemma firstOccurrences_NoDup (l : list string) : NoDup (firstOccurrences l).
Proof.
  pose proof (keepFirstBy_keys_NoDup (fun x : string => x) [] l) as H.
  by rewrite list_fmap_id in H.
Qed.

Lemma firstOccurrences_elem (l : list string) (x : string) :
  x ∈ firstOccurrences l ↔ x ∈ l.
Proof.
  split.
  - by intros [H _]%keepFirstBy_elem.
  - intros H.
    destruct (keepFirstBy_covers (fun x : string => x) [] l x H)
      as (y & Hy & <-); [apply not_elem_of_nil|done].
Qed.

Variable localeCompare : string -> string -> Z.

Lemma insertSorted_perm (x : string) (l : list string) :
  insertSorted localeCompare x l ≡ₚ x :: l.
Proof.
  induction l as [|y l IH]; simpl; [done|].
  destruct (localeCompare x y <=? 0); [done|].
  rewrite IH. apply Permutation_swap.
Qed.

Lemma sortByLocale_perm (l : list string) : sortByLocale localeCompare l ≡ₚ l.
Proof.
  unfold sortByLocale. induction l as [|x l IH]; simpl; [done|].
  by rewrite insertSorted_perm, IH.
Qed.

Lemma sortByLocale_elem (l : list string) (x : string) :
  x ∈ sortByLocale localeCompare l ↔ x ∈ l.
Proof. by rewrite sortByLocale_perm. Qed.

Lemma sortByLocale_NoDup (l : list string) :
  NoDup l -> NoDup (sortByLocale localeCompare l).
Proof. by rewrite sortByLocale_perm. Qed.

(** The comparator never puts two strings each strictly after the other. *)
Hypothesis localeCompare_total :
  ∀ a b, 0 < localeCompare a b -> localeCompare b a <= 0.

Lemma insertSorted_sorted (x : string) (l : list string) :
  Sorted (fun a b => localeCompare a b <= 0) l ->
  Sorted (fun a b => localeCompare a b <= 0) (insertSorted localeCompare x l).
Proof.
  induction l as [|y l IH]; simpl; intros Hl.
  - by repeat constructor.
  - destruct (Z.leb_spec (localeCompare x y) 0) as [Hxy|Hxy].
    + constructor; [done|]. by constructor.
    + apply Sorted_inv in Hl as [Hl Hhd]. constructor; [by apply IH|].
      destruct l as [|z l]; simpl.
      * constructor. by apply localeCompare_total.
      * destruct (Z.leb_spec (localeCompare x z) 0).
        -- constructor. by apply localeCompare_total.
        -- constructor. by apply HdRel_inv in Hhd.
Qed.

Lemma sortByLocale_sorted (l : list string) :
  Sorted (fun a b => localeCompare a b <= 0) (sortByLocale localeCompare l).
Proof.
  unfold sortByLocale. induction l as [|x l IH]; simpl; [constructor|].
  by apply insertSorted_sorted.
Qed.

End OrderingFacts.

Section GroupingFacts.

Lemma JsMap_has_spec {V} (m : list (string * V)) (k : string) :
  JsMap.has m k = true ↔ k ∈ JsMap.keys m.
Proof. by rewrite JsMap_has_keys, JsSet_has_spec. Qed.

Lemma JsMap_keys_set {V} (m : list (string * V)) (k : string) (v : V) :
  JsMap.keys (JsMap.set m k v) =
    if JsMap.has m k then JsMap.keys m else JsMap.keys m ++ [k].
Proof.
  unfold JsMap.has, JsMap.keys. induction m as [|[k0 v0] m IH]; simpl; [done|].
  destruct (String.eqb k0 k); simpl; [done|]. rewrite IH.
  by destruct (JsMap.get m k).
Qed.

Variable lab : string -> string.

Lemma filter_none (k : string) (l : list string) :
  k ∉ map lab l -> filter (fun u => lab u = k) l = [].
Proof.
  induction l as [|x l IH]; simpl; [done|].
  rewrite not_elem_of_cons. intros [Hx Hl].
  rewrite filter_cons_False by done. by apply IH.
Qed.

(** A label maps to the identifiers filed under it, in their order. *)
Lemma filedUnder_get (l : list string) (k : string) :
  JsMap.get (filedUnder lab l) k =
    if decide (k ∈ map lab l) then Some (filter (fun u => lab u = k) l)
    else None.
Proof.
  unfold filedUnder. induction l as [|u l IH] using rev_ind.
  - simpl. destruct (decide (k ∈ [])) as [H%elem_of_nil|]; done.
  - rewrite fold_left_app. simpl. rewrite JsMap_get_set, map_app, filter_app.
    simpl. destruct (String.eqb_spec (lab u) k) as [Hk|Hk].
    + destruct (decide (k ∈ map lab l ++ [lab u])) as [_|Hout].
      2:{ exfalso. apply Hout. rewrite elem_of_app, list_elem_of_singleton.
          by right. }
      rewrite filter_cons_True, filter_nil by done.
      rewrite Hk, IH.
      destruct (decide (k ∈ map lab l)) as [Hin|Hin]; simpl; [done|].
      by rewrite filter_none.
    + rewrite filter_cons_False, filter_nil, app_nil_r by done.
      rewrite IH.
      destruct (decide (k ∈ map lab l)) as [Hin|Hin];
        destruct (decide (k ∈ map lab l ++ [lab u])) as [Hin'|Hin'];
        try done.
      * exfalso. apply Hin'. rewrite elem_of_app. by left.
      * exfalso. apply elem_of_app in Hin' as [?|?%list_elem_of_singleton];
          [done|]. by apply Hk.
Qed.

Lemma filedUnder_keys_elem (l : list string) (k : string) :
  k ∈ JsMap.keys (filedUnder lab l) ↔ k ∈ map lab l.
Proof.
  rewrite <- JsMap_has_spec. unfold JsMap.has. rewrite filedUnder_get.
  by destruct (decide (k ∈ map lab l)).
Qed.

Lemma filedUnder_keys_NoDup (l : list string) :
  NoDup (JsMap.keys (filedUnder lab l)).
Proof.
  unfold filedUnder. induction l as [|u l IH] using rev_ind.
  - constructor.
  - rewrite fold_left_app. simpl. rewrite JsMap_keys_set.
    match goal with |- context [JsMap.has ?m ?k] =>
      destruct (JsMap.has m k) eqn:Hhas end; [done|].
    apply NoDup_app. split; [done|]. split; [|apply NoDup_singleton].
    intros x Hx ->%list_elem_of_singleton.
    apply JsMap_has_spec in Hx. congruence.
Qed.

End GroupingFacts.

Section LayoutFacts.

Variable localeCompare : string -> string -> Z.
Variable entitiesByUrn : gmap string DatahubObject.t.
Variable neighborhood : Neighborhood.t.

Lemma eqNullable_false (u : string) (o : option string) :
  negb (eqNullable u o) = true ↔ o ≠ Some u.
Proof.
  destruct o as [p|]; simpl; [|done].
  destruct (String.eqb_spec u p) as [->|Hne]; simpl; split; try done.
  intros _ [= ->]. done.
Qed.

(** The two filters applied to parents and dependencies. *)
Lemma plottable_filter (previousUrn : option string) (urns : list string) :
  plottable entitiesByUrn previousUrn urns =
    filter (fun u => is_Some (entitiesByUrn !! u) ∧ previousUrn ≠ Some u) urns.
Proof.
  unfold plottable. induction urns as [|u urns IH]; [done|].
  rewrite !filter_cons.
  destruct (decide (is_Some (entitiesByUrn !! u))) as [Hc|Hc].
  - rewrite filter_cons.
    destruct (decide (negb (eqNullable u previousUrn) = true)) as [Hp|Hp].
    + rewrite decide_True by (split; [done|by apply eqNullable_false]).
      by rewrite IH.
    + rewrite decide_False; [done|].
      intros [_ Hq]. by apply Hp, eqNullable_false.
  - rewrite decide_False by (by intros [? _]). done.
Qed.

Lemma dependencyGroups_filed :
  dependencyGroups entitiesByUrn neighborhood =
    filedUnder (dependencyLabel neighborhood)
      (plottable entitiesByUrn (Neighborhood.previousUrn neighborhood)
         (Neighborhood.dependencyUrns neighborhood)).
Proof. done. Qed.

(** The dependency groups: one per label in use, ordered by label, holding
    the sorted identifiers filed under that label. *)
Lemma groupedDependencies_spec :
  let shown :=
    plottable entitiesByUrn (Neighborhood.previousUrn neighborhood)
      (Neighborhood.dependencyUrns neighborhood) in
  groupedDependencies localeCompare entitiesByUrn neighborhood =
    map (fun label =>
           (label,
            sortByLocale localeCompare
              (filter (fun u => dependencyLabel neighborhood u = label) shown)))
        (sortByLocale localeCompare
           (JsMap.keys (filedUnder (dependencyLabel neighborhood) shown))).
Proof.
  intros shown. unfold groupedDependencies. rewrite dependencyGroups_filed.
  fold shown. apply map_ext_in. intros label Hlabel.
  apply list_elem_of_In, sortByLocale_elem, filedUnder_keys_elem in Hlabel.
  rewrite filedUnder_get. by rewrite decide_True.
Qed.

Lemma groupedDependencies_members (u : string) :
  u ∈ flat_map snd (groupedDependencies localeCompare entitiesByUrn neighborhood)
  ↔ u ∈ plottable entitiesByUrn (Neighborhood.previousUrn neighborhood)
          (Neighborhood.dependencyUrns neighborhood).
Proof.
  rewrite groupedDependencies_spec. simpl.
  rewrite list_elem_of_In, in_flat_map. split.
  - intros ([label members] & Hin & Hu). simpl in Hu.
    apply in_map_iff in Hin as (label' & [= <- <-] & _).
    apply list_elem_of_In, sortByLocale_elem, list_elem_of_filter in Hu.
    by destruct Hu.
  - intros Hu. eexists (dependencyLabel neighborhood u, _). split.
    + apply in_map_iff. exists (dependencyLabel neighborhood u).
      split; [reflexivity|].
      apply list_elem_of_In, sortByLocale_elem, filedUnder_keys_elem.
      by apply list_elem_of_fmap_2.
    + simpl. apply list_elem_of_In, sortByLocale_elem, list_elem_of_filter.
      done.
Qed.

(** Who is plotted around the center. *)
Lemma layoutNeighborUrns_elem (centerId u : string) :
  u ∈ layoutNeighborUrns localeCompare entitiesByUrn neighborhood centerId ↔
  u ∈ previousAsList (Neighborhood.previousUrn neighborhood) centerId ∨
  u ∈ plottable entitiesByUrn (Neighborhood.previousUrn neighborhood)
        (Neighborhood.parentUrns neighborhood) ∨
  u ∈ plottable entitiesByUrn (Neighborhood.previousUrn neighborhood)
        (Neighborhood.dependencyUrns neighborhood).
Proof.
  unfold layoutNeighborUrns, orderedNeighborUrns, sortedParents.
  rewrite ofList_firstOccurrences, firstOccurrences_elem, !elem_of_app.
  by rewrite sortByLocale_elem, groupedDependencies_members.
Qed.

End LayoutFacts.

Lemma previousAsList_spec (previousUrn : option string) (centerId : string) :
  previousAsList previousUrn centerId =
    match previousUrn with
    | Some p => if decide (p ≠ "" ∧ p ≠ centerId) then [p] else []
    | None => []
    end.
Proof.
  destruct previousUrn as [p|]; [|done].
  unfold previousAsList, previousIsDistinct.
  destruct (decide (p ≠ "" ∧ p ≠ centerId)) as [[Hp Hc]|Hn].
  - destruct (String.eqb_spec p ""); [done|].
    by destruct (String.eqb_spec p centerId).
  - destruct (String.eqb_spec p ""); [done|].
    destruct (String.eqb_spec p centerId); [done|]. by destruct Hn.
Qed.

(** The nodes of a non-empty graph: the center, then one node per plotted
    neighbor, in order. *)
Lemma graph_nodes (localeCompare : string -> string -> Z)
    (entitiesByUrn : gmap string DatahubObject.t)
    (neighborhood : Neighborhood.t) (centerId : string)
    (centerObject : DatahubObject.t) :
  centerId ≠ "" -> entitiesByUrn !! centerId = Some centerObject ->
  let neighborUrns :=
    layoutNeighborUrns localeCompare entitiesByUrn neighborhood centerId in
  nodes (graph localeCompare entitiesByUrn (Some neighborhood) (Some centerId))
  = PositionedNode.mk (Some centerObject) centerX centerY center
    :: imap (neighborNode entitiesByUrn neighborhood (length neighborUrns))
         neighborUrns.
Proof.
  intros Hc Hcache. unfold graph.
  destruct (String.eqb_spec centerId ""); [done|]. by rewrite Hcache.
Qed.

(** C8: every neighbor node of the radial layout has role previous when its
    identifier is the neighborhood's previous identifier, whatever sets it
    belongs to; otherwise role both when it is in the parent and the
    dependency set, and else role parent or dependency according to the one
    set it belongs to. *)
Theorem neighbor_roles (localeCompare : string -> string -> Z)
    (entitiesByUrn : gmap string DatahubObject.t)
    (neighborhood : Neighborhood.t) (centerId : string)
    (centerObject : DatahubObject.t) :
  centerId ≠ "" -> entitiesByUrn !! centerId = Some centerObject ->
  let neighborUrns :=
    layoutNeighborUrns localeCompare entitiesByUrn neighborhood centerId in
  let plotted :=
    nodes (graph localeCompare entitiesByUrn (Some neighborhood)
             (Some centerId)) in
  length plotted = S (length neighborUrns) ∧
  ∀ (k : nat) (urn : string), neighborUrns !! k = Some urn ->
    ∃ node, plotted !! S k = Some node ∧
      PositionedNode.object node = entitiesByUrn !! urn ∧
      (Neighborhood.previousUrn neighborhood = Some urn ->
         PositionedNode.role node = previous) ∧
      (Neighborhood.previousUrn neighborhood ≠ Some urn ->
         urn ∈ Neighborhood.parentUrns neighborhood ->
         urn ∈ Neighborhood.dependencyUrns neighborhood ->
         PositionedNode.role node = both) ∧
      (Neighborhood.previousUrn neighborhood ≠ Some urn ->
         urn ∈ Neighborhood.parentUrns neighborhood ->
         urn ∉ Neighborhood.dependencyUrns neighborhood ->
         PositionedNode.role node = parent) ∧
      (Neighborhood.previousUrn neighborhood ≠ Some urn ->
         urn ∉ Neighborhood.parentUrns neighborhood ->
         urn ∈ Neighborhood.dependencyUrns neighborhood ∧
         PositionedNode.role node = dependency).
Proof.
  intros Hc Hcache neighborUrns plotted. unfold plotted.
  rewrite (graph_nodes _ _ _ _ _ Hc Hcache). fold neighborUrns.
  split; [simpl; by rewrite length_imap|].
  intros k urn Hk. eexists. split.
  { simpl. by rewrite list_lookup_imap, Hk. }
  simpl. split; [done|]. unfold roleOf.
  split; [|split; [|split]].
  - intros ->. simpl. by rewrite String.eqb_refl.
  - intros Hprev Hp%JsSet_has_spec Hd%JsSet_has_spec.
    apply eqNullable_false, negb_true_iff in Hprev. by rewrite Hprev, Hp, Hd.
  - intros Hprev Hp%JsSet_has_spec Hd%JsSet_has_false.
    apply eqNullable_false, negb_true_iff in Hprev. by rewrite Hprev, Hp, Hd.
  - intros Hprev Hp. pose proof Hp as Hp'%JsSet_has_false.
    pose proof Hprev as Hprev'%eqNullable_false%negb_true_iff.
    rewrite Hprev', Hp'. simpl. split; [|done].
    assert (urn ∈ neighborUrns) as Hin by (by eapply list_elem_of_lookup_2).
    apply layoutNeighborUrns_elem in Hin as [Hin|[Hin|Hin]].
    + rewrite previousAsList_spec in Hin.
      destruct (Neighborhood.previousUrn neighborhood) as [p|];
        [|by apply elem_of_nil in Hin].
      destruct (decide _); [|by apply elem_of_nil in Hin].
      apply list_elem_of_singleton in Hin as ->. done.
    + rewrite plottable_filter in Hin.
      apply list_elem_of_filter in Hin as [_ Hin]. done.
    + rewrite plottable_filter in Hin.
      by apply list_elem_of_filter in Hin as [_ Hin].
Qed.

Lemma neighbor_roles_witness :
  ∃ node,
    nodes (graph codeUnitCompare layoutCache (Some layoutNeighborhood)
             (Some "c")) !! 2%nat = Some node ∧
    PositionedNode.role node = both.
Proof.
  destruct (neighbor_roles codeUnitCompare layoutCache layoutNeighborhood "c"
              (placeholderEntity "c")) as [_ Hnodes].
  - discriminate.
  - vm_compute. reflexivity.
  - destruct (Hnodes 1%nat "a") as (node & Hnode & _ & _ & Hboth & _).
    + vm_compute. reflexivity.
    + exists node. split; [exact Hnode|]. apply Hboth.
      * discriminate.
      * apply list_elem_of_In. simpl. auto.
      * apply list_elem_of_In. simpl. auto.
Defined.

Lemma angleOf_formula (k n : nat) :
  (k < n)%nat ->
  angleOf k n = (2 * PI * INR k / INR n - PI / 2)%R.
Proof.
  intros Hk. unfold angleOf. rewrite Nat.max_l by lia.
  unfold Rdiv. ring.
Qed.

(** The lists that the layout computes: the previous identifier, when it is
    set, non-empty and distinct from the center; the parents that are in the
    cache and are not the previous identifier, sorted; the dependencies that
    are in the cache and are not the previous identifier, grouped by label
    with labels and members sorted; and the node drawn for each entry of the
    deduplicated list. *)
Lemma layout_as_computed
    (localeCompare : string -> string -> Z)
    (entitiesByUrn : gmap string DatahubObject.t)
    (neighborhood : Neighborhood.t) (centerId : string)
    (centerObject : DatahubObject.t) :
  (∀ a b, 0 < localeCompare a b -> localeCompare b a <= 0) ->
  centerId ≠ "" -> entitiesByUrn !! centerId = Some centerObject ->
  let previousUrn := Neighborhood.previousUrn neighborhood in
  let shown (urns : list string) :=
    filter (fun u => is_Some (entitiesByUrn !! u) ∧ previousUrn ≠ Some u)
      urns in
  let sorted (l : list string) :=
    Sorted (fun a b => localeCompare a b <= 0) l in
  let first :=
    match previousUrn with
    | Some p => if decide (p ≠ "" ∧ p ≠ centerId) then [p] else []
    | None => []
    end in
  let parents := sortedParents localeCompare entitiesByUrn neighborhood in
  let groups := groupedDependencies localeCompare entitiesByUrn neighborhood in
  let neighborUrns :=
    layoutNeighborUrns localeCompare entitiesByUrn neighborhood centerId in
  let plotted :=
    nodes (graph localeCompare entitiesByUrn (Some neighborhood)
             (Some centerId)) in
  neighborUrns = firstOccurrences (first ++ parents ++ flat_map snd groups) ∧
  parents ≡ₚ shown (Neighborhood.parentUrns neighborhood) ∧
  sorted parents ∧
  sorted (map fst groups) ∧ NoDup (map fst groups) ∧
  (∀ label, label ∈ map fst groups ↔
     ∃ u, u ∈ shown (Neighborhood.dependencyUrns neighborhood) ∧
          dependencyLabel neighborhood u = label) ∧
  (∀ label members, (label, members) ∈ groups ->
     members ≡ₚ filter (fun u => dependencyLabel neighborhood u = label)
                  (shown (Neighborhood.dependencyUrns neighborhood)) ∧
     sorted members) ∧
  plotted !! 0%nat =
    Some (PositionedNode.mk (Some centerObject) (svgWidth / 2) (svgHeight / 2)
            center) ∧
  ∀ (k : nat) (urn : string), neighborUrns !! k = Some urn ->
    ∃ node, plotted !! S k = Some node ∧
      PositionedNode.object node = entitiesByUrn !! urn ∧
      let angle := (2 * PI * INR k / INR (length neighborUrns) - PI / 2)%R in
      PositionedNode.x node =
        (svgWidth / 2 + 34 / 100 * Rmin svgWidth svgHeight * cos angle)%R ∧
      PositionedNode.y node =
        (svgHeight / 2 + 34 / 100 * Rmin svgWidth svgHeight * sin angle)%R.
Proof.
  intros Htotal Hc Hcache previousUrn shown sorted first parents groups
    neighborUrns plotted.
  assert (∀ urns, plottable entitiesByUrn previousUrn urns = shown urns)
    as Hshown by (intros urns; apply plottable_filter).
  assert (groups =
            map (fun label =>
                   (label,
                    sortByLocale localeCompare
                      (filter (fun u => dependencyLabel neighborhood u = label)
                         (shown (Neighborhood.dependencyUrns neighborhood)))))
                (sortByLocale localeCompare
                   (JsMap.keys
                      (filedUnder (dependencyLabel neighborhood)
                         (shown (Neighborhood.dependencyUrns neighborhood))))))
    as Hgroups.
  { unfold groups. rewrite groupedDependencies_spec. simpl.
    by rewrite Hshown. }
  assert (map fst groups =
            sortByLocale localeCompare
              (JsMap.keys
                 (filedUnder (dependencyLabel neighborhood)
                    (shown (Neighborhood.dependencyUrns neighborhood)))))
    as Hlabels.
  { rewrite Hgroups, map_map. simpl. apply map_id. }
  split; [|split; [|split; [|split; [|split; [|split; [|split; [|split]]]]]]].
  - unfold neighborUrns, layoutNeighborUrns, orderedNeighborUrns.
    by rewrite ofList_firstOccurrences, previousAsList_spec.
  - unfold parents, sortedParents. by rewrite sortByLocale_perm, Hshown.
  - by apply sortByLocale_sorted.
  - rewrite Hlabels. by apply sortByLocale_sorted.
  - rewrite Hlabels. apply sortByLocale_NoDup, filedUnder_keys_NoDup.
  - intros label.
    rewrite Hlabels, sortByLocale_elem, filedUnder_keys_elem.
    change (map ?f ?l) with (f <$> l). rewrite list_elem_of_fmap.
    split; intros (u & Hu1 & Hu2); exists u; by split.
  - intros label members Hin. rewrite Hgroups in Hin.
    change (map ?f ?l) with (f <$> l) in Hin.
    apply list_elem_of_fmap in Hin as (label' & [= -> ->] & _).
    split; [apply sortByLocale_perm|by apply sortByLocale_sorted].
  - unfold plotted. by rewrite (graph_nodes _ _ _ _ _ Hc Hcache).
  - intros k urn Hk. unfold plotted.
    rewrite (graph_nodes _ _ _ _ _ Hc Hcache). fold neighborUrns.
    eexists. split; [simpl; by rewrite list_lookup_imap, Hk|].
    simpl. split; [done|].
    rewrite angleOf_formula by (by eapply lookup_lt_Some).
    unfold centerX, centerY, radius. split; ring.
Qed.

Lemma codeUnitCompare_total (a b : string) :
  0 < codeUnitCompare a b -> codeUnitCompare b a <= 0.
Proof.
  unfold codeUnitCompare. rewrite (String.compare_antisym a b).
  destruct (String.compare b a); simpl; lia.
Qed.

Example sample_layout_order :
  layoutNeighborUrns codeUnitCompare layoutCache layoutNeighborhood "c"
    = ["p"; "a"; "b"] ∧
  groupedDependencies codeUnitCompare layoutCache layoutNeighborhood
    = [("Uncategorized", ["a"]); ("ownership", ["b"])].
Proof. vm_compute. done. Qed.

(** The first neighbor is plotted straight above the center. *)
Remark first_neighbor_at_top (count : nat) :
  cos (angleOf 0 count) = 0%R ∧ sin (angleOf 0 count) = (-1)%R.
Proof.
  assert (angleOf 0 count = (- (PI / 2))%R) as ->.
  { unfold angleOf. simpl INR. unfold Rdiv. ring. }
  rewrite cos_neg, sin_neg, cos_PI2, sin_PI2. done.
Qed.

(** * Further properties of the code *)

Example urls_test_encode :
  encodeDatahubStyleUrnPathSegment
    "urn:li:dataset:(urn:li:dataPlatform:db%2Fs?x#part[abc],table,PROD)"
  = "urn:li:dataset:(urn:li:dataPlatform:db{{encoded_percent}}2Fs%3Fx%23part%5Babc%5D,table,PROD)".
Proof. reflexivity. Qed.

(** ** Navigation stack, continued *)

(** What a navigation step can return. *)
Lemma advance_cases (s : list string) (t : string) (m : NavigationMode)
    (i : option Z) :
  getNextNavigationStack s t m i = [t] ∨
  (∃ l1 l2, s = l1 ++ (t :: l2) ∧ getNextNavigationStack s t m i = l1 ++ [t]) ∨
  (t ∉ s ∧ getNextNavigationStack s t m i = s ++ [t]).
Proof.
  destruct m; simpl.
  - by left.
  - destruct (Z.eqb_spec (Z.of_nat (length s)) 0); [by left|].
    rewrite at_top.
    destruct (lastIndexOf_spec s t) as [[Hr Hn]|(l1 & l2 & Hs & Hn & Hr)].
    + right. right. split; [done|]. rewrite Hr. simpl.
      destruct (last s) as [x|] eqn:Hx; [|done].
      destruct (String.eqb_spec x t) as [->|_]; [|done].
      exfalso. by apply Hn, last_Some_elem_of.
    + right. left. exists l1, l2. split; [done|]. rewrite Hr.
      destruct (Z.leb_spec 0 (Z.of_nat (length l1))); [|lia].
      subst s. rewrite take_last_occurrence, last_app_cons.
      destruct l2 as [|y l2]; simpl.
      * by rewrite String.eqb_refl.
      * destruct (last (y :: l2)) as [x|] eqn:Hx; [|done].
        destruct (String.eqb_spec x t) as [->|_]; [|done].
        exfalso. by apply Hn, last_Some_elem_of.
  - destruct (breadcrumbHit s t i) eqn:Hhit.
    + apply breadcrumbHit_spec in Hhit as (k & -> & Hk).
      right. left. pose proof (lookup_lt_Some _ _ _ Hk) as Hlt.
      exists (take k s), (drop (S k) s). simpl.
      replace (Z.of_nat k + 1) with (Z.of_nat (S k)) by lia.
      rewrite slice0_take by lia. split.
      * rewrite <- (take_drop_middle s k t Hk) at 1. done.
      * by erewrite take_S_r.
    + destruct (lastIndexOf_spec s t) as [[-> Hn]|(l1 & l2 & Hs & Hn & ->)].
      * by left.
      * right. left. exists l1, l2. split; [done|].
        destruct (Z.leb_spec 0 (Z.of_nat (length l1))); [|lia].
        subst s. apply take_last_occurrence.
Qed.

(** X1: in node mode a target already in the stack pops the stack back to
    its last occurrence, and a target that is nowhere in the stack is pushed;
    the breadcrumb index plays no part. *)
Theorem node_advance (s : list string) (t : string) (i : option Z) :
  (t ∈ s ->
     ∃ l1 l2, s = l1 ++ (t :: l2) ∧ t ∉ l2 ∧
       getNextNavigationStack s t node i = l1 ++ [t]) ∧
  (t ∉ s -> getNextNavigationStack s t node i = s ++ [t]).
Proof.
  simpl. destruct (Z.eqb_spec (Z.of_nat (length s)) 0) as [E|_].
  { destruct s; [|simpl in E; lia]. split; [by intros ?%elem_of_nil|done]. }
  rewrite at_top.
  destruct (lastIndexOf_spec s t) as [[Hr Hn]|(l1 & l2 & Hs & Hn & Hr)].
  - split; [done|]. intros _. rewrite Hr. simpl.
    destruct (last s) as [x|] eqn:Hx; [|done].
    destruct (String.eqb_spec x t) as [->|_]; [|done].
    exfalso. by apply Hn, last_Some_elem_of.
  - split.
    + intros _. exists l1, l2. split; [done|]. split; [done|].
      rewrite Hr. destruct (Z.leb_spec 0 (Z.of_nat (length l1))); [|lia].
      subst s. rewrite take_last_occurrence, last_app_cons.
      destruct l2 as [|y l2]; simpl; [by rewrite String.eqb_refl|].
      destruct (last (y :: l2)) as [x|] eqn:Hx; [|done].
      destruct (String.eqb_spec x t) as [->|_]; [|done].
      exfalso. by apply Hn, last_Some_elem_of.
    + intros Hout. exfalso. apply Hout. rewrite Hs.
      rewrite elem_of_app, elem_of_cons. auto.
Qed.

Lemma node_advance_witness :
  getNextNavigationStack ["a"; "b"; "c"] "d" node None
    = ["a"; "b"; "c"] ++ ["d"].
Proof.
  apply (node_advance ["a"; "b"; "c"] "d" None).
  rewrite !not_elem_of_cons. repeat split; try discriminate.
  apply not_elem_of_nil.
Defined.

Lemma node_advance_fresh (s : list string) (t : string) (i : option Z) :
  t ∉ s -> getNextNavigationStack s t node i = s ++ [t].
Proof.
  intros Hn. simpl.
  destruct (Z.eqb_spec (Z.of_nat (length s)) 0) as [E|_].
  { destruct s; [done|simpl in E; lia]. }
  rewrite at_top.
  destruct (last s) as [x|] eqn:Hx.
  - destruct (String.eqb_spec x t) as [->|_].
    { exfalso. by apply Hn, last_Some_elem_of. }
    destruct (lastIndexOf_spec s t) as [[-> _]|(l1 & l2 & Hs & _ & _)];
      [done|].
    exfalso. apply Hn. rewrite Hs, elem_of_app, elem_of_cons. auto.
  - destruct (lastIndexOf_spec s t) as [[-> _]|(l1 & l2 & Hs & _ & _)];
      [done|].
    exfalso. apply Hn. rewrite Hs, elem_of_app, elem_of_cons. auto.
Qed.

Lemma lastIndexOf_unique (l1 l2 : list string) (t : string) :
  t ∉ l2 -> JsArray.lastIndexOf (l1 ++ t :: l2) t = Z.of_nat (length l1).
Proof.
  intros Hn.
  destruct (lastIndexOf_spec (l1 ++ t :: l2) t)
    as [[_ Hout]|(k1 & k2 & Hs & Hk & ->)].
  - exfalso. apply Hout. rewrite elem_of_app, elem_of_cons. auto.
  - f_equal. revert k1 Hs. induction l1 as [|a l1 IH]; intros [|b k1] Hs.
    + done.
    + simpl in Hs. injection Hs as -> ->. exfalso. apply Hn.
      rewrite elem_of_app, elem_of_cons. auto.
    + simpl in Hs. injection Hs as -> <-. exfalso. apply Hk.
      rewrite elem_of_app, elem_of_cons. auto.
    + simpl in Hs. injection Hs as -> Hs. simpl. f_equal. by apply IH.
Qed.

Lemma node_advance_seen (l1 l2 : list string) (t : string) (i : option Z) :
  t ∉ l2 -> getNextNavigationStack (l1 ++ t :: l2) t node i = l1 ++ [t].
Proof.
  intros Hn. simpl.
  destruct (Z.eqb_spec (Z.of_nat (length (l1 ++ t :: l2))) 0) as [E|_].
  { rewrite length_app in E. simpl in E. lia. }
  rewrite at_top, last_app_cons, lastIndexOf_unique by done.
  destruct (Z.leb_spec 0 (Z.of_nat (length l1))); [|lia].
  rewrite take_last_occurrence.
  destruct l2 as [|y l2]; simpl; [by rewrite String.eqb_refl|].
  destruct (last (y :: l2)) as [x|] eqn:Hx; [|done].
  destruct (String.eqb_spec x t) as [->|_]; [|done].
  exfalso. by apply Hn, last_Some_elem_of.
Qed.

Lemma advance_NoDup (s : list string) (t : string) (m : NavigationMode)
    (i : option Z) :
  NoDup s -> NoDup (getNextNavigationStack s t m i).
Proof.
  intros Hs.
  destruct (advance_cases s t m i) as [->|[(l1 & l2 & -> & ->)|[Hn ->]]].
  - apply NoDup_singleton.
  - apply NoDup_app in Hs as (H1 & H2 & H3).
    apply NoDup_app. split; [done|]. split; [|apply NoDup_singleton].
    intros x Hx ->%list_elem_of_singleton.
    apply (H2 t Hx), list_elem_of_here.
  - apply NoDup_app. split; [done|]. split; [|apply NoDup_singleton].
    by intros x Hx ->%list_elem_of_singleton.
Qed.

(** X2: a navigation step never creates a duplicate: from a stack without
    repeated identifiers it returns a stack without repeated identifiers. *)
Theorem stack_stays_duplicate_free (s : list string) (t : string)
    (m : NavigationMode) (i : option Z) :
  NoDup s -> NoDup (getNextNavigationStack s t m i).
Proof. apply advance_NoDup. Qed.

Lemma stack_stays_duplicate_free_witness :
  NoDup (getNextNavigationStack ["a"; "b"; "c"] "b" node None).
Proof.
  apply (stack_stays_duplicate_free ["a"; "b"; "c"] "b" node None).
  repeat (constructor; [rewrite ?not_elem_of_cons;
                        repeat split; try discriminate;
                        apply not_elem_of_nil|]).
  constructor.
Defined.

(** X3: clicking the node that is already current changes nothing, whatever
    step produced the current stack. *)
Theorem reclick_is_noop (s : list string) (t : string) (m : NavigationMode)
    (i j : option Z) :
  getNextNavigationStack (getNextNavigationStack s t m i) t node j
  = getNextNavigationStack s t m i.
Proof.
  pose proof (advance_last s t m i) as Hlast.
  set (r := getNextNavigationStack s t m i) in *. simpl.
  destruct (Z.eqb_spec (Z.of_nat (length r)) 0) as [E|_].
  - destruct r; [done|simpl in E; lia].
  - by rewrite at_top, Hlast, String.eqb_refl.
Qed.

(** X4: after drilling into an identifier that is new to the stack, the
    breadcrumb at position k leads back to the stack as it was when that
    breadcrumb was current; without repeated identifiers, clicking the same
    identifier as a node does the same. *)
Theorem drill_in_then_back (s : list string) (t x : string) (k : nat) :
  t ∉ s -> s !! k = Some x ->
  getNextNavigationStack (getNextNavigationStack s t node None) x breadcrumb
    (Some (Z.of_nat k)) = take (S k) s ∧
  (NoDup s ->
   getNextNavigationStack (getNextNavigationStack s t node None) x node None
     = take (S k) s).
Proof.
  intros Ht Hk. pose proof (lookup_lt_Some _ _ _ Hk) as Hlt.
  rewrite (node_advance_fresh s t None Ht).
  split.
  - rewrite breadcrumb_hit_result by (by rewrite lookup_app_l).
    by rewrite take_app_le by lia.
  - intros Hnodup.
    assert (s ++ [t] = take k s ++ x :: (drop (S k) s ++ [t])) as ->.
    { rewrite <- (take_drop_middle s k x Hk) at 1. by rewrite <- app_assoc. }
    rewrite <- (take_drop_middle s k x Hk) in Hnodup.
    apply NoDup_app in Hnodup as (_ & _ & Hnodup).
    apply NoDup_cons in Hnodup as [Hx _].
    rewrite node_advance_seen.
    + by erewrite take_S_r.
    + rewrite not_elem_of_app, list_elem_of_singleton. split; [done|].
      intros ->. by eapply Ht, list_elem_of_lookup_2.
Qed.

Lemma drill_in_then_back_witness :
  getNextNavigationStack
    (getNextNavigationStack ["a"; "b"] "c" node None) "a" breadcrumb (Some 0)
  = take 1 ["a"; "b"].
Proof.
  refine (proj1 (drill_in_then_back ["a"; "b"] "c" "a" 0 _ _)).
  - rewrite !not_elem_of_cons. repeat split; try discriminate.
    apply not_elem_of_nil.
  - reflexivity.
Defined.

(** ** Identifier parsing, continued *)

Section MoreStringFacts.

Implicit Types (c a : ascii) (s p q : string).

Lemma string_app_assoc p q s : (p +:+ q) +:+ s = p +:+ (q +:+ s).
Proof.
  induction p as [|a p IH]; [done|].
  change (String a ((p +:+ q) +:+ s) = String a (p +:+ (q +:+ s))).
  by rewrite IH.
Qed.

Lemma string_app_nil_r p : p +:+ "" = p.
Proof.
  induction p as [|a p IH]; [done|].
  change (String a (p +:+ "") = String a p). by rewrite IH.
Qed.

Lemma take_drop_string (n : nat) s :
  JsString.take n s +:+ JsString.drop n s = s.
Proof.
  revert s. induction n as [|n IH]; intros [|a s]; try done.
  change (String a (JsString.take n s +:+ JsString.drop n s) = String a s).
  by rewrite IH.
Qed.

Lemma take_app_length_string p q :
  JsString.take (String.length p) (p +:+ q) = p.
Proof.
  induction p as [|a p IH]; [by destruct q|].
  change (String a (JsString.take (String.length p) (p +:+ q)) = String a p).
  by rewrite IH.
Qed.

Lemma stripPrefix_app p s : JsString.stripPrefix p (p +:+ s) = Some s.
Proof.
  induction p as [|a p IH]; [done|].
  change (JsString.stripPrefix (String a p) (String a (p +:+ s)) = Some s).
  simpl. by rewrite Ascii.eqb_refl.
Qed.

Lemma span_app c s : (JsString.span c s).1 +:+ (JsString.span c s).2 = s.
Proof.
  induction s as [|a s IH]; [done|]. simpl.
  destruct (Ascii.eqb a c); [done|].
  destruct (JsString.span c s) as [x y]. simpl in *.
  change (String a (x +:+ y) = String a s). by rewrite IH.
Qed.

Lemma span_separated c p q :
  JsString.hasChar c p = false ->
  JsString.span c (p +:+ String c q) = (p, String c q).
Proof.
  induction p as [|a p IH]; intros Hp.
  - change ("" +:+ String c q) with (String c q). simpl.
    by rewrite Ascii.eqb_refl.
  - change (String a p +:+ String c q) with (String a (p +:+ String c q)).
    simpl in *. apply orb_false_iff in Hp as [Ha Hp].
    by rewrite Ha, (IH Hp).
Qed.

Lemma span_snd c s :
  (JsString.span c s).2 = "" ∨ ∃ q, (JsString.span c s).2 = String c q.
Proof.
  induction s as [|a s IH]; [by left|]. simpl.
  destruct (Ascii.eqb a c) eqn:E.
  - right. apply Ascii.eqb_eq in E as ->. by exists s.
  - by destruct (JsString.span c s).
Qed.

(** A slice is a piece of the string it is cut from. *)
Lemma slice_substring s (from to : Z) :
  ∃ p q, s = p +:+ JsString.slice s from to +:+ q.
Proof.
  unfold JsString.slice.
  set (n := Z.to_nat (JsString.clampIndex _ from)).
  set (m := Z.to_nat _).
  exists (JsString.take n s), (JsString.drop m (JsString.drop n s)).
  by rewrite take_drop_string, take_drop_string.
Qed.

End MoreStringFacts.

(** X5: the type of an identifier is never empty and never contains a colon;
    it is either the sentinel ["entity"] or literally the segment that
    follows the prefix [urn:li:] in the identifier. *)
Theorem parse_type_is_third_segment (u : string) :
  parseUrnType u ≠ "" ∧
  JsString.hasChar colon (parseUrnType u) = false ∧
  (parseUrnType u = "entity" ∨
   ∃ rest, u = "urn:li:" +:+ parseUrnType u +:+ ":" +:+ rest).
Proof.
  unfold parseUrnType, matchUrnType.
  destruct (JsString.stripPrefix "urn:li:" u) as [r|] eqn:Hr;
    [|by repeat split; [|left]].
  apply stripPrefix_Some in Hr.
  pose proof (span_fst_free colon r) as Hfree.
  pose proof (span_app colon r) as Happ.
  pose proof (span_snd colon r) as Hsnd.
  destruct (JsString.span colon r) as [x y]. simpl in *.
  destruct x as [|a x]; [by repeat split; [|left]|].
  destruct y as [|b y]; [by repeat split; [|left]|].
  split; [done|]. split; [done|]. right.
  destruct Hsnd as [?|[q [= -> ->]]]; [done|].
  exists q. by rewrite Hr, <- Happ.
Qed.

(** X6: an identifier built as [urn:li:] type [:] rest, with a non-empty
    colon-free type, parses back to that type, whatever the rest is. *)
Theorem parse_type_of_built_urn (ty rest : string) :
  ty ≠ "" -> JsString.hasChar colon ty = false ->
  parseUrnType ("urn:li:" +:+ ty +:+ ":" +:+ rest) = ty.
Proof.
  intros Hty Hfree. unfold parseUrnType, matchUrnType.
  rewrite stripPrefix_app.
  change (":" +:+ rest) with (String colon rest).
  rewrite span_separated by done.
  by destruct ty.
Qed.

Lemma parse_type_of_built_urn_witness :
  parseUrnType ("urn:li:" +:+ "dataJob" +:+ ":" +:+ "(a:b,c)") = "dataJob".
Proof.
  apply (parse_type_of_built_urn "dataJob" "(a:b,c)").
  - discriminate.
  - reflexivity.
Defined.

Lemma lastIndexOf_last (c : ascii) (p : string) :
  JsString.lastIndexOf c (p +:+ String c "") = Z.of_nat (String.length p).
Proof.
  rewrite lastIndexOf_app. simpl. rewrite Ascii.eqb_refl. simpl. lia.
Qed.

(** The name of an identifier that ends in a parenthesized key. *)
Lemma parseUrnName_keyed (p k : string) :
  JsString.hasChar hash p = false -> JsString.hasChar hash k = false ->
  JsString.hasChar lparen k = false ->
  let b := p +:+ String lparen (k +:+ String rparen "") in
  JsString.hasChar hash b = false ∧ parenthesized b = true ∧
  JsString.slice b (JsString.lastIndexOf lparen b + 1)
    (JsString.lastIndexOf rparen b) = k.
Proof.
  intros Hp Hk Hl b.
  assert (JsString.lastIndexOf lparen b = Z.of_nat (String.length p)) as Hlp.
  { unfold b. rewrite lastIndexOf_app. simpl.
    rewrite lastIndexOf_free by (by rewrite hasChar_app, Hl). simpl. lia. }
  assert (JsString.lastIndexOf rparen b
            = Z.of_nat (String.length p + 1 + String.length k)) as Hrp.
  { unfold b.
    change (String lparen (k +:+ String rparen ""))
      with (String lparen "" +:+ (k +:+ String rparen "")).
    rewrite <- !string_app_assoc, lastIndexOf_last, !length_app_string.
    done. }
  assert (String.length b = (String.length p + 1 + String.length k + 1)%nat)
    as Hlen.
  { unfold b. rewrite length_app_string. simpl.
    rewrite length_app_string. simpl. lia. }
  split; [|split].
  - unfold b. rewrite hasChar_app, Hp. simpl. by rewrite hasChar_app, Hk.
  - unfold parenthesized. rewrite Hlp, Hrp.
    apply andb_true_iff. split; [apply Z.leb_le|apply Z.ltb_lt]; lia.
  - unfold JsString.slice. rewrite Hlp, Hrp, Hlen.
    rewrite !clampIndex_inside by lia.
    replace (Z.to_nat (Z.of_nat (String.length p) + 1))
      with (S (String.length p)) by lia.
    replace (Z.to_nat (Z.of_nat (String.length p + 1 + String.length k)
                       - (Z.of_nat (String.length p) + 1)))
      with (String.length k) by lia.
    unfold b. by rewrite drop_past_occurrence, take_app_length_string.
Qed.

(** X7: when the text of an identifier before its first [#] ends with a
    closing parenthesis, the name is the text between the last opening
    parenthesis of that text and the final closing parenthesis, verbatim,
    colons, commas and closing parentheses included; a fragment after [#]
    is ignored.  (The text [k] below has no opening parenthesis, so the one
    before it is the last.)  For a key nested in a key this is the tail of
    the outer key that follows the innermost opening parenthesis, not the
    outer key. *)
Theorem parse_name_of_keyed_urn (p k fragment : string) :
  JsString.hasChar hash p = false -> JsString.hasChar hash k = false ->
  JsString.hasChar lparen k = false ->
  parseUrnName (p +:+ "(" +:+ k +:+ ")") = k ∧
  parseUrnName (p +:+ "(" +:+ k +:+ ")" +:+ "#" +:+ fragment) = k.
Proof.
  intros Hp Hk Hl.
  pose proof (parseUrnName_keyed p k Hp Hk Hl) as Hkeyed. cbv zeta in Hkeyed.
  set (b := p +:+ String lparen (k +:+ String rparen "")) in *.
  destruct Hkeyed as (Hb & Hparen & Hslice).
  split.
  - change (parseUrnName b = k). rewrite parseUrnName_unfold. cbv zeta.
    by rewrite (span_free _ _ Hb), Hparen.
  - replace (p +:+ "(" +:+ k +:+ ")" +:+ "#" +:+ fragment)
      with (b +:+ String hash fragment).
    + rewrite parseUrnName_unfold. cbv zeta.
      rewrite (span_separated _ _ _ Hb). cbn [fst]. by rewrite Hparen.
    + unfold b. rewrite string_app_assoc. f_equal.
      change (String lparen ((k +:+ String rparen "") +:+ String hash fragment)
              = String lparen (k +:+ ")" +:+ "#" +:+ fragment)).
      by rewrite string_app_assoc.
Qed.

Lemma parse_name_of_keyed_urn_witness :
  parseUrnName
    ("urn:li:dataJob:(urn:li:dataFlow:" +:+ "("
       +:+ "airflow,dag_abc,PROD),task_456" +:+ ")")
  = "airflow,dag_abc,PROD),task_456".
Proof.
  refine (proj1 (parse_name_of_keyed_urn "urn:li:dataJob:(urn:li:dataFlow:"
                   "airflow,dag_abc,PROD),task_456" "" _ _ _));
    reflexivity.
Defined.

(** X8: the name of an identifier is always a piece of the identifier
    itself, taken from before the fragment marker: nothing is invented and
    no [#] survives. *)
Theorem parse_name_is_substring (u : string) :
  (∃ p q, u = p +:+ parseUrnName u +:+ q) ∧
  JsString.hasChar hash (parseUrnName u) = false.
Proof.
  split; [|by destruct (parseUrnName_output u)].
  rewrite parseUrnName_unfold. simpl.
  pose proof (span_app hash u) as Hu.
  set (b := (JsString.span hash u).1) in *.
  set (r := (JsString.span hash u).2) in *.
  destruct (parenthesized b).
  - destruct (slice_substring b
                (JsString.lastIndexOf lparen b + 1)
                (JsString.lastIndexOf rparen b)) as (p & q & Hb).
    exists p, (q +:+ r). rewrite <- Hu. rewrite Hb at 1.
    by rewrite !string_app_assoc.
  - destruct (split_last colon b) as (x & p & -> & Hb & _).
    exists p, r. simpl. rewrite <- Hu. rewrite Hb at 1.
    by rewrite string_app_assoc.
Qed.

(** ** Scanning JSON for identifiers *)

(** Induction over a JSON value and the values nested in it. *)
Lemma json_nested_ind (P : json -> Prop) :
  P JNull -> (∀ b, P (JBool b)) -> (∀ n, P (JNum n)) -> (∀ s, P (JStr s)) ->
  (∀ items, Forall P items -> P (JArr items)) ->
  (∀ fields, Forall (fun kv => P kv.2) fields -> P (JObj fields)) ->
  ∀ v, P v.
Proof.
  intros Hnull Hbool Hnum Hstr Harr Hobj.
  fix IH 1. intros [|b|n|s|items|fields].
  - apply Hnull.
  - apply Hbool.
  - apply Hnum.
  - apply Hstr.
  - apply Harr. induction items as [|x items IHitems]; constructor.
    + apply IH.
    + apply IHitems.
  - apply Hobj. induction fields as [|[k x] fields IHfields]; constructor.
    + apply IH.
    + apply IHfields.
Qed.

Lemma fold_add_app (l1 l2 acc : list string) :
  fold_left JsSet.add (l1 ++ l2) acc
  = fold_left JsSet.add l2 (fold_left JsSet.add l1 acc).
Proof. apply fold_left_app. Qed.

(** The scan adds to the result set, in document order, the string values
    that look like identifiers. *)
Lemma extractUrnsFromJson_fold (v : json) :
  ∀ acc, extractUrnsFromJson v acc
         = fold_left JsSet.add (filter isUrn (stringValues v)) acc.
Proof.
  induction v as [|b|n|s|items IH|fields IH] using json_nested_ind;
    intros acc; try done.
  - change (extractUrnsFromJson (JStr s) acc)
      with (if JsString.startsWith "urn:li:" s then JsSet.add acc s else acc).
    change (stringValues (JStr s)) with [s].
    rewrite filter_cons, filter_nil.
    destruct (decide (isUrn s)) as [E|E]; unfold isUrn in E.
    + by rewrite E.
    + apply not_true_is_false in E. by rewrite E.
  - simpl. revert acc. induction IH as [|x items Hx _ IHitems]; intros acc.
    + done.
    + simpl. rewrite IHitems, Hx, filter_app. by rewrite fold_add_app.
  - simpl. revert acc. induction IH as [|[k x] fields Hx _ IHfields];
      intros acc.
    + done.
    + simpl in *. rewrite IHfields, Hx, filter_app. by rewrite fold_add_app.
Qed.

(** X9: scanning a JSON value appends to the identifiers found so far, in
    document order and once each, the string values that start with
    [urn:li:] and were not found before; from an empty result it yields the
    distinct identifier-like string values, duplicates suppressed. *)
Theorem scan_collects_distinct_urn_values (v : json) (acc : list string) :
  extractUrnsFromJson v acc
    = acc ++ keepFirstBy (fun u => u) acc (filter isUrn (stringValues v)) ∧
  extractUrnsFromJson v []
    = firstOccurrences (filter isUrn (stringValues v)) ∧
  NoDup (extractUrnsFromJson v []) ∧
  ∀ u, u ∈ extractUrnsFromJson v [] ↔ u ∈ stringValues v ∧ isUrn u.
Proof.
  assert (extractUrnsFromJson v []
            = firstOccurrences (filter isUrn (stringValues v))) as Hempty.
  { by rewrite extractUrnsFromJson_fold, <- ofList_firstOccurrences. }
  split; [by rewrite extractUrnsFromJson_fold, ofList_from|].
  split; [done|]. rewrite Hempty.
  split; [apply firstOccurrences_NoDup|].
  intros u. rewrite firstOccurrences_elem, list_elem_of_filter. tauto.
Qed.

(** X10: the keys of an object never contribute to the scan: an object
    yields what the array of its values yields. *)
Theorem scan_ignores_keys (fields : list (string * json)) (acc : list string) :
  extractUrnsFromJson (JObj fields) acc
  = extractUrnsFromJson (JArr (map snd fields)) acc.
Proof.
  simpl. revert acc. induction fields as [|[k x] fields IH]; intros acc.
  - done.
  - simpl. apply IH.
Qed.

Lemma scan_elem (v : json) (u : string) :
  u ∈ extractUrnsFromJson v [] ↔ u ∈ stringValues v ∧ isUrn u.
Proof.
  rewrite extractUrnsFromJson_fold.
  change (fold_left JsSet.add ?l []) with (JsSet.ofList l).
  rewrite ofList_firstOccurrences, firstOccurrences_elem, list_elem_of_filter.
  tauto.
Qed.

Lemma scan_NoDup (v : json) : NoDup (extractUrnsFromJson v []).
Proof.
  rewrite extractUrnsFromJson_fold.
  change (NoDup (JsSet.ofList (filter isUrn (stringValues v)))).
  rewrite ofList_firstOccurrences. apply firstOccurrences_NoDup.
Qed.

Lemma stringValues_item (items : list json) (v : json) (u : string) :
  v ∈ items -> u ∈ stringValues v -> u ∈ stringValues (JArr items).
Proof.
  intros Hv Hu. simpl. apply list_elem_of_In, in_flat_map.
  exists v. split; by apply list_elem_of_In.
Qed.

Lemma stringValues_field (fields : list (string * json)) (k : string)
    (v : json) (u : string) :
  (k, v) ∈ fields -> u ∈ stringValues v -> u ∈ stringValues (JObj fields).
Proof.
  intros Hv Hu. simpl. apply list_elem_of_In, in_flat_map.
  exists (k, v). split; by apply list_elem_of_In.
Qed.

Lemma lookupField_elem (fields : list (string * json)) (k : string) (v : json) :
  Js.lookupField fields k = Some v -> (k, v) ∈ fields.
Proof.
  induction fields as [|[k0 v0] fields IH]; simpl; [done|].
  destruct (String.eqb_spec k0 k) as [->|_].
  - intros [= ->]. apply list_elem_of_here.
  - intros H. by apply list_elem_of_further, IH.
Qed.

(** Groups only come from an object whose [aspects] field is an array or an
    object. *)
Lemma aspect_groups_inv (raw : json) :
  extractAspectUrnGroups raw ≠ [] ->
  ∃ fields aspects,
    raw = JObj fields ∧ Js.lookupField fields "aspects" = Some aspects ∧
    ((∃ items, aspects = JArr items) ∨ (∃ entries, aspects = JObj entries)).
Proof.
  unfold extractAspectUrnGroups.
  destruct raw as [|b|n|s|items|fields]; simpl; try done.
  - by destruct b.
  - by rewrite orb_true_r.
  - by rewrite orb_true_r.
  - destruct (Js.lookupField fields "aspects") as [aspects|] eqn:Ha; [|done].
    intros H. exists fields, aspects. split; [done|]. split; [done|].
    destruct aspects as [|b|n|s|items|entries]; simpl in H; try done.
    + by destruct b.
    + by destruct (n =? 0).
    + by destruct (String.eqb s "").
    + left. by exists items.
    + right. by exists entries.
Qed.

(** X11: there are no aspect groups unless the raw entity is an object whose
    [aspects] field is an array or an object; any other payload (null, a
    primitive, an array, an object without [aspects], a primitive [aspects])
    yields the empty map. *)
Theorem aspect_groups_need_aspects (raw : json) :
  extractAspectUrnGroups raw ≠ [] ->
  ∃ fields aspects,
    raw = JObj fields ∧ Js.lookupField fields "aspects" = Some aspects ∧
    ((∃ items, aspects = JArr items) ∨ (∃ entries, aspects = JObj entries)).
Proof. apply aspect_groups_inv. Qed.

Lemma aspect_groups_need_aspects_witness :
  ∃ fields aspects,
    samplePayload = JObj fields ∧
    Js.lookupField fields "aspects" = Some aspects ∧
    ((∃ items, aspects = JArr items) ∨ (∃ entries, aspects = JObj entries)).
Proof.
  apply (aspect_groups_need_aspects samplePayload). vm_compute. discriminate.
Defined.

(** X12: every aspect group is a non-empty, duplicate-free list of
    identifiers, each of which the scan of the whole payload finds too: the
    grouped references are always among the in-payload references. *)
Theorem aspect_groups_within_scan (raw : json) (label : string)
    (urns : list string) :
  JsMap.get (extractAspectUrnGroups raw) label = Some urns ->
  urns ≠ [] ∧ NoDup urns ∧
  ∀ u, u ∈ urns -> u ∈ extractUrnsFromJson raw [].
Proof.
  intros Hget.
  destruct (aspect_groups_inv raw) as (fields & aspects & -> & Ha & Hshape).
  { intros E. by rewrite E in Hget. }
  rewrite (extractAspectUrnGroups_labelled fields aspects Ha) in Hget.
  apply groupsOf_get in Hget as (i & v & Hi & -> & Hne & _).
  split; [done|]. split; [apply scan_NoDup|].
  intros u [Hu Hurn]%scan_elem. apply scan_elem. split; [|done].
  apply (stringValues_field fields "aspects" aspects);
    [by apply lookupField_elem|].
  apply list_elem_of_lookup_2 in Hi.
  destruct Hshape as [[items ->]|[entries ->]]; simpl in Hi.
  - apply labelledFrom_elem in Hi as (k & x & Hk & Hx).
    unfold labelArrayAspect in Hx. destruct (isRecord x); [|done].
    injection Hx as _ ->.
    apply (stringValues_item items v); [|done].
    by eapply list_elem_of_lookup_2.
  - apply labelledFrom_elem in Hi as (k & [key x] & Hk & Hx).
    unfold labelEntryAspect in Hx. simpl in Hx.
    destruct (isRecord x); [|done]. injection Hx as _ ->.
    apply (stringValues_field entries key v); [|done].
    by eapply list_elem_of_lookup_2.
Qed.

Lemma aspect_groups_within_scan_witness :
  ["urn:li:corpuser:owner1"] ≠ [] ∧ NoDup ["urn:li:corpuser:owner1"] ∧
  ∀ u, u ∈ ["urn:li:corpuser:owner1"] ->
       u ∈ extractUrnsFromJson samplePayload [].
Proof.
  apply (aspect_groups_within_scan samplePayload "ownership").
  vm_compute. reflexivity.
Defined.

(** ** Catalog client: the endpoint loop *)

Section EndpointFacts.

Context {A : Type}.
Variable attempt : string -> result A.

Lemma tryEndpoints_inl (endpoints : list string) (lastError : option jsError)
    (a : A) :
  tryEndpoints attempt endpoints lastError = inl a ↔
  ∃ pre endpoint post,
    endpoints = pre ++ endpoint :: post ∧
    (∀ p, p ∈ pre -> ∃ e, attempt p = Throw e) ∧
    attempt endpoint = Ok a.
Proof.
  revert lastError. induction endpoints as [|p rest IH]; intros lastError.
  - simpl. split; [done|]. intros (pre & endpoint & post & H & _).
    by destruct pre.
  - simpl. destruct (attempt p) as [b|e] eqn:Hp.
    + split.
      * intros [= ->]. exists [], p, rest. split; [done|]. split; [|done].
        intros q Hq. by apply elem_of_nil in Hq.
      * intros (pre & endpoint & post & H & Hpre & Hok).
        destruct pre as [|q pre]; simplify_eq/=; [congruence|].
        destruct (Hpre q) as [e He]; [apply list_elem_of_here|]. congruence.
    + rewrite IH. split.
      * intros (pre & endpoint & post & -> & Hpre & Hok).
        exists (p :: pre), endpoint, post. split; [done|]. split; [|done].
        intros q [->|Hq]%elem_of_cons; [by exists e|by apply Hpre].
      * intros (pre & endpoint & post & H & Hpre & Hok).
        destruct pre as [|q pre]; simplify_eq/=; [congruence|].
        exists pre, endpoint, post. split; [done|]. split; [|done].
        intros q' Hq'. by apply Hpre, list_elem_of_further.
Qed.

Lemma tryEndpoints_inr (endpoints : list string) (lastError err : option jsError) :
  tryEndpoints attempt endpoints lastError = inr err ->
  (∀ p, p ∈ endpoints -> ∃ e, attempt p = Throw e) ∧
  (endpoints = [] -> err = lastError) ∧
  (∀ p, last endpoints = Some p -> ∃ e, attempt p = Throw e ∧ err = Some e).
Proof.
  revert lastError. induction endpoints as [|p rest IH]; intros lastError.
  - simpl. intros [= <-]. split; [|done].
    intros p Hp. by apply elem_of_nil in Hp.
  - simpl. destruct (attempt p) as [b|e] eqn:Hp; [done|].
    intros H. destruct (IH _ H) as (Hall & Hnil & Hlast).
    split; [|split; [done|]].
    + intros q [->|Hq]%elem_of_cons; [by exists e|by apply Hall].
    + intros q Hq. destruct rest as [|r rest'].
      * simpl in Hq. injection Hq as <-. exists e. split; [done|].
        by apply Hnil.
      * apply Hlast. by rewrite <- Hq.
Qed.

End EndpointFacts.

Section ClientFacts.

Variable encodeURIComponent : string -> string.
Variable fetch : string -> fetchOutcome.
Variable baseUrl : string.

Local Abbreviation fetchEntity' := (fetchEntity encodeURIComponent fetch baseUrl).
Local Abbreviation fetchRelationships' :=
  (fetchRelationships encodeURIComponent fetch baseUrl).

Lemma fetchJson_Ok (path : string) (body : json) :
  fetchJson fetch baseUrl path = Ok body ↔
  fetch (baseUrl +:+ path) = JsonBody body.
Proof.
  unfold fetchJson. destruct (fetch _); split; intros H; by simplify_eq.
Qed.

Lemma fetchJson_Throw (path : string) :
  (∃ e, fetchJson fetch baseUrl path = Throw e) ↔
  ∀ body, fetch (baseUrl +:+ path) ≠ JsonBody body.
Proof.
  unfold fetchJson. destruct (fetch _) as [m|st tx b|body]; split.
  - done.
  - by eexists.
  - done.
  - by eexists.
  - by intros [e He].
  - intros H. by destruct (H body).
Qed.

(** X13: [fetchEntity] returns an entity exactly when one of its three
    endpoints answers with a JSON body, and the entity is then read from the
    body of the first endpoint that does; whatever that body is, reading it
    never fails, so later endpoints are not consulted. *)
Theorem fetchEntity_first_json_body (urn : string) (entity : DatahubObject.t) :
  fetchEntity' urn = inr entity ↔
  ∃ pre endpoint post body,
    entityAttempts encodeURIComponent urn = pre ++ endpoint :: post ∧
    (∀ p, p ∈ pre -> ∀ b, fetch (baseUrl +:+ p) ≠ JsonBody b) ∧
    fetch (baseUrl +:+ endpoint) = JsonBody body ∧
    entity = entityOfResponse urn body.
Proof.
  split.
  - unfold fetchEntity.
    destruct (tryEndpoints _ _ _) as [a|err] eqn:Htry; [|done].
    intros [= ->].
    apply tryEndpoints_inl in Htry as (pre & endpoint & post & Hl & Hpre & Hok).
    destruct (fetchJson fetch baseUrl endpoint) as [body|e] eqn:Hj; [|done].
    simpl in Hok. injection Hok as <-. apply fetchJson_Ok in Hj.
    exists pre, endpoint, post, body. split; [done|]. split; [|done].
    intros p Hp. apply fetchJson_Throw.
    destruct (Hpre p Hp) as [e He].
    destruct (fetchJson fetch baseUrl p) eqn:Hp'; [done|]. by eexists.
  - intros (pre & endpoint & post & body & Hl & Hpre & Hbody & ->).
    unfold fetchEntity.
    set (attempt := fun endpoint : string =>
           body ← fetchJson fetch baseUrl endpoint;
           Ok (entityOfResponse urn body)).
    assert (tryEndpoints attempt (entityAttempts encodeURIComponent urn) None
              = inl (entityOfResponse urn body)) as ->; [|done].
    apply tryEndpoints_inl. exists pre, endpoint, post.
    split; [done|]. split.
    + intros p Hp. unfold attempt.
      destruct (proj2 (fetchJson_Throw p) (Hpre p Hp)) as [e ->].
      by exists e.
    + unfold attempt. apply fetchJson_Ok in Hbody. by rewrite Hbody.
Qed.

(** X14: when [fetchEntity] gives up, the error lists all three endpoints
    but carries the status, endpoint and details of the last one only: those
    of the HTTP failure of [/entitiesV2/...], with the status text standing
    in for an empty body, or none of the three fields when that last request
    was rejected by the network. *)
Theorem fetchEntity_error_reports_last_endpoint (urn : string)
    (err : DatahubApiError.t) :
  fetchEntity' urn = inl err ->
  let lastEndpoint := "/entitiesV2/" +:+ encodeURIComponent urn in
  DatahubApiError.attemptedEndpoints err
    = Some (entityAttempts encodeURIComponent urn) ∧
  match fetch (baseUrl +:+ lastEndpoint) with
  | HttpFailure status statusText body =>
      DatahubApiError.status err = Some status ∧
      DatahubApiError.endpoint err = Some lastEndpoint ∧
      DatahubApiError.details err
        = Some (if String.eqb body "" then statusText else body)
  | Rejected _ =>
      DatahubApiError.status err = None ∧
      DatahubApiError.endpoint err = None ∧
      DatahubApiError.details err = None
  | JsonBody _ => False
  end.
Proof.
  intros H lastEndpoint.
  split; [exact (proj1 (fetchEntity_error _ _ _ _ _ H))|].
  unfold fetchEntity in H.
  destruct (tryEndpoints _ _ _) as [a|last] eqn:Htry; [done|].
  injection H as <-.
  apply tryEndpoints_inr in Htry as (_ & _ & Hlast).
  destruct (Hlast lastEndpoint eq_refl) as (e & He & ->).
  unfold fetchJson in He. fold lastEndpoint in He.
  destruct (fetch (baseUrl +:+ lastEndpoint)) as [m|st tx b|body];
    simpl in He; [| |done]; by injection He as <-.
Qed.

End ClientFacts.

Lemma fetchEntity_error_reports_last_endpoint_witness :
  ∃ err,
    fetchEntity sampleEncode deadFetch "http://gms" "urn:li:dataset:a" = inl err ∧
    DatahubApiError.attemptedEndpoints err
      = Some (entityAttempts sampleEncode "urn:li:dataset:a") ∧
    match deadFetch ("http://gms" +:+ "/entitiesV2/"
                       +:+ sampleEncode "urn:li:dataset:a") with
    | HttpFailure status statusText body =>
        DatahubApiError.status err = Some status ∧
        DatahubApiError.endpoint err
          = Some ("/entitiesV2/" +:+ sampleEncode "urn:li:dataset:a") ∧
        DatahubApiError.details err
          = Some (if String.eqb body "" then statusText else body)
    | Rejected _ =>
        DatahubApiError.status err = None ∧
        DatahubApiError.endpoint err = None ∧
        DatahubApiError.details err = None
    | JsonBody _ => False
    end.
Proof.
  eexists. split; [vm_compute; reflexivity|].
  apply (fetchEntity_error_reports_last_endpoint sampleEncode deadFetch
           "http://gms" "urn:li:dataset:a").
  vm_compute. reflexivity.
Defined.

(** ** Catalog client: reading a relationships response *)

Section RelationshipFacts.

Lemma bind_Ok {A B} (a : A) (k : A -> result B) : (Ok a ≫= k) = k a.
Proof. done. Qed.

Lemma bind_Throw {A B} (e : jsError) (k : A -> result B) :
  (Throw e ≫= k) = Throw e.
Proof. done. Qed.

Lemma mapM_Ok {A B} (f : A -> result B) (l : list A) (ys : list B) :
  mapM f l = Ok ys ↔ Forall2 (fun x y => f x = Ok y) l ys.
Proof.
  revert ys. induction l as [|x l IH]; intros ys; simpl.
  - split; [intros [= <-]; constructor|by inversion 1].
  - destruct (f x) as [y|e] eqn:Hx; simpl.
    + destruct (mapM f l) as [ys'|e] eqn:Hl; simpl.
      * split.
        -- intros [= <-]. constructor; [done|]. by apply IH.
        -- inversion 1 as [|? y' ? ys'' Hy Hys]; subst.
           apply IH in Hys. congruence.
      * split; [done|]. inversion 1 as [|? y' ? ys'' Hy Hys]; subst.
        by apply IH in Hys.
    + split; [done|]. inversion 1; congruence.
Qed.

Lemma mapM_Throw {A B} (f : A -> result B) (l : list A) :
  (∃ e, mapM f l = Throw e) ↔ ∃ x e, x ∈ l ∧ f x = Throw e.
Proof.
  induction l as [|x l IH]; simpl.
  - split; [by intros [e He]|]. intros (x & e & Hx & _).
    by apply elem_of_nil in Hx.
  - destruct (f x) as [y|e] eqn:Hx; simpl.
    + destruct (mapM f l) as [ys'|e] eqn:Hl; simpl.
      * split; [by intros [e He]|].
        intros (x' & e & [->|Hx']%elem_of_cons & He); [congruence|].
        destruct (proj2 IH) as [e' He']; [by exists x', e|done].
      * split; [|by eexists]. intros _.
        destruct (proj1 IH) as (x' & e' & Hx' & He'); [by eexists|].
        exists x', e'. split; [by apply list_elem_of_further|done].
    + split; [|by eexists]. intros _. exists x, e.
      split; [apply list_elem_of_here|done].
Qed.

Lemma firstUrnAmong_spec (item : json) (keys : list string) (u : string) :
  firstUrnAmong item keys = Some u ->
  JsString.startsWith "urn:li:" u = true ∧
  ∃ key, key ∈ keys ∧ Js.get item key = Some (JStr u).
Proof.
  induction keys as [|key keys IH]; [done|].
  change (firstUrnAmong item (key :: keys)) with
    (match Js.get item key with
     | Some (JStr value) =>
         if JsString.startsWith "urn:li:" value then Some value
         else firstUrnAmong item keys
     | _ => firstUrnAmong item keys
     end).
  assert (firstUrnAmong item keys = Some u ->
          JsString.startsWith "urn:li:" u = true ∧
          ∃ key0, key0 ∈ key :: keys ∧ Js.get item key0 = Some (JStr u)) as IH'.
  { intros H. destruct (IH H) as (Hp & k & Hk & Hget).
    split; [done|]. exists k. split; [by apply list_elem_of_further|done]. }
  destruct (Js.get item key) as [[| | |s| |]|] eqn:Hget; try exact IH'.
  destruct (JsString.startsWith "urn:li:" s) eqn:Hs; [|exact IH'].
  intros [= <-]. split; [done|]. exists key.
  split; [apply list_elem_of_here|done].
Qed.

Lemma isUrn_nonempty (u : string) :
  JsString.startsWith "urn:li:" u = true -> String.eqb u "" = false.
Proof. by destruct u. Qed.

(** The callback of the [map] in [fetchRelationships], on an item that is
    not [null]. *)
Lemma related_item_of (item : json) :
  item ≠ JNull ->
  (relatedUrn ← extractRelatedUrn item;
   Ok (match relatedUrn with
       | Some u =>
           if String.eqb u "" then None
           else Some {| urn := u; type := extractRelationshipType item |}
       | None => None
       end))
  = Ok (match firstUrnAmong item candidateKeys with
        | Some u => Some {| urn := u; type := extractRelationshipType item |}
        | None => None
        end).
Proof.
  intros Hitem. unfold extractRelatedUrn.
  assert (getOrThrow item "entity" = Ok (Js.get item "entity")) as ->
    by (by destruct item).
  unfold mbind, result_bind.
  change (firstUrnAmong item _) with (firstUrnAmong item candidateKeys).
  destruct (firstUrnAmong item candidateKeys) as [u|] eqn:Hu; [|done].
  apply firstUrnAmong_spec in Hu as [Hp _].
  by rewrite (isUrn_nonempty u Hp).
Qed.

Lemma relationshipsOfResponse_Ok (response : json) (out : list RelatedItem) :
  relationshipsOfResponse response = Ok out ->
  ∃ items,
    extractRelationshipItems response = Ok items ∧ JNull ∉ items ∧
    out = omap (M := list)
            (fun item =>
               match firstUrnAmong item candidateKeys with
               | Some u =>
                   Some {| urn := u; type := extractRelationshipType item |}
               | None => None
               end) items.
Proof.
  unfold relationshipsOfResponse.
  destruct (extractRelationshipItems response) as [items|e]; [|done].
  rewrite bind_Ok.
  match goal with |- context [mapM ?f items] => set (g := f) end.
  destruct (mapM g items) as [mapped|e] eqn:Hm; [|done].
  rewrite bind_Ok. intros [= <-]. exists items. split; [done|].
  apply mapM_Ok in Hm.
  assert (JNull ∉ items) as Hnull.
  { intros Hin. clear -Hm Hin. induction Hm as [|x y l l' Hxy _ IH].
    - by apply elem_of_nil in Hin.
    - apply elem_of_cons in Hin as [<-|Hin]; [done|by apply IH]. }
  split; [done|].
  clear Hnull. induction Hm as [|x y l l' Hxy _ IH]; [done|].
  assert (x ≠ JNull) as Hx by (intros ->; done).
  unfold g in Hxy. rewrite (related_item_of x Hx) in Hxy.
  injection Hxy as <-.
  change (omap ?f (?a :: ?r)) with
    (match f a with Some z => z :: omap f r | None => omap f r end).
  by rewrite IH.
Qed.

Variable encodeURIComponent : string -> string.
Variable fetch : string -> fetchOutcome.
Variable baseUrl : string.

(** X15: a successful [fetchRelationships] returns, for the first endpoint
    whose answer can be read, one item per response item that has a string
    starting with [urn:li:] under entity, urn, entityUrn or relatedUrn (the
    first such key wins), in response order, typed by
    [extractRelationshipType]; items without such a field are dropped.  In
    particular every returned item names a [urn:li:] identifier. *)
Theorem fetched_relationships_are_urn_items (centerUrn : string)
    (direction : Direction) (out : list RelatedItem) :
  fetchRelationships encodeURIComponent fetch baseUrl centerUrn direction
    = inr out ->
  (∃ endpoint body items,
     endpoint ∈ relationshipAttempts encodeURIComponent centerUrn direction ∧
     fetch (baseUrl +:+ endpoint) = JsonBody body ∧
     extractRelationshipItems body = Ok items ∧
     map urn out
       = omap (M := list) (fun item => firstUrnAmong item candidateKeys) items ∧
     map type out
       = map extractRelationshipType
           (filter (fun item => is_Some (firstUrnAmong item candidateKeys))
                   items)) ∧
  ∀ item, item ∈ out -> JsString.startsWith "urn:li:" (urn item) = true.
Proof.
  unfold fetchRelationships.
  destruct (tryEndpoints _ _ _) as [a|err] eqn:Htry; [|done].
  intros [= ->].
  apply tryEndpoints_inl in Htry as (pre & endpoint & post & Hl & _ & Hok).
  unfold fetchJson in Hok.
  destruct (fetch (baseUrl +:+ endpoint)) as [m|st tx b|body] eqn:Hf;
    [done|done|]. simpl in Hok.
  apply relationshipsOfResponse_Ok in Hok as (items & Hitems & _ & ->).
  assert (∀ l : list json,
            map urn (omap (M := list)
              (fun item =>
                 match firstUrnAmong item candidateKeys with
                 | Some u =>
                     Some {| urn := u; type := extractRelationshipType item |}
                 | None => None
                 end) l)
            = omap (M := list) (fun item => firstUrnAmong item candidateKeys) l)
    as Hurn.
  { induction l as [|x l IH]; [done|].
    change (omap ?f (?a :: ?r)) with
      (match f a with Some z => z :: omap f r | None => omap f r end).
    rewrite <- IH. by destruct (firstUrnAmong x candidateKeys). }
  split.
  - exists endpoint, body, items. split.
    { rewrite Hl. apply elem_of_app. right. apply list_elem_of_here. }
    split; [done|]. split; [done|]. split; [apply Hurn|].
    clear. induction items as [|x l IH]; [done|].
    change (omap ?f (?a :: ?r)) with
      (match f a with Some z => z :: omap f r | None => omap f r end).
    rewrite filter_cons.
    destruct (firstUrnAmong x candidateKeys) as [u|] eqn:Hu.
    + destruct (decide (is_Some (Some u))) as [_|Hn]; [|by destruct Hn].
      cbn beta iota. rewrite !map_cons. by rewrite IH.
    + destruct (decide (is_Some (@None string))) as [[? ?]|_]; [done|].
      by rewrite IH.
  - intros item Hitem.
    assert (urn item ∈ omap (M := list)
              (fun item => firstUrnAmong item candidateKeys) items) as Hin.
    { rewrite <- Hurn. apply list_elem_of_fmap. by exists item. }
    apply list_elem_of_omap in Hin as (x & _ & Hx).
    by apply firstUrnAmong_spec in Hx as [Hp _].
Qed.

(** X16: a [null] among the items of a response makes the whole endpoint
    attempt fail, where any other item without an identifier is skipped: the
    response is read successfully exactly when none of its items is
    [null]. *)
Theorem null_item_fails_the_attempt (response : json) (items : list json) :
  extractRelationshipItems response = Ok items ->
  (JNull ∈ items -> ∃ e, relationshipsOfResponse response = Throw e) ∧
  (JNull ∉ items ->
   ∃ out, relationshipsOfResponse response = Ok out ∧
          (length out <= length items)%nat).
Proof.
  intros Hitems. split.
  - intros Hnull. unfold relationshipsOfResponse.
    rewrite Hitems, bind_Ok.
    match goal with |- context [mapM ?f items] => set (g := f) end.
    destruct (proj2 (mapM_Throw g items)) as [e ->];
      [|rewrite bind_Throw; by exists e].
    exists JNull. eexists. split; [done|]. reflexivity.
  - intros Hnull.
    destruct (relationshipsOfResponse response) as [out|e] eqn:Hr.
    + exists out. split; [done|].
      apply relationshipsOfResponse_Ok in Hr as (items' & Hi & _ & ->).
      rewrite Hitems in Hi. injection Hi as <-.
      clear. induction items as [|x l IH]; [done|].
      change (omap ?f (?a :: ?r)) with
        (match f a with Some z => z :: omap f r | None => omap f r end).
      cbn beta.
      destruct (firstUrnAmong x candidateKeys); rewrite ?length_cons; lia.
    + exfalso. unfold relationshipsOfResponse in Hr.
      rewrite Hitems, bind_Ok in Hr.
      match type of Hr with context [mapM ?f items] => set (g := f) in Hr end.
      destruct (mapM g items) as [mapped|e'] eqn:Hm; [done|].
      destruct (proj1 (mapM_Throw g items)) as (x & e0 & Hx & He0);
        [by eexists|].
      assert (x ≠ JNull) as Hxn by (intros ->; done).
      unfold g in He0. by rewrite (related_item_of x Hxn) in He0.
Qed.

End RelationshipFacts.

Lemma null_item_fails_the_attempt_witness :
  (JNull ∈ [JObj [("urn", JStr "urn:li:dataset:a")]; JNull] ->
   ∃ e, relationshipsOfResponse
          (JObj [("entities",
                  JArr [JObj [("urn", JStr "urn:li:dataset:a")]; JNull])])
        = Throw e) ∧
  (JNull ∉ [JObj [("urn", JStr "urn:li:dataset:a")]; JNull] ->
   ∃ out, relationshipsOfResponse
            (JObj [("entities",
                    JArr [JObj [("urn", JStr "urn:li:dataset:a")]; JNull])])
          = Ok out ∧ (length out <= 2)%nat).
Proof.
  apply (null_item_fails_the_attempt
           (JObj [("entities",
                   JArr [JObj [("urn", JStr "urn:li:dataset:a")]; JNull])])).
  reflexivity.
Defined.

Lemma fetched_relationships_are_urn_items_witness :
  JsString.startsWith "urn:li:"
    (urn {| urn := "urn:li:dataJob:job1"; type := "Produces" |}) = true.
Proof.
  refine (proj2 (fetched_relationships_are_urn_items sampleEncode sampleFetch
                   "/gms" sampleCenter INCOMING
                   [ {| urn := "urn:li:dataJob:job1"; type := "Produces" |} ]
                   _) _ _).
  - vm_compute. reflexivity.
  - apply list_elem_of_here.
Defined.

(** ** Neighborhood builder: invariants of the component state *)

Section StateFacts.

Variable encodeURIComponent : string -> string.
Variable gmsBaseUrl : string.

Lemma fetchEntity_derived (fetch : string -> fetchOutcome) (u : string)
    (e : DatahubObject.t) :
  fetchEntity encodeURIComponent fetch gmsBaseUrl u = inr e ->
  DatahubObject.type e = parseUrnType (DatahubObject.id e) ∧
  DatahubObject.name e = parseUrnName (DatahubObject.id e).
Proof.
  unfold fetchEntity.
  destruct (tryEndpoints _ _ _) as [a|err] eqn:Htry; [|done].
  intros [= ->].
  apply tryEndpoints_inl in Htry as (pre & endpoint & post & _ & _ & Hok).
  destruct (fetchJson fetch gmsBaseUrl endpoint) as [body|e']; [|done].
  rewrite bind_Ok in Hok. injection Hok as <-. done.
Qed.

Lemma resolveNeighbor_derived (fetch : string -> fetchOutcome) (u : string) :
  let e := resolveNeighbor encodeURIComponent fetch gmsBaseUrl u in
  DatahubObject.type e = parseUrnType (DatahubObject.id e) ∧
  DatahubObject.name e = parseUrnName (DatahubObject.id e).
Proof.
  unfold resolveNeighbor.
  destruct (fetchEntity _ _ _ _) as [err|e] eqn:He; [done|].
  by apply fetchEntity_derived in He.
Qed.

Lemma merged_wellFiled (entities : list DatahubObject.t)
    (cache : gmap string DatahubObject.t) :
  (∀ e, e ∈ entities ->
     DatahubObject.type e = parseUrnType (DatahubObject.id e) ∧
     DatahubObject.name e = parseUrnName (DatahubObject.id e)) ->
  wellFiled cache ->
  wellFiled
    (fold_left (fun acc entity => <[DatahubObject.id entity := entity]> acc)
       entities cache).
Proof.
  revert cache. induction entities as [|x l IH]; intros cache Hl Hc; [done|].
  simpl. apply IH.
  - intros e He. by apply Hl, list_elem_of_further.
  - intros k e. destruct (decide (DatahubObject.id x = k)) as [<-|Hne].
    + rewrite lookup_insert_eq. intros [= <-].
      split; [done|]. apply Hl, list_elem_of_here.
    + rewrite lookup_insert_ne by done. apply Hc.
Qed.

Lemma merged_keeps_keys (entities : list DatahubObject.t)
    (cache : gmap string DatahubObject.t) (k : string) :
  is_Some (cache !! k) ->
  is_Some
    (fold_left (fun acc entity => <[DatahubObject.id entity := entity]> acc)
       entities cache !! k).
Proof.
  revert cache. induction entities as [|x l IH]; intros cache Hk; [done|].
  simpl. apply IH.
  destruct (decide (DatahubObject.id x = k)) as [<-|Hne].
  - rewrite lookup_insert_eq. by eexists.
  - by rewrite lookup_insert_ne.
Qed.

(** In a stack without repetition the element before the last differs from
    the last. *)
Lemma previousOfStack_distinct (stack : list string) (c : string) :
  NoDup stack -> last stack = Some c -> previousOfStack stack ≠ Some c.
Proof.
  intros Hnd Hlast Hprev. unfold previousOfStack in Hprev.
  destruct (Z.ltb_spec 1 (Z.of_nat (length stack))) as [Hlen|]; [|done].
  replace (Z.of_nat (length stack) - 2)
    with (Z.of_nat (length stack - 2)) in Hprev by lia.
  rewrite at_lookup in Hprev.
  rewrite last_lookup in Hlast.
  pose proof (NoDup_lookup _ _ _ _ Hnd Hprev Hlast) as Heq.
  lia.
Qed.

Lemma advance_elem (s : list string) (t : string) (m : NavigationMode)
    (i : option Z) (x : string) :
  x ∈ getNextNavigationStack s t m i -> x ∈ s ∨ x = t.
Proof.
  destruct (advance_cases s t m i) as [->|[(l1 & l2 & -> & ->)|[Hn ->]]].
  - intros ->%list_elem_of_singleton. by right.
  - intros [H| ->%list_elem_of_singleton]%elem_of_app; [|by right].
    left. apply elem_of_app. by left.
  - intros [H| ->%list_elem_of_singleton]%elem_of_app; [by left|by right].
Qed.

Lemma loadNeighborhood_coherent (fetch : string -> fetchOutcome)
    (outgoingRejectsFirst : bool) (state : AppState.t) (u : string)
    (mode : option NavigationMode) (breadcrumbIndex : option Z) :
  coherent state ->
  coherent (loadNeighborhood encodeURIComponent fetch gmsBaseUrl
              outgoingRejectsFirst state u mode breadcrumbIndex).
Proof.
  intros (Hnd & Hcenter & Hhood & Hcached & Hfiled).
  unfold loadNeighborhood.
  destruct (String.eqb (Trim.trim u) ""); [done|].
  destruct (buildNeighborhood _ _ _ _ _ _ _ _) as [commit|error] eqn:Hb;
    [|done].
  unfold buildNeighborhood in Hb.
  destruct (fetchEntity encodeURIComponent fetch gmsBaseUrl (Trim.trim u))
    as [err|centerEntity] eqn:Hc; [done|].
  unfold await in Hb. rewrite bind_Ok in Hb.
  destruct (fetchBothDirections _ _ _ _ _) as [[incoming outgoing]|err];
    [|done].
  rewrite bind_Ok in Hb. injection Hb as <-.
  set (c := DatahubObject.id centerEntity).
  unfold coherent, assembleNeighborhood. cbn [AppState.navStack
    AppState.centerId AppState.neighborhood AppState.entitiesByUrn
    nextEntities nextNeighborhood nextNavStack nextCenterId
    Neighborhood.centerUrn Neighborhood.previousUrn].
  fold c.
  set (stack := getNextNavigationStack (AppState.navStack state) c
                  (default node mode) breadcrumbIndex).
  assert (NoDup stack) as Hnd' by (by apply advance_NoDup).
  assert (last stack = Some c) as Hlast' by apply advance_last.
  split; [done|]. split; [done|]. split.
  { split; [done|]. split; [done|]. by apply previousOfStack_distinct. }
  split.
  - intros x Hx. apply merged_keeps_keys.
    destruct (decide (c = x)) as [<-|Hne].
    + rewrite lookup_insert_eq. by eexists.
    + rewrite lookup_insert_ne by done. apply Hcached.
      by destruct (advance_elem _ _ _ _ _ Hx).
  - apply merged_wellFiled.
    + intros e (x & -> & _)%list_elem_of_fmap. apply resolveNeighbor_derived.
    + intros k e. destruct (decide (c = k)) as [<-|Hne].
      * rewrite lookup_insert_eq. intros [= <-]. split; [done|].
        by apply fetchEntity_derived in Hc.
      * rewrite lookup_insert_ne by done. apply Hfiled.
Qed.

Lemma run_coherent (actions : list Action) (state : AppState.t) :
  coherent state ->
  coherent (run encodeURIComponent gmsBaseUrl actions state).
Proof.
  unfold run. revert state.
  induction actions as [|a actions IH]; intros state Hs; [done|].
  simpl. by apply IH, loadNeighborhood_coherent.
Qed.



End StateFacts.


(** ** Neighborhood builder: aspect labels and edge endpoints *)

Section AspectLabelFacts.

Variable centerId : string.

Local Abbreviation addLabel :=
  (fun (label : string) (acc : gmap string (list string))
       (aspectUrn : string) =>
     if String.eqb aspectUrn centerId then acc
     else
       let existingLabels := default [] (acc !! aspectUrn) in
       if existsb (String.eqb label) existingLabels then acc
       else <[aspectUrn := existingLabels ++ [label]]> acc).

Lemma addLabel_lookup (label : string) (urns : list string)
    (acc : gmap string (list string)) (u : string) :
  fold_left (addLabel label) urns acc !! u
  = if decide (u ∈ urns ∧ u ≠ centerId ∧ label ∉ default [] (acc !! u))
    then Some (default [] (acc !! u) ++ [label])
    else acc !! u.
Proof.
  revert acc. induction urns as [|x urns IH]; intros acc.
  - cbn [fold_left]. case_decide as H; [|done]. destruct H as [H _].
    by apply elem_of_nil in H.
  - cbn [fold_left]. rewrite IH. clear IH. cbn beta.
    destruct (String.eqb_spec x centerId) as [->|Hx].
    { case_decide as Ha; case_decide as Hb; try done; exfalso.
      - destruct Ha as (H1 & H2 & H3). apply Hb.
        split; [by apply list_elem_of_further|done].
      - destruct Hb as (H1 & H2 & H3).
        apply elem_of_cons in H1 as [->|H1]; [done|]. by apply Ha. }
    cbn zeta.
    change (existsb (String.eqb label) ?e) with (JsSet.has e label).
    destruct (JsSet.has (default [] (acc !! x)) label) eqn:Hhas.
    { apply JsSet_has_spec in Hhas.
      case_decide as Ha; case_decide as Hb; try done; exfalso.
      - destruct Ha as (H1 & H2 & H3). apply Hb.
        split; [by apply list_elem_of_further|done].
      - destruct Hb as (H1 & H2 & H3).
        apply elem_of_cons in H1 as [->|H1]; [done|]. by apply Ha. }
    apply JsSet_has_false in Hhas.
    destruct (decide (x = u)) as [->|Hne].
    + rewrite lookup_insert_eq. cbn [default from_option Datatypes.id].
      case_decide as Ha; case_decide as Hb; try done; exfalso.
      * destruct Ha as (H1 & H2 & H3). apply H3, elem_of_app.
        right. apply list_elem_of_here.
      * destruct Ha as (H1 & H2 & H3). apply H3, elem_of_app.
        right. apply list_elem_of_here.
      * apply Hb. split; [apply list_elem_of_here|done].
    + rewrite lookup_insert_ne by done.
      case_decide as Ha; case_decide as Hb; try done; exfalso.
      * destruct Ha as (H1 & H2 & H3). apply Hb.
        split; [by apply list_elem_of_further|done].
      * destruct Hb as (H1 & H2 & H3).
        apply elem_of_cons in H1 as [->|H1]; [done|]. by apply Ha.
Qed.

Local Abbreviation addGroup :=
  (fun (acc : gmap string (list string)) (group : string * list string) =>
     let '(label, urns) := group in fold_left (addLabel label) urns acc).

Lemma addGroups_lookup (groups : list (string * list string))
    (acc : gmap string (list string)) (u : string) :
  fold_left addGroup groups acc !! u
  = if decide (u = centerId) then acc !! u
    else
      match keepFirstBy (fun l => l) (default [] (acc !! u))
              (map fst (filter (fun group => u ∈ group.2) groups)) with
      | [] => acc !! u
      | new => Some (default [] (acc !! u) ++ new)
      end.
Proof.
  revert acc. induction groups as [|[label urns] groups IH]; intros acc.
  - cbn [fold_left filter list_filter map keepFirstBy]. by case_decide.
  - cbn [fold_left]. rewrite IH. clear IH. cbn beta iota.
    rewrite addLabel_lookup.
    destruct (decide (u = centerId)) as [Hc|Hc].
    { case_decide as H; [|done]. by destruct H as (_ & H & _). }
    rewrite filter_cons. cbn [snd].
    destruct (decide (u ∈ urns)) as [Hin|Hin].
    + rewrite map_cons. cbn [fst keepFirstBy].
      destruct (JsSet.has (default [] (acc !! u)) label) eqn:Hhas.
      * apply JsSet_has_spec in Hhas.
        case_decide as H; [|done]. by destruct H as (_ & _ & H).
      * apply JsSet_has_false in Hhas.
        case_decide as H; [|by destruct H].
        cbn [default from_option Datatypes.id].
        destruct (keepFirstBy _ _ _) as [|l ls]; [done|].
        by rewrite <- app_assoc.
    + case_decide as H; [|done]. by destruct H as (H & _ & _).
Qed.

Lemma collectAspectLabels_lookup (groups : list (string * list string))
    (u : string) :
  collectAspectLabels centerId groups !! u
  = if decide (u = centerId) then None
    else match labelsOf groups u with [] => None | labels => Some labels end.
Proof.
  unfold collectAspectLabels. rewrite addGroups_lookup.
  rewrite lookup_empty. cbn [default]. unfold labelsOf, firstOccurrences.
  case_decide; [done|]. by destruct (keepFirstBy _ _ _).
Qed.

Lemma labelsOf_elem (groups : list (string * list string)) (u l : string) :
  l ∈ labelsOf groups u ↔ ∃ urns, (l, urns) ∈ groups ∧ u ∈ urns.
Proof.
  unfold labelsOf. rewrite firstOccurrences_elem. split.
  - intros ([l' urns] & -> & [H1 H2]%list_elem_of_filter)%list_elem_of_fmap.
    by exists urns.
  - intros (urns & H1 & H2). apply list_elem_of_fmap. exists (l, urns).
    split; [done|]. by apply list_elem_of_filter.
Qed.

(** X19: after the aspect groups of the center are collected, an identifier
    has labels exactly when it is not the center and some group lists it,
    and its labels are then the labels of the groups that list it, in group
    order and each once; so a recorded label list is never empty and never
    repeats a label. *)
Theorem aspect_labels_by_urn (groups : list (string * list string))
    (u : string) :
  collectAspectLabels centerId groups !! u
    = (if decide (u = centerId) then None
       else match labelsOf groups u with
            | [] => None
            | labels => Some labels
            end) ∧
  (∀ labels, collectAspectLabels centerId groups !! u = Some labels ->
     u ≠ centerId ∧ labels ≠ [] ∧ NoDup labels ∧
     ∀ l, l ∈ labels ↔ ∃ urns, (l, urns) ∈ groups ∧ u ∈ urns) ∧
  (∀ l urns, (l, urns) ∈ groups -> u ∈ urns -> u ≠ centerId ->
     ∃ labels, collectAspectLabels centerId groups !! u = Some labels ∧
               l ∈ labels).
Proof.
  split; [apply collectAspectLabels_lookup|]. split.
  - intros labels. rewrite collectAspectLabels_lookup.
    case_decide as Hc; [done|].
    destruct (labelsOf groups u) as [|l0 ls] eqn:Hl; [done|].
    intros [= <-]. split; [done|]. split; [done|]. split.
    + rewrite <- Hl. apply firstOccurrences_NoDup.
    + intros l. rewrite <- Hl. apply labelsOf_elem.
  - intros l urns Hg Hu Hc. rewrite collectAspectLabels_lookup.
    case_decide; [done|].
    assert (l ∈ labelsOf groups u) as Hl
      by (apply labelsOf_elem; by exists urns).
    destruct (labelsOf groups u) as [|l0 ls]; [by apply elem_of_nil in Hl|].
    by eexists.
Qed.

End AspectLabelFacts.

Section GroupMemberFacts.

Lemma JsMap_set_elem {V} (m : list (string * V)) (k : string) (v : V)
    (p : string * V) :
  p ∈ JsMap.set m k v -> p ∈ m ∨ p = (k, v).
Proof.
  induction m as [|[k' v'] m IH]; simpl.
  - intros ->%list_elem_of_singleton. by right.
  - destruct (String.eqb_spec k' k) as [->|_].
    + intros [->|H]%elem_of_cons; [by right|].
      left. by apply list_elem_of_further.
    + intros [->|H]%elem_of_cons; [left; apply list_elem_of_here|].
      destruct (IH H) as [H'|H']; [|by right].
      left. by apply list_elem_of_further.
Qed.

Lemma groupsOf_elem (ps : list (string * json)) (label : string)
    (urns : list string) :
  (label, urns) ∈ groupsOf ps ->
  ∃ v, (label, v) ∈ ps ∧ urns = extractUrnsFromJson v [] ∧ urns ≠ [].
Proof.
  induction ps as [|[l v] ps IH] using rev_ind.
  - intros H. by apply elem_of_nil in H.
  - rewrite groupsOf_snoc. unfold addAspectGroup.
    assert ((label, urns) ∈ groupsOf ps ->
            ∃ v0, (label, v0) ∈ ps ++ [(l, v)] ∧
                  urns = extractUrnsFromJson v0 [] ∧ urns ≠ []) as Hold.
    { intros H. destruct (IH H) as (v0 & H0 & H1 & H2). exists v0.
      split; [|done]. apply elem_of_app. by left. }
    destruct (Z.ltb_spec 0 (Z.of_nat (length (extractUrnsFromJson v []))))
      as [Hlen|Hlen]; [|done].
    intros [H|[= -> ->]]%JsMap_set_elem; [by apply Hold|].
    exists v. split.
    + apply elem_of_app. right. apply list_elem_of_here.
    + split; [done|]. intros E. rewrite E in Hlen. simpl in Hlen. lia.
Qed.

(** Every member of an aspect group is found by the scan of the payload. *)
Lemma aspect_group_member_scanned (raw : json) (label : string)
    (urns : list string) (u : string) :
  (label, urns) ∈ extractAspectUrnGroups raw -> u ∈ urns ->
  u ∈ extractUrnsFromJson raw [].
Proof.
  intros Hg Hu.
  destruct (aspect_groups_inv raw) as (fields & aspects & -> & Ha & Hshape).
  { intros E. rewrite E in Hg. by apply elem_of_nil in Hg. }
  rewrite (extractAspectUrnGroups_labelled fields aspects Ha) in Hg.
  apply groupsOf_elem in Hg as (v & Hv & -> & _).
  apply scan_elem in Hu as [Hu Hurn]. apply scan_elem. split; [|done].
  apply (stringValues_field fields "aspects" aspects);
    [by apply lookupField_elem|].
  destruct Hshape as [[items ->]|[entries ->]]; simpl in Hv.
  - apply labelledFrom_elem in Hv as (k & x & Hk & Hx).
    unfold labelArrayAspect in Hx. destruct (isRecord x); [|done].
    injection Hx as _ ->.
    apply (stringValues_item items v); [|done].
    by eapply list_elem_of_lookup_2.
  - apply labelledFrom_elem in Hv as (k & [key x] & Hk & Hx).
    unfold labelEntryAspect in Hx. simpl in Hx.
    destruct (isRecord x); [|done]. injection Hx as _ ->.
    apply (stringValues_field entries key v); [|done].
    by eapply list_elem_of_lookup_2.
Qed.

Lemma ofList_elem (l : list string) (x : string) : x ∈ JsSet.ofList l ↔ x ∈ l.
Proof. by rewrite ofList_firstOccurrences, firstOccurrences_elem. Qed.

End GroupMemberFacts.

Section EndpointsOfEdges.

Variable encodeURIComponent : string -> string.
Variable fetch : string -> fetchOutcome.
Variable gmsBaseUrl : string.
Variable outgoingRejectsFirst : bool.

(** X20: every published edge has the center at one end and a neighbor at
    the other: it comes from a parent into the center, or goes from the
    center to a dependency, or is the single synthetic edge from the
    previous identifier (distinct from the center) into the center. *)
Theorem published_edges_join_center_and_neighbors
    (state : AppState.t) (u : string) (mode : option NavigationMode)
    (breadcrumbIndex : option Z) (centerEntity : DatahubObject.t)
    (incoming outgoing : list RelatedItem) :
  Trim.trim u ≠ "" ->
  fetchEntity encodeURIComponent fetch gmsBaseUrl (Trim.trim u)
    = inr centerEntity ->
  fetchRelationships encodeURIComponent fetch gmsBaseUrl
    (DatahubObject.id centerEntity) INCOMING = inr incoming ->
  fetchRelationships encodeURIComponent fetch gmsBaseUrl
    (DatahubObject.id centerEntity) OUTGOING = inr outgoing ->
  ∃ published : Neighborhood.t,
    AppState.neighborhood
      (loadNeighborhood encodeURIComponent fetch gmsBaseUrl
         outgoingRejectsFirst state u mode breadcrumbIndex)
      = Some published ∧
    let centerId := DatahubObject.id centerEntity in
    ∀ edge, edge ∈ Neighborhood.edges published ->
      (RelationshipEdge.targetId edge = centerId ∧
       RelationshipEdge.sourceId edge ∈ Neighborhood.parentUrns published) ∨
      (RelationshipEdge.sourceId edge = centerId ∧
       RelationshipEdge.targetId edge
         ∈ Neighborhood.dependencyUrns published) ∨
      (∃ p, Neighborhood.previousUrn published = Some p ∧ p ≠ centerId ∧
            edge = RelationshipEdge.mk p centerId "previous_selection").
Proof.
  intros Hurn Hc Hi Ho.
  rewrite (loadNeighborhood_success _ _ _ _ _ _ _ _ _ _ _ Hurn Hc Hi Ho).
  eexists. split; [reflexivity|].
  cbn [nextNeighborhood assembleNeighborhood Neighborhood.edges
       Neighborhood.parentUrns Neighborhood.dependencyUrns
       Neighborhood.previousUrn].
  set (centerId := DatahubObject.id centerEntity).
  intros edge Hedge.
  rewrite dedupeEdges_keepFirst in Hedge.
  apply keepFirstBy_elem in Hedge as [Hedge _].
  unfold discoveredEdges in Hedge.
  rewrite !elem_of_app in Hedge.
  destruct Hedge as [[Hin|[Hout|Hjson]]|Hprev].
  - left. apply list_elem_of_fmap in Hin as (item & -> & Hitem).
    split; [done|]. apply ofList_elem, list_elem_of_fmap. by exists item.
  - right. left. apply list_elem_of_fmap in Hout as (item & -> & Hitem).
    split; [done|]. apply ofList_elem, elem_of_app. left.
    apply list_elem_of_fmap. by exists item.
  - right. left. apply list_elem_of_fmap in Hjson as (d & -> & Hd).
    split; [done|]. apply ofList_elem, elem_of_app. by right.
  - right. right. unfold previousEdge in Hprev.
    destruct (previousOfStack _) as [p|] eqn:Hp;
      [|by apply elem_of_nil in Hprev].
    destruct (previousIsDistinct (Some p) centerId) eqn:Hd;
      [|by apply elem_of_nil in Hprev].
    destruct (hasExistingPreviousLink _ _ _);
      [by apply elem_of_nil in Hprev|].
    apply list_elem_of_singleton in Hprev as ->.
    exists p. split; [done|]. split; [|done].
    simpl in Hd. apply andb_true_iff in Hd as [_ Hd].
    intros ->. by rewrite String.eqb_refl in Hd.
Qed.

(** X21: an identifier with aspect labels is always a dependency of the
    center, never the center itself; its labels are those of the aspect
    groups that list it, and the published edges include one with the key of
    the edge from the center to it typed [aspect:] followed by the labels
    joined with a bar. *)
Theorem labelled_urns_are_dependencies
    (state : AppState.t) (u : string) (mode : option NavigationMode)
    (breadcrumbIndex : option Z) (centerEntity : DatahubObject.t)
    (incoming outgoing : list RelatedItem) :
  Trim.trim u ≠ "" ->
  fetchEntity encodeURIComponent fetch gmsBaseUrl (Trim.trim u)
    = inr centerEntity ->
  fetchRelationships encodeURIComponent fetch gmsBaseUrl
    (DatahubObject.id centerEntity) INCOMING = inr incoming ->
  fetchRelationships encodeURIComponent fetch gmsBaseUrl
    (DatahubObject.id centerEntity) OUTGOING = inr outgoing ->
  ∃ published : Neighborhood.t,
    AppState.neighborhood
      (loadNeighborhood encodeURIComponent fetch gmsBaseUrl
         outgoingRejectsFirst state u mode breadcrumbIndex)
      = Some published ∧
    let centerId := DatahubObject.id centerEntity in
    ∀ d labels,
      Neighborhood.aspectLabelsByUrn published !! d = Some labels ->
      d ≠ centerId ∧
      d ∈ Neighborhood.dependencyUrns published ∧
      labels
        = labelsOf (extractAspectUrnGroups (DatahubObject.raw centerEntity)) d ∧
      labels ≠ [] ∧
      ∃ edge, edge ∈ Neighborhood.edges published ∧
        edgeKey edge
          = edgeKey (RelationshipEdge.mk centerId d
                       ("aspect:" +:+ JsString.join "|" labels)).
Proof.
  intros Hurn Hc Hi Ho.
  rewrite (loadNeighborhood_success _ _ _ _ _ _ _ _ _ _ _ Hurn Hc Hi Ho).
  eexists. split; [reflexivity|].
  cbn [nextNeighborhood assembleNeighborhood Neighborhood.edges
       Neighborhood.aspectLabelsByUrn Neighborhood.dependencyUrns].
  set (centerId := DatahubObject.id centerEntity).
  intros d labels Hlabels.
  pose proof Hlabels as Hlookup.
  rewrite collectAspectLabels_lookup in Hlabels.
  destruct (decide (d = centerId)) as [|Hne]; [done|].
  destruct (labelsOf _ d) as [|l0 ls] eqn:Hl; [done|].
  injection Hlabels as <-.
  assert (d ∈ filter (fun candidateUrn => candidateUrn ≠ centerId)
                (extractUrnsFromJson (DatahubObject.raw centerEntity) []))
    as Hdep.
  { apply list_elem_of_filter. split; [done|].
    assert (l0 ∈ labelsOf
              (extractAspectUrnGroups (DatahubObject.raw centerEntity)) d)
      as Hl0 by (rewrite Hl; apply list_elem_of_here).
    apply labelsOf_elem in Hl0 as (urns & Hg & Hd).
    by eapply aspect_group_member_scanned. }
  split; [done|]. split.
  { apply ofList_elem, elem_of_app. by right. }
  split; [done|]. split; [done|].
  rewrite dedupeEdges_keepFirst.
  apply keepFirstBy_covers; [|apply not_elem_of_nil].
  unfold discoveredEdges. rewrite !elem_of_app. left. right. right.
  apply list_elem_of_fmap. exists d. split; [|done].
  by rewrite Hlookup.
Qed.

End EndpointsOfEdges.

Lemma published_edges_join_center_and_neighbors_witness :
  ∃ published : Neighborhood.t,
    AppState.neighborhood sampleState = Some published ∧
    ∀ edge, edge ∈ Neighborhood.edges published ->
      (RelationshipEdge.targetId edge = sampleCenter ∧
       RelationshipEdge.sourceId edge ∈ Neighborhood.parentUrns published) ∨
      (RelationshipEdge.sourceId edge = sampleCenter ∧
       RelationshipEdge.targetId edge
         ∈ Neighborhood.dependencyUrns published) ∨
      (∃ p, Neighborhood.previousUrn published = Some p ∧ p ≠ sampleCenter ∧
            edge = RelationshipEdge.mk p sampleCenter "previous_selection").
Proof.
  apply (published_edges_join_center_and_neighbors sampleEncode sampleFetch
           "/gms" false initialState ("  " +:+ sampleCenter) (Some connect)
           None
           (DatahubObject.mk sampleCenter "dataset"
              "urn:li:dataPlatform:hive,fct_users,PROD" samplePayload)
           [{| urn := "urn:li:dataJob:job1"; type := "Produces" |}]
           [{| urn := "urn:li:dataset:downstream1";
               type := "DownstreamOf" |}]).
  - vm_compute. discriminate.
  - vm_compute. reflexivity.
  - vm_compute. reflexivity.
  - vm_compute. reflexivity.
Defined.

Lemma labelled_urns_are_dependencies_witness :
  ∃ published : Neighborhood.t,
    AppState.neighborhood sampleState = Some published ∧
    ∀ d labels,
      Neighborhood.aspectLabelsByUrn published !! d = Some labels ->
      d ≠ sampleCenter ∧
      d ∈ Neighborhood.dependencyUrns published ∧
      labels = labelsOf (extractAspectUrnGroups samplePayload) d ∧
      labels ≠ [] ∧
      ∃ edge, edge ∈ Neighborhood.edges published ∧
        edgeKey edge
          = edgeKey (RelationshipEdge.mk sampleCenter d
                       ("aspect:" +:+ JsString.join "|" labels)).
Proof.
  apply (labelled_urns_are_dependencies sampleEncode sampleFetch
           "/gms" false initialState ("  " +:+ sampleCenter) (Some connect)
           None
           (DatahubObject.mk sampleCenter "dataset"
              "urn:li:dataPlatform:hive,fct_users,PROD" samplePayload)
           [{| urn := "urn:li:dataJob:job1"; type := "Produces" |}]
           [{| urn := "urn:li:dataset:downstream1";
               type := "DownstreamOf" |}]).
  - vm_compute. discriminate.
  - vm_compute. reflexivity.
  - vm_compute. reflexivity.
  - vm_compute. reflexivity.
Defined.

(** ** Radial layout in reachable states *)

Section ReachableLayout.

Variable encodeURIComponent : string -> string.
Variable gmsBaseUrl : string.
Variable localeCompare : string -> string -> Z.

Lemma coherent_initialState : coherent initialState.
Proof.
  split; [constructor|]. split; [reflexivity|]. split; [reflexivity|].
  split; [intros x Hx; by apply elem_of_nil in Hx|]. by intros k e.
Qed.

Lemma previousOfStack_elem (stack : list string) (p : string) :
  previousOfStack stack = Some p -> p ∈ stack.
Proof.
  unfold previousOfStack, JsArray.at_.
  destruct (_ <? _); [|done]. destruct (_ <? _); [done|].
  apply list_elem_of_lookup_2.
Qed.

Lemma coherent_nodes_have_objects (s : AppState.t) (node : PositionedNode.t) :
  coherent s ->
  node ∈ nodes (graph localeCompare (AppState.entitiesByUrn s)
                  (AppState.neighborhood s) (AppState.centerId s)) ->
  ∃ obj, PositionedNode.object node = Some obj ∧
         AppState.entitiesByUrn s !! DatahubObject.id obj = Some obj.
Proof.
  intros (Hnd & Hcenter & Hhood & Hcached & Hfiled).
  destruct (AppState.neighborhood s) as [n|] eqn:Hn;
    [|intros H; by apply elem_of_nil in H].
  destruct Hhood as (Hc & Hprev & _).
  rewrite Hc. set (c := Neighborhood.centerUrn n).
  destruct (String.eqb_spec c "") as [Hempty|Hne].
  { unfold graph. rewrite Hempty. intros H. by apply elem_of_nil in H. }
  destruct (AppState.entitiesByUrn s !! c) as [centerObject|] eqn:Hobj.
  2: { unfold graph. destruct (String.eqb c ""); rewrite ?Hobj;
         intros H; by apply elem_of_nil in H. }
  rewrite (graph_nodes localeCompare _ n c centerObject Hne Hobj).
  cbn zeta.
  intros [->|Hnode]%elem_of_cons.
  - exists centerObject. split; [done|].
    destruct (Hfiled c centerObject Hobj) as (-> & _). done.
  - apply elem_of_lookup_imap in Hnode as (k & u & -> & Hu).
    apply list_elem_of_lookup_2 in Hu.
    apply layoutNeighborUrns_elem in Hu.
    assert (is_Some (AppState.entitiesByUrn s !! u)) as [obj Hu'].
    { destruct Hu as [Hu|[Hu|Hu]].
      - rewrite previousAsList_spec in Hu.
        destruct (Neighborhood.previousUrn n) as [p|] eqn:Hp;
          [|by apply elem_of_nil in Hu].
        destruct (decide _); [|by apply elem_of_nil in Hu].
        apply list_elem_of_singleton in Hu as ->.
        apply Hcached, previousOfStack_elem. by rewrite <- Hprev.
      - rewrite plottable_filter in Hu.
        by apply list_elem_of_filter in Hu as [[? _] _].
      - rewrite plottable_filter in Hu.
        by apply list_elem_of_filter in Hu as [[? _] _]. }
    exists obj. cbn [neighborNode PositionedNode.object]. split; [done|].
    destruct (Hfiled u obj Hu') as (-> & _). done.
Qed.


End ReachableLayout.


(** ** Neighborhood builder: the typed identifier *)

Section TrimFacts.

Lemma trimStart_blank (s : string) :
  Trim.trimStart s = "" ↔ Trim.blank s = true.
Proof.
  remember (String.length s) as n eqn:Hn. revert s Hn.
  induction n as [n IH] using lt_wf_ind. intros s ->.
  destruct s as [|a s1]; [done|]. cbn [Trim.trimStart Trim.blank].
  destruct (Trim.ws1 a); [apply (IH (String.length s1)); simpl; lia|].
  destruct s1 as [|b s2]; [split; discriminate|].
  destruct (Trim.ws2 a b); [apply (IH (String.length s2)); simpl; lia|].
  destruct s2 as [|c s3]; [split; discriminate|].
  destruct (Trim.ws3 a b c); cbn [andb];
    [apply (IH (String.length s3)); simpl; lia|split; discriminate].
Qed.

Lemma trimStart_idem (s : string) :
  Trim.trimStart (Trim.trimStart s) = Trim.trimStart s.
Proof.
  remember (String.length s) as n eqn:Hn. revert s Hn.
  induction n as [n IH] using lt_wf_ind. intros s ->.
  destruct s as [|a s1]; [done|]. cbn [Trim.trimStart].
  destruct (Trim.ws1 a) eqn:H1;
    [apply (IH (String.length s1)); simpl; lia|].
  destruct s1 as [|b s2]; [cbn [Trim.trimStart]; by rewrite H1|].
  destruct (Trim.ws2 a b) eqn:H2;
    [apply (IH (String.length s2)); simpl; lia|].
  destruct s2 as [|c s3]; [cbn [Trim.trimStart]; by rewrite H1, H2|].
  destruct (Trim.ws3 a b c) eqn:H3;
    [apply (IH (String.length s3)); simpl; lia|].
  cbn [Trim.trimStart]. by rewrite H1, H2, H3.
Qed.

Lemma trimEnd_blank (s : string) :
  Trim.trimEnd s = "" ↔ Trim.blank s = true.
Proof.
  destruct s as [|a s']; [done|]. cbn [Trim.trimEnd].
  destruct (Trim.blank (String a s')); split; done.
Qed.

Lemma trim_blank (s : string) : Trim.trim s = "" ↔ Trim.blank s = true.
Proof.
  unfold Trim.trim.
  by rewrite trimEnd_blank, <- trimStart_blank, trimStart_idem,
    trimStart_blank.
Qed.

(** White space followed by white space is white space. *)
Lemma blank_app (x w : string) :
  Trim.blank x = true -> Trim.blank w = true -> Trim.blank (x +:+ w) = true.
Proof.
  intros Hx Hw. remember (String.length x) as n eqn:Hn. revert x Hn Hx.
  induction n as [n IH] using lt_wf_ind. intros x -> Hx.
  destruct x as [|a x1]; [done|].
  change (String a x1 +:+ w) with (String a (x1 +:+ w)).
  cbn [Trim.blank] in Hx |- *.
  destruct (Trim.ws1 a); [apply (IH (String.length x1)); simpl; lia || done|].
  destruct x1 as [|b x2]; [done|].
  change (String b x2 +:+ w) with (String b (x2 +:+ w)). cbn iota.
  destruct (Trim.ws2 a b);
    [apply (IH (String.length x2)); simpl; lia || done|].
  destruct x2 as [|c x3]; [done|].
  change (String c x3 +:+ w) with (String c (x3 +:+ w)). cbn iota.
  apply andb_true_iff in Hx as [-> Hx]. cbn [andb].
  apply (IH (String.length x3)); simpl; lia || done.
Qed.

(** What [trimEnd] removes is white space at the end. *)
Lemma trimEnd_decomp (s : string) :
  ∃ w, s = Trim.trimEnd s +:+ w ∧ Trim.blank w = true.
Proof.
  induction s as [|a s' (w & Hs & Hw)]; [by exists ""|].
  cbn [Trim.trimEnd].
  destruct (Trim.blank (String a s')) eqn:Hb; [by exists (String a s')|].
  exists w. split; [|done].
  change (String a (Trim.trimEnd s') +:+ w)
    with (String a (Trim.trimEnd s' +:+ w)).
  by rewrite <- Hs.
Qed.

Lemma blank_trimEnd (s : string) :
  Trim.blank (Trim.trimEnd s) = Trim.blank s.
Proof.
  destruct (Trim.blank s) eqn:Hb.
  - apply trimEnd_blank in Hb. by rewrite Hb.
  - destruct (Trim.blank (Trim.trimEnd s)) eqn:Hb'; [|done].
    destruct (trimEnd_decomp s) as (w & Hs & Hw).
    rewrite Hs, (blank_app _ _ Hb' Hw) in Hb. done.
Qed.

Lemma trimEnd_idem (s : string) :
  Trim.trimEnd (Trim.trimEnd s) = Trim.trimEnd s.
Proof.
  induction s as [|a s' IH]; [done|].
  pose proof (blank_trimEnd (String a s')) as Hb.
  cbn [Trim.trimEnd] in Hb |- *.
  destruct (Trim.blank (String a s')) eqn:Hs; [done|].
  cbn [Trim.trimEnd]. by rewrite Hb, IH.
Qed.

Lemma trimStart_length (s : string) :
  (String.length (Trim.trimStart s) <= String.length s)%nat.
Proof.
  remember (String.length s) as n eqn:Hn. revert s Hn.
  induction n as [n IH] using lt_wf_ind. intros s ->.
  destruct s as [|a s1]; [done|]. cbn [Trim.trimStart].
  destruct (Trim.ws1 a).
  { pose proof (IH (String.length s1) ltac:(simpl; lia) s1 eq_refl).
    simpl. lia. }
  destruct s1 as [|b s2]; [done|].
  destruct (Trim.ws2 a b).
  { pose proof (IH (String.length s2) ltac:(simpl; lia) s2 eq_refl).
    simpl. lia. }
  destruct s2 as [|c s3]; [done|].
  destruct (Trim.ws3 a b c); [|done].
  pose proof (IH (String.length s3) ltac:(simpl; lia) s3 eq_refl).
  simpl. lia.
Qed.

(** Trimming at the end does not uncover white space at the start. *)
Lemma trimStart_trimEnd (t : string) :
  Trim.trimStart t = t -> Trim.trimStart (Trim.trimEnd t) = Trim.trimEnd t.
Proof.
  intros Ht. destruct (trimEnd_decomp t) as (w & Hw & _).
  destruct (Trim.trimEnd t) as [|a u1]; [done|].
  change (String a u1 +:+ w) with (String a (u1 +:+ w)) in Hw.
  rewrite Hw in Ht. cbn [Trim.trimStart] in Ht |- *.
  destruct (Trim.ws1 a).
  { pose proof (trimStart_length (u1 +:+ w)) as Hlen.
    rewrite Ht in Hlen. simpl in Hlen. lia. }
  destruct u1 as [|b u2]; [done|].
  change (String b u2 +:+ w) with (String b (u2 +:+ w)) in Ht.
  cbn iota in Ht |- *.
  destruct (Trim.ws2 a b).
  { pose proof (trimStart_length (u2 +:+ w)) as Hlen.
    rewrite Ht in Hlen. simpl in Hlen. lia. }
  destruct u2 as [|c u3]; [done|].
  change (String c u3 +:+ w) with (String c (u3 +:+ w)) in Ht.
  cbn iota in Ht |- *.
  destruct (Trim.ws3 a b c); [|done].
  pose proof (trimStart_length (u3 +:+ w)) as Hlen.
  rewrite Ht in Hlen. simpl in Hlen. lia.
Qed.

Lemma trim_idem (s : string) : Trim.trim (Trim.trim s) = Trim.trim s.
Proof.
  unfold Trim.trim.
  rewrite (trimStart_trimEnd _ (trimStart_idem s)). apply trimEnd_idem.
Qed.

Variable encodeURIComponent : string -> string.
Variable fetch : string -> fetchOutcome.
Variable gmsBaseUrl : string.
Variable outgoingRejectsFirst : bool.

(** X23: an input that holds nothing but white space is refused before
    anything is fetched: the only change is the message asking for a URN;
    cache, neighborhood, trail, center, input text and the loading flag stay
    as they were, whatever the network would have answered. *)
Theorem blank_urn_is_refused (state : AppState.t) (u : string)
    (mode : option NavigationMode) (breadcrumbIndex : option Z) :
  Trim.blank u = true ->
  loadNeighborhood encodeURIComponent fetch gmsBaseUrl outgoingRejectsFirst
    state u mode breadcrumbIndex
  = AppState.mk (AppState.entitiesByUrn state) (AppState.neighborhood state)
      (AppState.navStack state) (AppState.centerId state)
      (AppState.urnInput state) "Enter a URN to connect."
      (AppState.isLoading state).
Proof.
  intros Hblank%trim_blank. unfold loadNeighborhood. by rewrite Hblank.
Qed.

(** X24: white space around the typed identifier is irrelevant: a call with
    an input and a call with the trimmed input leave the same state. *)
Theorem surrounding_white_space_is_ignored (state : AppState.t) (u : string)
    (mode : option NavigationMode) (breadcrumbIndex : option Z) :
  loadNeighborhood encodeURIComponent fetch gmsBaseUrl outgoingRejectsFirst
    state u mode breadcrumbIndex
  = loadNeighborhood encodeURIComponent fetch gmsBaseUrl outgoingRejectsFirst
      state (Trim.trim u) mode breadcrumbIndex.
Proof. unfold loadNeighborhood. by rewrite trim_idem. Qed.

End TrimFacts.

Lemma blank_urn_is_refused_witness :
  loadNeighborhood sampleEncode sampleFetch "/gms" false sampleState
    sampleBlank (Some connect) None
  = AppState.mk (AppState.entitiesByUrn sampleState)
      (AppState.neighborhood sampleState) (AppState.navStack sampleState)
      (AppState.centerId sampleState) (AppState.urnInput sampleState)
      "Enter a URN to connect." (AppState.isLoading sampleState).
Proof.
  apply (blank_urn_is_refused sampleEncode sampleFetch "/gms" false
           sampleState sampleBlank (Some connect) None).
  reflexivity.
Defined.

(** [trim] on white space beyond ASCII, and next to a letter that shares a
    byte with it. *)
Example trim_unicode :
  Trim.trim ideographicSpace = "" ∧
  Trim.trim (sampleBlank +:+ "urn:li:tag:x" +:+ sampleBlank) = "urn:li:tag:x" ∧
  Trim.trim ("x" +:+ aGrave) = "x" +:+ aGrave ∧
  Trim.trim (aGrave +:+ " b ") = aGrave +:+ " b".
Proof. vm_compute. done. Qed.

(** ** [src/lib/urls.ts]: path segments *)

Section EncodingFacts.

Lemma replaceAll_app (c : ascii) (by_ x y : string) :
  replaceAll c by_ (x +:+ y) = replaceAll c by_ x +:+ replaceAll c by_ y.
Proof.
  induction x as [|a x IH]; [done|].
  change (String a x +:+ y) with (String a (x +:+ y)).
  cbn [replaceAll]. rewrite IH.
  destruct (Ascii.eqb a c); [by rewrite string_app_assoc|done].
Qed.

Lemma replaceAll_flatMap (c : ascii) (by_ : string) (f : ascii -> string)
    (s : string) :
  replaceAll c by_ (flatMapString f s)
  = flatMapString (fun a => replaceAll c by_ (f a)) s.
Proof.
  induction s as [|a s IH]; [done|].
  cbn [flatMapString]. by rewrite replaceAll_app, IH.
Qed.

Lemma flatMapString_id (s : string) :
  flatMapString (fun a => String a EmptyString) s = s.
Proof. induction s as [|a s IH]; [done|]. cbn [flatMapString]. by rewrite IH. Qed.

Lemma flatMapString_ext (f g : ascii -> string) (s : string) :
  (∀ a, f a = g a) -> flatMapString f s = flatMapString g s.
Proof.
  intros H. induction s as [|a s IH]; [done|].
  cbn [flatMapString]. by rewrite H, IH.
Qed.

Lemma replaceAll_single (c a : ascii) (by_ : string) :
  replaceAll c by_ (String a EmptyString)
  = if Ascii.eqb a c then by_ else String a EmptyString.
Proof.
  cbn [replaceAll]. destruct (Ascii.eqb a c); [|done].
  apply string_app_nil_r.
Qed.

Lemma encodeChar_chain (a : ascii) :
  replaceAll "]" "%5D"
    (replaceAll "[" "%5B"
       (replaceAll "#" "%23"
          (replaceAll "?" "%3F"
             (replaceAll "/" "%2F"
                (replaceAll "%" "{{encoded_percent}}"
                   (String a EmptyString))))))
  = encodeChar a.
Proof.
  unfold encodeChar. rewrite replaceAll_single.
  destruct (Ascii.eqb a "%"); [reflexivity|]. rewrite replaceAll_single.
  destruct (Ascii.eqb a "/"); [reflexivity|]. rewrite replaceAll_single.
  destruct (Ascii.eqb a "?"); [reflexivity|]. rewrite replaceAll_single.
  destruct (Ascii.eqb a "#"); [reflexivity|]. rewrite replaceAll_single.
  destruct (Ascii.eqb a "["); [reflexivity|]. by rewrite replaceAll_single.
Qed.

Lemma encode_flatMap (s : string) :
  encodeDatahubStyleUrnPathSegment s = flatMapString encodeChar s.
Proof.
  unfold encodeDatahubStyleUrnPathSegment.
  rewrite <- (flatMapString_id s) at 1.
  rewrite !replaceAll_flatMap.
  apply flatMapString_ext, encodeChar_chain.
Qed.

Lemma hasChar_flatMap (c : ascii) (f : ascii -> string) (s : string) :
  (∀ a, JsString.hasChar c (f a) = false) ->
  JsString.hasChar c (flatMapString f s) = false.
Proof.
  intros H. induction s as [|a s IH]; [done|].
  cbn [flatMapString]. by rewrite hasChar_app, H, IH.
Qed.

Lemma encodeChar_reserved (c a : ascii) :
  c = "/"%char ∨ c = "?"%char ∨ c = "#"%char ∨ c = "["%char ∨ c = "]"%char ->
  JsString.hasChar c (encodeChar a) = false.
Proof.
  intros Hc. unfold encodeChar.
  destruct (Ascii.eqb_spec a "%");
    [destruct Hc as [->|[->|[->|[->| ->]]]]; reflexivity|].
  destruct (Ascii.eqb_spec a "/");
    [destruct Hc as [->|[->|[->|[->| ->]]]]; reflexivity|].
  destruct (Ascii.eqb_spec a "?");
    [destruct Hc as [->|[->|[->|[->| ->]]]]; reflexivity|].
  destruct (Ascii.eqb_spec a "#");
    [destruct Hc as [->|[->|[->|[->| ->]]]]; reflexivity|].
  destruct (Ascii.eqb_spec a "[");
    [destruct Hc as [->|[->|[->|[->| ->]]]]; reflexivity|].
  destruct (Ascii.eqb_spec a "]");
    [destruct Hc as [->|[->|[->|[->| ->]]]]; reflexivity|].
  cbn [JsString.hasChar]. rewrite orb_false_r.
  apply Ascii.eqb_neq. by destruct Hc as [->|[->|[->|[->| ->]]]].
Qed.

(** X25: the six replacements of the path-segment encoding do not interfere
    with one another: the result is the input with each character encoded
    on its own, a percent sign as the placeholder text, a slash, question
    mark, hash and square bracket as their percent escapes, and every other
    character as itself. *)
Theorem path_segment_encoding_is_characterwise (s : string) :
  encodeDatahubStyleUrnPathSegment s = flatMapString encodeChar s.
Proof. apply encode_flatMap. Qed.

(** X26: an encoded path segment contains no slash, question mark, hash or
    square bracket, so it cannot end the path segment it is placed in. *)
Theorem encoded_segment_has_no_reserved_character (s : string) :
  JsString.hasChar "/" (encodeDatahubStyleUrnPathSegment s) = false ∧
  JsString.hasChar "?" (encodeDatahubStyleUrnPathSegment s) = false ∧
  JsString.hasChar "#" (encodeDatahubStyleUrnPathSegment s) = false ∧
  JsString.hasChar "[" (encodeDatahubStyleUrnPathSegment s) = false ∧
  JsString.hasChar "]" (encodeDatahubStyleUrnPathSegment s) = false.
Proof.
  rewrite encode_flatMap.
  repeat split; apply hasChar_flatMap; intros a; apply encodeChar_reserved;
    tauto.
Qed.

End EncodingFacts.

(** ** [src/components/JsonPanel.tsx] and [src/components/GraphPanel.tsx] *)

Section PanelFacts.

Local Abbreviation quote := (String dquote EmptyString).

Lemma strip_quoted (s : string) : stripQuotedString (quote +:+ s +:+ quote) = s.
Proof.
  unfold stripQuotedString.
  change (quote +:+ s +:+ quote) with (String dquote (s +:+ quote)).
  assert (String.length (String dquote (s +:+ quote))
          = S (S (String.length s))) as Hlen.
  { cbn [String.length]. rewrite length_app_string. simpl. lia. }
  assert (endsWith quote (String dquote (s +:+ quote)) = true) as ->.
  { unfold endsWith. rewrite Hlen. cbn [String.length Nat.leb].
    replace (S (S (String.length s)) - 1)%nat
      with (String.length (String dquote s)) by (simpl; lia).
    change (String dquote (s +:+ quote)) with (String dquote s +:+ quote).
    by rewrite drop_app_length. }
  assert (JsString.startsWith quote (String dquote (s +:+ quote)) = true)
    as -> by reflexivity.
  rewrite Hlen.
  destruct (Z.leb_spec 2 (Z.of_nat (S (S (String.length s))))); [|lia].
  cbn [andb]. unfold JsString.slice, JsString.clampIndex. rewrite Hlen.
  destruct (Z.ltb_spec 1 0); [lia|].
  destruct (Z.ltb_spec (-1) 0); [|lia].
  replace (Z.to_nat (Z.min 1 (Z.of_nat (S (S (String.length s))))))
    with 1%nat by lia.
  replace (Z.to_nat (Z.max (Z.of_nat (S (S (String.length s))) + -1) 0
                     - Z.min 1 (Z.of_nat (S (S (String.length s))))))
    with (String.length s) by lia.
  cbn [JsString.drop]. apply take_app_length_string.
Qed.

Lemma startsWith_quote (v : string) :
  JsString.startsWith quote v = true -> ∃ v', v = String dquote v'.
Proof.
  destruct v as [|a v']; [done|].
  change (JsString.startsWith quote (String a v'))
    with (Ascii.eqb dquote a && true).
  destruct (Ascii.eqb_spec dquote a) as [<-|]; [|done]. by exists v'.
Qed.

(** X27: stripping removes exactly one pair of enclosing double quotes:
    a quoted text gives back the text, and on any input the result is the
    input itself or the input without its first and last character, which
    are then both double quotes. *)
Theorem strip_removes_one_pair_of_quotes (s : string) :
  stripQuotedString (quote +:+ s +:+ quote) = s ∧
  (stripQuotedString s = s ∨ s = quote +:+ stripQuotedString s +:+ quote).
Proof.
  split; [apply strip_quoted|].
  destruct (2 <=? Z.of_nat (String.length s)) eqn:Hlen;
    [|left; unfold stripQuotedString; by rewrite Hlen].
  destruct (JsString.startsWith quote s) eqn:Hstart;
    [|left; unfold stripQuotedString; by rewrite Hlen, Hstart].
  destruct (endsWith quote s) eqn:Hend;
    [|left; unfold stripQuotedString; by rewrite Hlen, Hstart, Hend].
  right.
  apply Z.leb_le in Hlen.
  apply startsWith_quote in Hstart as [v' ->].
  unfold endsWith in Hend. apply andb_true_iff in Hend as [_ Hend].
  apply String.eqb_eq in Hend.
  cbn [String.length] in Hlen, Hend.
  destruct v' as [|b v'']; [simpl in Hlen; lia|].
  set (v' := String b v'') in *.
  assert (S (String.length v') - 1 = S (String.length v' - 1))%nat as Hn
    by (unfold v'; simpl; lia).
  rewrite Hn in Hend. cbn [JsString.drop] in Hend.
  assert (String dquote v'
          = quote +:+ JsString.take (String.length v' - 1) v' +:+ quote) as Hv.
  { change (quote +:+ ?x +:+ quote) with (String dquote (x +:+ quote)).
    f_equal. rewrite <- Hend. by rewrite take_drop_string. }
  rewrite Hv at 2. rewrite strip_quoted. exact Hv.
Qed.

(** X28: the edge from the center to an in-payload reference is drawn
    without a label exactly when the reference is not the center and some
    aspect group lists it; otherwise it is drawn with the label
    [json_reference]. *)
Theorem aspect_edges_are_drawn_unlabelled (centerId : string)
    (groups : list (string * list string)) (d : string) :
  let edgeType := jsonEdgeType (collectAspectLabels centerId groups !! d) in
  (formatEdgeLabel edgeType = None ↔
   d ≠ centerId ∧ ∃ l urns, (l, urns) ∈ groups ∧ d ∈ urns) ∧
  (formatEdgeLabel edgeType = None ∨
   formatEdgeLabel edgeType = Some "json_reference").
Proof.
  intros edgeType. unfold edgeType. rewrite collectAspectLabels_lookup.
  destruct (decide (d = centerId)) as [Hc|Hc].
  { split; [|by right]. split; [done|]. by intros [? _]. }
  destruct (labelsOf groups d) as [|l0 ls] eqn:Hl.
  - split; [|by right]. split; [done|].
    intros (_ & l & urns & Hg & Hd).
    assert (l ∈ labelsOf groups d) as H
      by (apply labelsOf_elem; by exists urns).
    rewrite Hl in H. by apply elem_of_nil in H.
  - split; [|by left]. split; [|done]. intros _. split; [done|].
    assert (l0 ∈ labelsOf groups d) as H
      by (rewrite Hl; apply list_elem_of_here).
    apply labelsOf_elem in H as (urns & Hg & Hd). by exists l0, urns.
Qed.

End PanelFacts.

(** ** Catalog client: giving up on relationships *)

Section RelationshipFailure.

Lemma mapM_Throw_exact {A B} (f : A -> result B) (l : list A) (e : jsError) :
  mapM f l = Throw e -> ∃ x, x ∈ l ∧ f x = Throw e.
Proof.
  induction l as [|x l IH]; [done|].
  cbn [mapM]. destruct (f x) as [y|e0] eqn:Hx.
  - rewrite bind_Ok. destruct (mapM f l) as [ys|e1]; [done|].
    rewrite bind_Throw. intros [= ->].
    destruct (IH eq_refl) as (x' & Hx' & He). exists x'.
    split; [by apply list_elem_of_further|done].
  - rewrite bind_Throw. intros [= ->]. exists x.
    split; [apply list_elem_of_here|done].
Qed.

(** Reading a body only ever fails with a [TypeError], never with the
    client's own error class. *)
Lemma relationshipsOfResponse_Throw (body : json) (e : jsError) :
  relationshipsOfResponse body = Throw e -> ∃ m, e = OtherError m.
Proof.
  unfold relationshipsOfResponse.
  destruct (extractRelationshipItems body) as [items|e0] eqn:Hitems.
  - rewrite bind_Ok.
    match goal with |- context [mapM ?f items] => set (g := f) end.
    destruct (mapM g items) as [mapped|e1] eqn:Hm; [done|].
    rewrite bind_Throw. intros [= ->].
    apply mapM_Throw_exact in Hm as (x & _ & Hx).
    assert (x = JNull ∨ x ≠ JNull) as [->|Hne]
      by (destruct x; (by left) || (by right)).
    + injection Hx as <-. by eexists.
    + unfold g in Hx. by rewrite (related_item_of x Hne) in Hx.
  - rewrite bind_Throw. intros [= ->].
    unfold extractRelationshipItems in Hitems.
    assert (body = JNull ∨ body ≠ JNull) as [->|Hne]
      by (destruct body; (by left) || (by right)).
    + injection Hitems as <-. by eexists.
    + exfalso.
      assert (getOrThrow body "relationships"
              = Ok (Js.get body "relationships")) as Hget
        by (by destruct body).
      rewrite Hget, bind_Ok in Hitems.
      repeat match type of Hitems with
             | context [Js.isArray ?v] => destruct (Js.isArray v)
             end; done.
Qed.

Variable encodeURIComponent : string -> string.
Variable fetch : string -> fetchOutcome.
Variable baseUrl : string.

(** X30: when [fetchRelationships] gives up, the error lists the three
    endpoints and otherwise reports the last of them only: the status,
    endpoint and details of its HTTP failure, or none of the three when the
    last request was rejected or its body could not be read, even if an
    earlier endpoint had failed with an HTTP status. *)
Theorem fetchRelationships_error_reports_last_endpoint (centerUrn : string)
    (direction : Direction) (err : DatahubApiError.t) :
  fetchRelationships encodeURIComponent fetch baseUrl centerUrn direction
    = inl err ->
  let lastEndpoint :=
    "/relationships?urn=" +:+ encodeURIComponent centerUrn +:+ "&direction="
      +:+ directionName direction +:+ "&types="
      +:+ encodeURIComponent LEGACY_RELATIONSHIP_TYPES
      +:+ "&start=0&count=100" in
  DatahubApiError.attemptedEndpoints err
    = Some (relationshipAttempts encodeURIComponent centerUrn direction) ∧
  match fetch (baseUrl +:+ lastEndpoint) with
  | HttpFailure status statusText body =>
      DatahubApiError.status err = Some status ∧
      DatahubApiError.endpoint err = Some lastEndpoint ∧
      DatahubApiError.details err
        = Some (if String.eqb body "" then statusText else body)
  | Rejected _ =>
      DatahubApiError.status err = None ∧
      DatahubApiError.endpoint err = None ∧
      DatahubApiError.details err = None
  | JsonBody body =>
      (∃ e, relationshipsOfResponse body = Throw e) ∧
      DatahubApiError.status err = None ∧
      DatahubApiError.endpoint err = None ∧
      DatahubApiError.details err = None
  end.
Proof.
  intros H lastEndpoint.
  split; [exact (proj1 (fetchRelationships_error _ _ _ _ _ _ H))|].
  unfold fetchRelationships in H.
  destruct (tryEndpoints _ _ _) as [a|last] eqn:Htry; [done|].
  injection H as <-.
  apply tryEndpoints_inr in Htry as (_ & _ & Hlast).
  destruct (Hlast lastEndpoint eq_refl) as (e & He & ->).
  unfold fetchJson in He. fold lastEndpoint in He.
  destruct (fetch (baseUrl +:+ lastEndpoint)) as [m|st tx b|body].
  - rewrite bind_Throw in He. by injection He as <-.
  - rewrite bind_Throw in He. by injection He as <-.
  - rewrite bind_Ok in He. split; [by exists e|].
    by destruct (relationshipsOfResponse_Throw body e He) as [m ->].
Qed.

End RelationshipFailure.

Lemma fetchRelationships_error_reports_last_endpoint_witness :
  ∃ err,
    fetchRelationships sampleEncode deadFetch "http://gms" "urn:li:dataset:a"
      OUTGOING = inl err ∧
    DatahubApiError.status err = Some 503 ∧
    DatahubApiError.details err = Some "upstream down".
Proof.
  eexists. split; [vm_compute; reflexivity|].
  pose proof (fetchRelationships_error_reports_last_endpoint sampleEncode
                deadFetch "http://gms" "urn:li:dataset:a" OUTGOING _ eq_refl)
    as [_ H].
  cbv zeta in H. unfold deadFetch at 1 in H.
  destruct H as (Hstatus & _ & Hdetails). split; [exact Hstatus|exact Hdetails].
Defined.

(** ** Structure view and radial layout *)

Section StructureFacts.

Variable localeCompare : string -> string -> Z.
Variable toLowerCase : string -> string.
Variable entitiesByUrn : gmap string DatahubObject.t.

Local Abbreviation urnsOf :=
  (fun p : string * list StructureItem.t => (p.1, map StructureItem.urn p.2)).

Lemma JsMap_get_urnsOf (m : list (string * list StructureItem.t))
    (k : string) :
  JsMap.get (map urnsOf m) k = map StructureItem.urn <$> JsMap.get m k.
Proof.
  induction m as [|[k' v] m IH]; [done|].
  cbn [map JsMap.get fst snd]. by destruct (String.eqb k' k).
Qed.

Lemma JsMap_set_urnsOf (m : list (string * list StructureItem.t))
    (k : string) (v : list StructureItem.t) :
  JsMap.set (map urnsOf m) k (map StructureItem.urn v)
  = map urnsOf (JsMap.set m k v).
Proof.
  induction m as [|[k' v'] m IH]; [done|].
  cbn [map JsMap.set fst snd].
  destruct (String.eqb k' k); [done|]. cbn [map fst snd]. by rewrite IH.
Qed.

Lemma JsMap_keys_urnsOf (m : list (string * list StructureItem.t)) :
  JsMap.keys (map urnsOf m) = JsMap.keys m.
Proof. unfold JsMap.keys. rewrite map_map. by apply map_ext. Qed.

(** The structure view files the same identifiers under the same labels as
    the layout does, for the same list of dependencies. *)
Lemma structure_fold_filed (lab : string -> string) (l : list string)
    (groups : list (string * list StructureItem.t)) :
  map urnsOf
    (fold_left
       (fun groups u =>
          JsMap.set groups (lab u)
            (default [] (JsMap.get groups (lab u))
               ++ [StructureItem.mk u (Some (lab u))]))
       l groups)
  = fold_left
      (fun groups u =>
         JsMap.set groups (lab u)
           (default [] (JsMap.get groups (lab u)) ++ [u]))
      l (map urnsOf groups).
Proof.
  revert groups. induction l as [|u l IH]; intros groups; [done|].
  cbn [fold_left]. rewrite IH. f_equal.
  rewrite <- JsMap_set_urnsOf, JsMap_get_urnsOf, map_app.
  by destruct (JsMap.get groups (lab u)).
Qed.

Lemma sortItems_urns (l : list StructureItem.t) :
  map StructureItem.urn (sortItems localeCompare l)
  = sortByLocale localeCompare (map StructureItem.urn l).
Proof.
  unfold sortItems, sortByLocale.
  induction l as [|x l IH]; [done|].
  cbn [foldr map]. rewrite <- IH. clear IH.
  induction (foldr (insertItem localeCompare) [] l) as [|y r IHr]; [done|].
  cbn [insertItem map insertSorted].
  destruct (localeCompare (StructureItem.urn x) (StructureItem.urn y) <=? 0);
    [done|].
  cbn [map]. by rewrite IHr.
Qed.

Lemma filter_all {A} (P : A -> Prop) `{∀ x, Decision (P x)} (l : list A) :
  (∀ x, x ∈ l -> P x) -> filter P l = l.
Proof.
  intros Hall. induction l as [|x l IH]; [done|].
  rewrite filter_cons, decide_True by apply Hall, list_elem_of_here.
  rewrite IH; [done|]. intros y Hy. by apply Hall, list_elem_of_further.
Qed.

Lemma plottable_all_cached (previousUrn : option string) (urns : list string) :
  (∀ u, u ∈ urns -> is_Some (entitiesByUrn !! u)) ->
  plottable entitiesByUrn previousUrn urns
  = filter (fun u => negb (eqNullable u previousUrn) = true) urns.
Proof. intros Hall. unfold plottable. by rewrite (filter_all _ urns). Qed.

Lemma flat_map_optional {A B} (f : A -> list B) (b : bool) (x : A) :
  (b = false -> f x = []) ->
  flat_map f (if b then [x] else []) = f x.
Proof.
  intros H. destruct b; simpl; [by rewrite app_nil_r|]. by rewrite H.
Qed.

(** With an empty text filter and every parent and dependency in the cache,
    the structure view lists the neighbors in the order in which the layout
    arranges them before it removes repetitions. *)
Lemma structure_ordered_neighbors (neighborhood : Neighborhood.t)
    (centerId structureFilter : string) :
  centerId ≠ "" -> Trim.blank structureFilter = true ->
  (∀ u, u ∈ Neighborhood.parentUrns neighborhood
        ∨ u ∈ Neighborhood.dependencyUrns neighborhood ->
        is_Some (entitiesByUrn !! u)) ->
  flat_map (fun section => map StructureItem.urn section.2)
    (structureSections localeCompare toLowerCase entitiesByUrn
       (Some neighborhood) (Some centerId) structureFilter)
  = orderedNeighborUrns localeCompare entitiesByUrn neighborhood centerId.
Proof.
  intros Hc Hblank%trim_blank Hcached.
  unfold structureSections. rewrite Hblank.
  destruct (String.eqb_spec centerId "") as [|_]; [done|].
  change (Z.of_nat (String.length "") =? 0) with true. cbn iota.
  unfold allSections, orderedNeighborUrns. rewrite !flat_map_app.
  f_equal; [|f_equal].
  - rewrite flat_map_optional.
    + cbn [snd]. rewrite map_map. cbn [StructureItem.urn]. apply map_id.
    + cbn [snd]. intros Hlen%Z.ltb_ge. rewrite length_map in Hlen.
      destruct (previousAsList _ _); [done|]. simpl in Hlen. lia.
  - unfold sortedParents.
    rewrite plottable_all_cached by (intros u Hu; apply Hcached; by left).
    rewrite flat_map_optional.
    + cbn [snd]. rewrite map_map. cbn [StructureItem.urn]. apply map_id.
    + cbn [snd]. intros Hlen%Z.ltb_ge. rewrite length_map in Hlen.
      destruct (sortByLocale _ _); [done|]. simpl in Hlen. lia.
  - unfold groupedDependencies, dependencyGroups.
    rewrite plottable_all_cached by (intros u Hu; apply Hcached; by right).
    pose proof (structure_fold_filed (dependencyLabel neighborhood)
                  (filter (fun u =>
                     negb (eqNullable u
                             (Neighborhood.previousUrn neighborhood)) = true)
                     (Neighborhood.dependencyUrns neighborhood)) []) as Hfold.
    cbn [map] in Hfold. fold (structureGroups neighborhood) in Hfold.
    rewrite <- Hfold, JsMap_keys_urnsOf.
    rewrite !flat_map_concat_map, !map_map. f_equal.
    apply map_ext. intros label. cbn [snd].
    rewrite sortItems_urns, JsMap_get_urnsOf.
    by destruct (JsMap.get (structureGroups neighborhood) label).
Qed.

(** X29: with an empty text filter and every parent and dependency in the
    cache, the ring of the radial layout is the list of the structure view,
    read section after section, with every repeated identifier dropped
    after its first occurrence: the same identifiers in the same order.  An
    identifier that is both a parent and a dependency is listed twice in
    the structure view and placed once on the ring. *)
Theorem ring_is_deduplicated_structure_list (neighborhood : Neighborhood.t)
    (centerId structureFilter : string) :
  centerId ≠ "" -> Trim.blank structureFilter = true ->
  (∀ u, u ∈ Neighborhood.parentUrns neighborhood
        ∨ u ∈ Neighborhood.dependencyUrns neighborhood ->
        is_Some (entitiesByUrn !! u)) ->
  layoutNeighborUrns localeCompare entitiesByUrn neighborhood centerId
  = firstOccurrences
      (flat_map (fun section => map StructureItem.urn section.2)
         (structureSections localeCompare toLowerCase entitiesByUrn
            (Some neighborhood) (Some centerId) structureFilter)).
Proof.
  intros Hc Hblank Hcached.
  rewrite (structure_ordered_neighbors _ _ _ Hc Hblank Hcached).
  unfold layoutNeighborUrns. apply ofList_firstOccurrences.
Qed.

End StructureFacts.

Lemma ring_is_deduplicated_structure_list_witness :
  layoutNeighborUrns codeUnitCompare ringCache ringNeighborhood
    "urn:li:dataset:c"
  = firstOccurrences
      (flat_map (fun section => map StructureItem.urn section.2)
         (structureSections codeUnitCompare (fun s => s) ringCache
            (Some ringNeighborhood) (Some "urn:li:dataset:c") sampleBlank)).
Proof.
  apply (ring_is_deduplicated_structure_list codeUnitCompare (fun s => s)
           ringCache ringNeighborhood "urn:li:dataset:c" sampleBlank).
  - discriminate.
  - reflexivity.
  - intros u [Hu|Hu]; apply list_elem_of_In in Hu; simpl in Hu;
      repeat (destruct Hu as [<-|Hu]; [eexists; vm_compute; reflexivity|]);
      destruct Hu.
Defined.

(** The sample: [a] is listed under the parents and under its group, and
    placed once. *)
Example sample_structure_and_ring :
  structureSections codeUnitCompare (fun s => s) ringCache
    (Some ringNeighborhood) (Some "urn:li:dataset:c") ""
  = [ ("Previous", [StructureItem.mk "urn:li:dataset:p" None]);
      ("Parents (2)",
       [StructureItem.mk "urn:li:dataset:a" None;
        StructureItem.mk "urn:li:dataset:b" None]);
      ("Uncategorized (1)",
       [StructureItem.mk "urn:li:dataset:a" (Some "Uncategorized")]);
      ("views (2)",
       [StructureItem.mk "urn:li:dataset:d" (Some "views");
        StructureItem.mk "urn:li:dataset:e" (Some "views")]) ] ∧
  layoutNeighborUrns codeUnitCompare ringCache ringNeighborhood
    "urn:li:dataset:c"
  = ["urn:li:dataset:p"; "urn:li:dataset:a"; "urn:li:dataset:b";
     "urn:li:dataset:d"; "urn:li:dataset:e"].
Proof. vm_compute. done. Qed.

(** ** Radial layout: the order of the ring in reachable states *)

Section PublishedNeighbors.

Variable encodeURIComponent : string -> string.
Variable gmsBaseUrl : string.

Lemma fetchRelationships_urns (fetch : string -> fetchOutcome)
    (centerUrn : string) (direction : Direction) (out : list RelatedItem) :
  fetchRelationships encodeURIComponent fetch gmsBaseUrl centerUrn direction
    = inr out ->
  ∀ item, item ∈ out -> isUrn (urn item).
Proof.
  unfold fetchRelationships.
  destruct (tryEndpoints _ _ _) as [a|err] eqn:Htry; [|done].
  intros [= ->].
  apply tryEndpoints_inl in Htry as (pre & endpoint & post & _ & _ & Hok).
  destruct (fetchJson fetch gmsBaseUrl endpoint) as [body|e]; [|done].
  rewrite bind_Ok in Hok.
  apply relationshipsOfResponse_Ok in Hok as (items & _ & _ & ->).
  intros item (x & _ & Hx)%list_elem_of_omap.
  destruct (firstUrnAmong x candidateKeys) as [u|] eqn:Hu; [|done].
  injection Hx as <-. by apply firstUrnAmong_spec in Hu as [Hp _].
Qed.

Lemma loadNeighborhood_urnNeighbors (fetch : string -> fetchOutcome)
    (outgoingRejectsFirst : bool) (state : AppState.t) (u : string)
    (mode : option NavigationMode) (breadcrumbIndex : option Z) :
  (∀ n, AppState.neighborhood state = Some n -> urnNeighbors n) ->
  ∀ n,
    AppState.neighborhood
      (loadNeighborhood encodeURIComponent fetch gmsBaseUrl
         outgoingRejectsFirst state u mode breadcrumbIndex) = Some n ->
    urnNeighbors n.
Proof.
  intros Hstate n. unfold loadNeighborhood.
  destruct (String.eqb (Trim.trim u) ""); [apply Hstate|].
  destruct (buildNeighborhood _ _ _ _ _ _ _ _) as [commit|error] eqn:Hb;
    [|apply Hstate].
  unfold buildNeighborhood in Hb.
  destruct (fetchEntity encodeURIComponent fetch gmsBaseUrl (Trim.trim u))
    as [err|centerEntity] eqn:Hc; [done|].
  unfold await in Hb. rewrite bind_Ok in Hb.
  unfold fetchBothDirections in Hb.
  destruct (fetchRelationships encodeURIComponent fetch gmsBaseUrl
              (DatahubObject.id centerEntity) INCOMING)
    as [ei|incoming] eqn:Hi;
    destruct (fetchRelationships encodeURIComponent fetch gmsBaseUrl
                (DatahubObject.id centerEntity) OUTGOING)
      as [eo|outgoing] eqn:Ho; try done.
  rewrite bind_Ok in Hb. injection Hb as <-.
  cbn [AppState.neighborhood nextNeighborhood assembleNeighborhood fst snd].
  intros [= <-]. unfold urnNeighbors.
  cbn [Neighborhood.parentUrns Neighborhood.dependencyUrns].
  split; [rewrite ofList_firstOccurrences; apply firstOccurrences_NoDup|].
  split; [rewrite ofList_firstOccurrences; apply firstOccurrences_NoDup|].
  intros x [Hx|Hx]; apply (proj1 (ofList_elem _ _)) in Hx.
  - apply list_elem_of_fmap in Hx as (item & -> & Hitem).
    exact (fetchRelationships_urns _ _ _ _ Hi item Hitem).
  - apply elem_of_app in Hx as [Hx|Hx].
    + apply list_elem_of_fmap in Hx as (item & -> & Hitem).
      exact (fetchRelationships_urns _ _ _ _ Ho item Hitem).
    + apply list_elem_of_filter in Hx as [_ Hx].
      by apply scan_elem in Hx as [_ Hx].
Qed.

Lemma run_urnNeighbors (actions : list Action) (state : AppState.t) :
  (∀ n, AppState.neighborhood state = Some n -> urnNeighbors n) ->
  ∀ n,
    AppState.neighborhood (run encodeURIComponent gmsBaseUrl actions state)
      = Some n ->
    urnNeighbors n.
Proof.
  unfold run. revert state.
  induction actions as [|a actions IH]; intros state Hs; [done|].
  cbn [fold_left]. by apply IH, loadNeighborhood_urnNeighbors.
Qed.

End PublishedNeighbors.

Section ClaimedOrder.

Variable localeCompare : string -> string -> Z.
Hypothesis localeCompare_total :
  ∀ a b, 0 < localeCompare a b -> localeCompare b a <= 0.

(** Removing an identifier that has been seen does not change what the
    deduplication keeps. *)
Lemma keepFirst_skip (p : string) (l seen : list string) :
  p ∈ seen ->
  keepFirstBy (fun x => x) seen (filter (fun u => u ≠ p) l)
  = keepFirstBy (fun x => x) seen l.
Proof.
  revert seen. induction l as [|a l IH]; intros seen Hp; [done|].
  rewrite filter_cons. destruct (decide (a ≠ p)) as [Ha|Ha].
  - cbn [keepFirstBy]. destruct (JsSet.has seen a); [by apply IH|].
    f_equal. apply IH, elem_of_app. by left.
  - assert (a = p) as -> by (by destruct (decide (a = p))).
    cbn [keepFirstBy].
    rewrite (proj2 (JsSet_has_spec seen p) Hp). by apply IH.
Qed.

Lemma firstOccurrences_head (p : string) (l1 l2 : list string) :
  filter (fun u => u ≠ p) l1 = filter (fun u => u ≠ p) l2 ->
  firstOccurrences (p :: l1) = firstOccurrences (p :: l2).
Proof.
  intros Heq. unfold firstOccurrences. cbn [keepFirstBy JsSet.has existsb].
  f_equal.
  rewrite <- (keepFirst_skip p l1), <- (keepFirst_skip p l2), Heq; [done|..];
    apply list_elem_of_here.
Qed.

Lemma filter_insertSorted_self (p : string) (l : list string) :
  filter (fun u => u ≠ p) (insertSorted localeCompare p l)
  = filter (fun u => u ≠ p) l.
Proof.
  induction l as [|y l IH]; cbn [insertSorted].
  - by rewrite filter_cons_False by (by intros H).
  - destruct (localeCompare p y <=? 0).
    + by rewrite filter_cons_False by (by intros H).
    + by rewrite !filter_cons, IH.
Qed.

Lemma filter_other_all (p : string) (l : list string) :
  p ∉ l -> filter (fun u => u ≠ p) l = l.
Proof.
  intros Hp. induction l as [|a l IH]; [done|].
  apply not_elem_of_cons in Hp as [Hne Hp].
  rewrite filter_cons_True by done. by rewrite IH.
Qed.

Lemma perm_restore (p : string) (l : list string) :
  NoDup l -> p ∈ l -> p :: filter (fun u => u ≠ p) l ≡ₚ l.
Proof.
  induction l as [|a l IH]; intros Hnd Hp; [by apply elem_of_nil in Hp|].
  apply NoDup_cons in Hnd as [Ha Hnd].
  destruct (decide (a = p)) as [->|Hne].
  - rewrite filter_cons_False by (by intros H). by rewrite filter_other_all.
  - apply elem_of_cons in Hp as [->|Hp]; [done|].
    rewrite filter_cons_True by done.
    rewrite Permutation_swap. by rewrite IH.
Qed.

Lemma filter_label_skip (label : string -> string) (p l0 : string)
    (l : list string) :
  label p ≠ l0 ->
  filter (fun u => label u = l0) (filter (fun u => u ≠ p) l)
  = filter (fun u => label u = l0) l.
Proof.
  intros Hp. rewrite list_filter_filter. apply list_filter_iff.
  intros u. split; [by intros [? _]|]. intros Hu. split; [done|].
  by intros ->.
Qed.

Lemma filter_label_swap (label : string -> string) (p l0 : string)
    (l : list string) :
  filter (fun u => label u = l0) (filter (fun u => u ≠ p) l)
  = filter (fun u => u ≠ p) (filter (fun u => label u = l0) l).
Proof.
  rewrite !list_filter_filter. apply list_filter_iff. intros u. tauto.
Qed.

(** A group for a further label can be put in its place among groups that
    are ordered by label. *)
Lemma insert_group (l0 p : string) (groups : list (string * list string)) :
  ∃ groups',
    map fst groups' = insertSorted localeCompare l0 (map fst groups) ∧
    (∀ g, g ∈ groups' ↔ g = (l0, [p]) ∨ g ∈ groups) ∧
    filter (fun u => u ≠ p) (flat_map snd groups')
    = filter (fun u => u ≠ p) (flat_map snd groups).
Proof.
  induction groups as [|[l1 m1] groups (groups' & Hlabels & Helem & Hflat)].
  - exists [(l0, [p])]. split; [done|]. split.
    + intros g. rewrite list_elem_of_singleton, elem_of_nil. tauto.
    + cbn [flat_map snd app].
      by rewrite filter_cons_False by (by intros H).
  - cbn [map fst insertSorted].
    destruct (localeCompare l0 l1 <=? 0).
    + exists ((l0, [p]) :: (l1, m1) :: groups). split; [done|]. split.
      * intros g. rewrite !elem_of_cons. tauto.
      * cbn [flat_map snd app].
        by rewrite filter_cons_False by (by intros H).
    + exists ((l1, m1) :: groups'). split; [cbn [map fst]; by rewrite Hlabels|].
      split.
      * intros g. rewrite !elem_of_cons, Helem. tauto.
      * cbn [flat_map snd]. by rewrite !filter_app, Hflat.
Qed.

Lemma filter_bumped_groups (p l0 : string)
    (groups : list (string * list string)) :
  filter (fun u => u ≠ p)
    (flat_map snd
       (map (fun g : string * list string =>
               if String.eqb g.1 l0
               then (g.1, insertSorted localeCompare p g.2) else g)
            groups))
  = filter (fun u => u ≠ p) (flat_map snd groups).
Proof.
  induction groups as [|[l1 m1] groups IH]; [done|].
  cbn [map flat_map fst snd]. rewrite !filter_app, IH. f_equal.
  destruct (String.eqb l1 l0); cbn [snd]; [|done].
  apply filter_insertSorted_self.
Qed.

Lemma filter_empty {A} (P : A -> Prop) `{∀ x, Decision (P x)} (l : list A) :
  (∀ x, x ∈ l -> ¬ P x) -> filter P l = [].
Proof.
  intros Hl. destruct (filter P l) as [|x m] eqn:Hm; [done|].
  assert (x ∈ filter P l) as [Hx Hin]%list_elem_of_filter
    by (rewrite Hm; apply list_elem_of_here).
  by destruct (Hl x Hin).
Qed.

(** The arrangement of the items other than [p] extends to an arrangement
    of all items that differs from it by occurrences of [p] only. *)
Lemma arranged_with (label : string -> string) (p : string)
    (items : list string) (groups : list (string * list string)) :
  NoDup items ->
  arranged localeCompare label (filter (fun u => u ≠ p) items) groups ->
  ∃ groups',
    arranged localeCompare label items groups' ∧
    filter (fun u => u ≠ p) (flat_map snd groups')
    = filter (fun u => u ≠ p) (flat_map snd groups).
Proof.
  intros Hnd (Hsorted & Hdistinct & Hlabels & Hmembers).
  destruct (decide (p ∈ items)) as [Hp|Hp].
  2: { exists groups. split; [|done].
       rewrite (filter_other_all p items Hp) in Hlabels, Hmembers.
       exact (conj Hsorted (conj Hdistinct (conj Hlabels Hmembers))). }
  assert (p :: filter (fun u => u ≠ p)
                 (filter (fun u => label u = label p) items)
          ≡ₚ filter (fun u => label u = label p) items) as Hrestore.
  { apply perm_restore; [by apply NoDup_filter|].
    by apply list_elem_of_filter. }
  assert (∀ l0, (∃ u, u ∈ items ∧ label u = l0)
                ↔ l0 = label p
                  ∨ ∃ u, u ∈ filter (fun u => u ≠ p) items ∧ label u = l0)
    as Hcover.
  { intros l0. split.
    - intros (u & Hu & Hl). destruct (decide (u = p)) as [->|Hne].
      + by left.
      + right. exists u. split; [by apply list_elem_of_filter|done].
    - intros [->|(u & [_ Hu]%list_elem_of_filter & Hl)].
      + by exists p.
      + by exists u. }
  destruct (decide (label p ∈ map fst groups)) as [Hin|Hout].
  - exists (map (fun g : string * list string =>
                   if String.eqb g.1 (label p)
                   then (g.1, insertSorted localeCompare p g.2) else g)
                groups).
    assert (map fst
              (map (fun g : string * list string =>
                      if String.eqb g.1 (label p)
                      then (g.1, insertSorted localeCompare p g.2) else g)
                   groups)
            = map fst groups) as Hsame.
    { rewrite map_map. apply map_ext. intros [l1 m1]. cbn [fst snd].
      by destruct (String.eqb l1 (label p)). }
    split; [|apply filter_bumped_groups].
    unfold arranged. rewrite Hsame.
    split; [done|]. split; [done|]. split.
    + intros l0. rewrite Hcover, Hlabels. split; [tauto|].
      intros [->|?]; [|done]. by apply Hlabels.
    + intros l0 members Hg.
      apply list_elem_of_fmap in Hg as ([l1 m1] & Hg & Hin1).
      cbn [fst snd] in Hg.
      destruct (Hmembers l1 m1 Hin1) as [Hperm Hsort].
      destruct (String.eqb_spec l1 (label p)) as [->|Hne];
        injection Hg as -> ->.
      * split; [|by apply insertSorted_sorted].
        rewrite insertSorted_perm, Hperm, filter_label_swap.
        apply Hrestore.
      * split; [|done].
        rewrite Hperm, filter_label_skip; [done|by intros Heq].
  - destruct (insert_group (label p) p groups)
      as (groups' & Hfst & Helem & Hflat).
    exists groups'. split; [|done].
    unfold arranged. rewrite Hfst.
    split; [by apply insertSorted_sorted|].
    split; [rewrite insertSorted_perm; by apply NoDup_cons|].
    split.
    + intros l0. rewrite insertSorted_perm, elem_of_cons, Hcover, Hlabels.
      tauto.
    + intros l0 members [Hg|Hg]%Helem.
      * injection Hg as -> ->. split; [|by repeat constructor].
        rewrite <- Hrestore, <- filter_label_swap.
        rewrite (filter_empty (fun u => label u = label p)
                   (filter (fun u => u ≠ p) items)); [done|].
        intros u Hu Hl. apply Hout, Hlabels. by exists u.
      * destruct (Hmembers l0 members Hg) as [Hperm Hsort].
        split; [|done].
        rewrite Hperm, filter_label_skip; [done|]. intros Heq.
        apply Hout. rewrite Heq.
        apply list_elem_of_fmap. by exists (l0, members).
Qed.

(** The parents kept by the code extend likewise. *)
Lemma sorted_with (p : string) (items kept : list string) :
  NoDup items ->
  kept ≡ₚ filter (fun u => u ≠ p) items ->
  Sorted (fun a b => localeCompare a b <= 0) kept ->
  ∃ kept',
    kept' ≡ₚ items ∧
    Sorted (fun a b => localeCompare a b <= 0) kept' ∧
    filter (fun u => u ≠ p) kept' = filter (fun u => u ≠ p) kept.
Proof.
  intros Hnd Hperm Hsort.
  destruct (decide (p ∈ items)) as [Hp|Hp].
  - exists (insertSorted localeCompare p kept).
    split; [|split].
    + rewrite insertSorted_perm, Hperm. by apply perm_restore.
    + by apply insertSorted_sorted.
    + apply filter_insertSorted_self.
  - exists kept. rewrite (filter_other_all p items Hp) in Hperm.
    by repeat split.
Qed.

End ClaimedOrder.

Section RadialOrder.

Variable localeCompare : string -> string -> Z.
Variable encodeURIComponent : string -> string.
Variable gmsBaseUrl : string.

Lemma shown_unless_previous (cache : gmap string DatahubObject.t)
    (previous : option string) (p : string) (urns : list string) :
  previous = Some p ->
  filter (fun u => is_Some (cache !! u) ∧ previous ≠ Some u) urns
  = filter (fun u => u ≠ p) (filter (fun u => is_Some (cache !! u)) urns).
Proof.
  intros Hp. rewrite list_filter_filter. apply list_filter_iff.
  intros u. rewrite Hp. split.
  - intros [Hc Hne]. split; [|done]. by intros ->.
  - intros [Hne Hc]. split; [done|]. by intros [= ->].
Qed.

Lemma shown_without_previous (cache : gmap string DatahubObject.t)
    (previous : option string) (urns : list string) :
  previous = None ->
  filter (fun u => is_Some (cache !! u) ∧ previous ≠ Some u) urns
  = filter (fun u => is_Some (cache !! u)) urns.
Proof.
  intros Hp. apply list_filter_iff. intros u. rewrite Hp.
  split; [by intros [? _]|done].
Qed.

Lemma shown_empty_previous (cache : gmap string DatahubObject.t)
    (previous : option string) (urns : list string) :
  previous = Some "" ->
  (∀ u, u ∈ urns -> isUrn u) ->
  filter (fun u => is_Some (cache !! u) ∧ previous ≠ Some u) urns
  = filter (fun u => is_Some (cache !! u)) urns.
Proof.
  intros Hp Hurns. rewrite (shown_unless_previous _ _ _ _ Hp).
  apply filter_other_all.
  intros [_ Hin]%list_elem_of_filter. by apply Hurns in Hin.
Qed.


End RadialOrder.


(** The sample run in figures: [g] is listed as a dependency and is absent
    from the cache; the ring starts with the previous center [p], goes on
    with the parents [a] and [b], and ends with the dependencies [d] and [e]
    of the group [views]; [a], a dependency without a label, is not listed a
    second time and [g] is not listed at all. *)
Example sample_tour_ring :
  Neighborhood.previousUrn tourNeighborhood = Some "urn:li:dataset:p" ∧
  Neighborhood.parentUrns tourNeighborhood
    = ["urn:li:dataset:p"; "urn:li:dataset:b"; "urn:li:dataset:a"] ∧
  Neighborhood.dependencyUrns tourNeighborhood
    = ["urn:li:dataset:e"; "urn:li:dataset:a"; "urn:li:dataset:g";
       "urn:li:dataset:d"] ∧
  AppState.entitiesByUrn tourState !! "urn:li:dataset:g" = None ∧
  groupedDependencies codeUnitCompare (AppState.entitiesByUrn tourState)
    tourNeighborhood
    = [("Uncategorized", ["urn:li:dataset:a"]);
       ("views", ["urn:li:dataset:d"; "urn:li:dataset:e"])] ∧
  layoutNeighborUrns codeUnitCompare (AppState.entitiesByUrn tourState)
    tourNeighborhood "urn:li:dataset:c"
    = ["urn:li:dataset:p"; "urn:li:dataset:a"; "urn:li:dataset:b";
       "urn:li:dataset:d"; "urn:li:dataset:e"].
Proof. vm_compute. repeat split; reflexivity. Qed.
